(** * SimpleDB: statement parser, table and engine

    A shallow embedding of the in-memory database of
    [examples/database] ([query_parser.cpp], [table.cpp],
    [database_engine.cpp]) and the properties of its specification.

    Conventions of the embedding:
    - [std::string] is [string]; [char] is [ascii], compared as an unsigned
      byte, the way [std::string::operator<] does;
    - [std::vector<T>] is [list T]; [v[i]] out of range is undefined
      behaviour in C++ and is the outcome [Undefined] here;
    - [std::unordered_map<std::string, T>] is [gmap string T];
    - a C++ exception is the outcome [Throw e]; a method that mutates its
      object is a state transformer that also returns the state reached when
      the exception left it;
    - [std::cout] and [std::cerr] are lists of the lines written so far. *)

From Stdlib Require Import ZArith Ascii.
From stdpp Require Import base decidable option list gmap strings pretty sorting.

Local Open Scope nat_scope.

(** ** C++ runtime: exceptions and outcomes *)

Module Cpp.

(** The three standard exception classes the program can raise; all of them
    derive from [std::exception]. *)
Inductive exception : Type :=
| runtime_error (what_arg : string)
| invalid_argument (what_arg : string)
| out_of_range (what_arg : string).

Definition what (e : exception) : string :=
  match e with
  | runtime_error m => m
  | invalid_argument m => m
  | out_of_range m => m
  end.

(** Outcome of evaluating a C++ expression. *)
Inductive result (A : Type) : Type :=
| Ok (a : A)
| Throw (e : exception)
| Undefined.
Global Arguments Ok {A} a.
Global Arguments Throw {A} e.
Global Arguments Undefined {A}.

Global Instance result_ret : MRet result := λ A a, Ok a.
Global Instance result_bind : MBind result := λ A B k r,
  match r with
  | Ok a => k a
  | Throw e => Throw e
  | Undefined => Undefined
  end.

(** [v[i]] on a [std::vector]. *)
Definition at_ {A} (v : list A) (i : nat) : result A :=
  match v !! i with
  | Some x => Ok x
  | None => Undefined
  end.

(** *** Characters *)

(** [isspace] in the "C" locale, which is what [operator>>] on a default
    constructed [std::istringstream] skips. *)
Definition isspace (c : ascii) : bool :=
  let n := nat_of_ascii c in
  bool_decide (n = 32) || (bool_decide (9 ≤ n) && bool_decide (n ≤ 13)).

Definition isdigit (c : ascii) : bool :=
  let n := nat_of_ascii c in
  bool_decide (48 ≤ n) && bool_decide (n ≤ 57).

(** [::tolower] in the "C" locale: only 'A'..'Z' change. *)
Definition tolower (c : ascii) : ascii :=
  let n := nat_of_ascii c in
  if bool_decide (65 ≤ n) && bool_decide (n ≤ 90) then ascii_of_nat (n + 32)
  else c.

(** *** Strings *)

Fixpoint smap (f : ascii → ascii) (s : string) : string :=
  match s with
  | EmptyString => EmptyString
  | String c s' => String (f c) (smap f s')
  end.

(** [s.back()] of a string, [None] when [s] is empty. *)
Fixpoint back (s : string) : option ascii :=
  match s with
  | EmptyString => None
  | String c EmptyString => Some c
  | String _ s' => back s'
  end.

(** [s.substr(0, s.length() - 1)]. *)
Fixpoint pop_back (s : string) : string :=
  match s with
  | EmptyString => EmptyString
  | String _ EmptyString => EmptyString
  | String c s' => String c (pop_back s')
  end.

(** [s.substr(pos)], for [pos] up to the length of [s]. *)
Fixpoint substr_from (pos : nat) (s : string) : string :=
  match pos, s with
  | S pos', String _ s' => substr_from pos' s'
  | _, _ => s
  end.

Definition front (s : string) : option ascii :=
  match s with
  | EmptyString => None
  | String c _ => Some c
  end.

Definition empty (s : string) : bool :=
  match s with
  | EmptyString => true
  | String _ _ => false
  end.

Fixpoint contains (c : ascii) (s : string) : bool :=
  match s with
  | EmptyString => false
  | String c' s' => bool_decide (c' = c) || contains c s'
  end.

(** [std::string(n, c)]. *)
Fixpoint fill (n : nat) (c : ascii) : string :=
  match n with
  | O => EmptyString
  | S n' => String c (fill n' c)
  end.

(** [os << std::left << std::setw(w) << s]: pad on the right, never cut. *)
Definition setw_left (w : nat) (s : string) : string :=
  s +:+ fill (w - String.length s) " ".

(** [os << std::right << std::setw(w) << s]: pad on the left, never cut. *)
Definition setw_right (w : nat) (s : string) : string :=
  fill (w - String.length s) " " +:+ s.

(** *** Formatted extraction from a string stream

    [while (iss >> token)] reads the maximal runs of non-space characters,
    in order. [cur] is the word being read. *)
Fixpoint words_from (cur : string) (s : string) : list string :=
  match s with
  | EmptyString => if empty cur then [] else [cur]
  | String c s' =>
      if isspace c
      then (if empty cur then [] else [cur]) ++ words_from EmptyString s'
      else words_from (cur +:+ String c EmptyString) s'
  end.

Definition words (s : string) : list string := words_from EmptyString s.

(** [s.find_first_not_of(set)] and [s.find_last_not_of(set)]; [None] is
    [std::string::npos]. *)
Fixpoint find_first_not_of (set s : string) : option nat :=
  match s with
  | EmptyString => None
  | String c s' =>
      if contains c set then S <$> find_first_not_of set s' else Some 0
  end.

Fixpoint find_last_not_of (set s : string) : option nat :=
  match s with
  | EmptyString => None
  | String c s' =>
      match find_last_not_of set s' with
      | Some i => Some (S i)
      | None => if contains c set then None else Some 0
      end
  end.

(** The first [n] characters of [s], all of [s] when it is shorter. *)
Fixpoint string_take (n : nat) (s : string) : string :=
  match n, s with
  | S n', String c s' => String c (string_take n' s')
  | _, _ => EmptyString
  end.

(** [s.substr(pos, n)], for [pos] up to the length of [s]. *)
Definition substr (pos n : nat) (s : string) : string :=
  string_take n (substr_from pos s).

(** *** [std::cin]

    An input stream: the characters not read yet, and whether the stream is
    still good (neither [eofbit] nor [failbit] set). *)
Record istream : Type := mk_istream { buffer : string; good : bool }.

(** The characters up to the first line feed, and what follows it when there
    is one. *)
Fixpoint read_line (s : string) : string * option string :=
  match s with
  | EmptyString => (EmptyString, None)
  | String c s' =>
      if bool_decide (c = "010"%char) then (EmptyString, Some s')
      else let '(line, rest) := read_line s' in (String c line, rest)
  end.

(** [std::getline(stream, str)]. When the stream is not good the sentry fails
    and [str] is left as it is. Otherwise [str] is erased and filled with the
    characters up to the line feed, which is consumed; reaching the end of
    the input sets [eofbit], so that the stream is no longer good. *)
Definition getline (stream : istream) (str : string) : istream * string :=
  if good stream then
    match read_line (buffer stream) with
    | (line, Some rest) => ({| buffer := rest; good := true |}, line)
    | (line, None) => ({| buffer := EmptyString; good := false |}, line)
    end
  else (stream, str).

(** *** [std::stoi]

    [strtol] in base 10: skip leading white space, read an optional sign and
    the longest run of digits, ignore whatever follows. No digit at all is
    [std::invalid_argument]; a value that does not fit an [int] is
    [std::out_of_range]. The text of [what()] is the one of libstdc++. *)
Definition INT_MAX : Z := 2147483647.
Definition INT_MIN : Z := -2147483648.

Fixpoint skip_space (s : string) : string :=
  match s with
  | String c s' => if isspace c then skip_space s' else s
  | EmptyString => EmptyString
  end.

Definition digit_value (c : ascii) : Z := Z.of_nat (nat_of_ascii c) - 48.

(** Reads the digits at the head of [s]; [acc] is [Some v] once a digit has
    been read. *)
Fixpoint read_digits (acc : option Z) (s : string) : option Z :=
  match s with
  | String c s' =>
      if isdigit c
      then read_digits (Some (10 * default 0%Z acc + digit_value c)%Z) s'
      else acc
  | EmptyString => acc
  end.

Definition read_signed (s : string) : option Z :=
  match s with
  | String "-" s' => Z.opp <$> read_digits None s'
  | String "+" s' => read_digits None s'
  | _ => read_digits None s
  end.

Definition stoi (str : string) : result Z :=
  match read_signed (skip_space str) with
  | None => Throw (invalid_argument "stoi")
  | Some v =>
      if bool_decide (INT_MIN ≤ v ≤ INT_MAX)%Z then Ok v
      else Throw (out_of_range "stoi")
  end.

(** *** [double]

    The [double] alternative of the value type, with the library functions
    the program calls on it. [std::stod] either returns or throws. *)
Class Float64 : Type := {
  double : Type;
  stod : string → result double;
  double_eqb : double → double → bool;
  double_ltb : double → double → bool;
  double_to_string : double → string;
  stod_defined : ∀ s, stod s ≠ Undefined;
}.

End Cpp.
Import Cpp.

(** ** table.h: columns *)

Record Column : Type := mkColumn { name : string; type : string }.

Global Instance Column_eq_dec : EqDecision Column.
Proof. solve_decision. Defined.

(** ** query_parser.h, query_parser.cpp *)

Module QueryParser.

Inductive QueryType : Type :=
| CREATE_TABLE
| INSERT
| SELECT
| DROP_TABLE
| SHOW_TABLES
| DESCRIBE
| UNKNOWN.

Global Instance QueryType_eq_dec : EqDecision QueryType.
Proof. solve_decision. Defined.

Record ParsedQuery : Type := mkParsedQuery {
  query_type : QueryType;
  table_name : string;
  columns : list Column;
  selected_columns : list string;
  values : list string;
  where_clause : string;
}.

(** The constructor [ParsedQuery()]. *)
Definition new_ParsedQuery : ParsedQuery :=
  {| query_type := UNKNOWN; table_name := EmptyString;
     columns := []; selected_columns := []; values := [];
     where_clause := EmptyString |}.

Definition is_trailing_punct (c : ascii) : bool :=
  bool_decide (c = ","%char) || bool_decide (c = ";"%char)
  || bool_decide (c = ")"%char).

(** The body of the [while (iss >> token)] loop of [tokenize]: [tokens] is
    the vector built so far, [token] the fragment just read. The inner
    [while] ends in an unconditional [break], so it runs at most once, and
    it leaves [current] empty. *)
Definition tokenize_step (tokens : list string) (token : string) : list string :=
  let current := token in
  let '(tokens, current) :=
    match back current with
    | Some punct =>
        if is_trailing_punct punct then
          let current := pop_back current in
          let tokens := if empty current then tokens else tokens ++ [current] in
          let tokens :=
            if bool_decide (punct = ","%char) || bool_decide (punct = ")"%char)
            then tokens ++ [String punct EmptyString] else tokens in
          (tokens, EmptyString)
        else (tokens, current)
    | None => (tokens, current)
    end in
  let '(tokens, current) :=
    if negb (empty current) && bool_decide (front current = Some "("%char)
    then (tokens ++ ["("], substr_from 1 current)
    else (tokens, current) in
  if empty current then tokens else tokens ++ [current].

Definition tokenize (query : string) : list string :=
  fold_left tokenize_step (words query) [].

Definition toLower (str : string) : string := smap tolower str.

(** [while (start < tokens.size() && tokens[start] != "(") start++], run on
    the tokens from index [start] on. *)
Fixpoint find_open (rest : list string) (start : nat) : nat :=
  match rest with
  | [] => start
  | t :: rest' =>
      if bool_decide (t = "(") then start else find_open rest' (S start)
  end.

(** The column loop of [parseCreateTable], run on the tokens from index [i]
    on; the [i++] inside the body skips the type token. *)
Fixpoint parse_columns (rest : list string) (cols : list Column) : list Column :=
  match rest with
  | [] => cols
  | t :: rest' =>
      if bool_decide (t = ")") then cols
      else if bool_decide (t = ",") then parse_columns rest' cols
      else
        match rest' with
        | t1 :: rest'' =>
            if bool_decide (t1 ≠ ",") && bool_decide (t1 ≠ ")")
            then parse_columns rest'' (cols ++ [mkColumn t (toLower t1)])
            else parse_columns rest' cols
        | [] => parse_columns rest' cols
        end
  end.

Definition parseCreateTable (tokens : list string) (query : ParsedQuery)
  : result ParsedQuery :=
  if bool_decide (length tokens < 4) then
    Throw (runtime_error "Invalid CREATE TABLE syntax")
  else
    name ← at_ tokens 2;
    let start := find_open (drop 3 tokens) 3 in
    if bool_decide (length tokens ≤ start) then
      Throw (runtime_error "Missing column definitions in CREATE TABLE")
    else
      let start := S start in
      mret {| query_type := query_type query; table_name := name;
              columns := parse_columns (drop start tokens) (columns query);
              selected_columns := selected_columns query;
              values := values query; where_clause := where_clause query |}.

(** The quote stripping of [parseInsert]. *)
Definition unquote (value : string) : string :=
  if bool_decide (2 ≤ String.length value)
     && ((bool_decide (front value = Some "034"%char)
          && bool_decide (back value = Some "034"%char))
         || (bool_decide (front value = Some "'"%char)
             && bool_decide (back value = Some "'"%char)))
  then String.substring 1 (String.length value - 2) value
  else value.

Fixpoint parse_values (rest : list string) (vals : list string) : list string :=
  match rest with
  | [] => vals
  | t :: rest' =>
      if bool_decide (t = ")") then vals
      else if bool_decide (t = ",") then parse_values rest' vals
      else parse_values rest' (vals ++ [unquote t])
  end.

Definition parseInsert (tokens : list string) (query : ParsedQuery)
  : result ParsedQuery :=
  if bool_decide (length tokens < 5) then
    Throw (runtime_error "Invalid INSERT syntax")
  else
    t1 ← at_ tokens 1;
    if bool_decide (toLower t1 ≠ "into") then
      Throw (runtime_error "Expected 'INTO' after 'INSERT'")
    else
      name ← at_ tokens 2;
      t3 ← at_ tokens 3;
      if bool_decide (toLower t3 ≠ "values") then
        Throw (runtime_error "Expected 'VALUES' in INSERT statement")
      else
        let start := find_open (drop 4 tokens) 4 in
        if bool_decide (length tokens ≤ start) then
          Throw (runtime_error "Missing values in INSERT statement")
        else
          let start := S start in
          mret {| query_type := query_type query; table_name := name;
                  columns := columns query;
                  selected_columns := selected_columns query;
                  values := parse_values (drop start tokens) (values query);
                  where_clause := where_clause query |}.

(** [for (i = start; i < tokens.size(); ++i) if (toLower(tokens[i]) == kw)
    { pos = i; break; }] with [pos] initially 0, run on the tokens from
    index [i] on. *)
Fixpoint find_keyword (kw : string) (rest : list string) (i : nat) : nat :=
  match rest with
  | [] => 0
  | t :: rest' =>
      if bool_decide (toLower t = kw) then i else find_keyword kw rest' (S i)
  end.

(** The projection loop of [parseSelect], run on [tokens[1 .. from_pos)]. *)
Fixpoint parse_selected (rest : list string) (sel : list string) : list string :=
  match rest with
  | [] => sel
  | t :: rest' =>
      if bool_decide (t = ",") then parse_selected rest' sel
      else if bool_decide (t = "*") then []
      else parse_selected rest' (sel ++ [t])
  end.

Definition parseSelect (tokens : list string) (query : ParsedQuery)
  : result ParsedQuery :=
  if bool_decide (length tokens < 4) then
    Throw (runtime_error "Invalid SELECT syntax")
  else
    let from_pos := find_keyword "from" (drop 1 tokens) 1 in
    if bool_decide (from_pos = 0) then
      Throw (runtime_error "Missing 'FROM' in SELECT statement")
    else
      let sel :=
        parse_selected (take (from_pos - 1) (drop 1 tokens))
                       (selected_columns query) in
      if bool_decide (length tokens ≤ from_pos + 1) then
        Throw (runtime_error "Missing table name after 'FROM'")
      else
        name ← at_ tokens (from_pos + 1);
        let where_pos :=
          find_keyword "where" (drop (from_pos + 2) tokens) (from_pos + 2) in
        wc ←
          (if bool_decide (0 < where_pos)
              && bool_decide (where_pos + 3 < length tokens)
           then
             c ← at_ tokens (where_pos + 1);
             o ← at_ tokens (where_pos + 2);
             v ← at_ tokens (where_pos + 3);
             mret (c +:+ " " +:+ o +:+ " " +:+ v)
           else mret (where_clause query));
        mret {| query_type := query_type query; table_name := name;
                columns := columns query; selected_columns := sel;
                values := values query; where_clause := wc |}.

Definition parseDropTable (tokens : list string) (query : ParsedQuery)
  : result ParsedQuery :=
  if bool_decide (length tokens < 3) then
    Throw (runtime_error "Invalid DROP TABLE syntax")
  else
    name ← at_ tokens 2;
    mret {| query_type := query_type query; table_name := name;
            columns := columns query;
            selected_columns := selected_columns query;
            values := values query; where_clause := where_clause query |}.

Definition parseDescribe (tokens : list string) (query : ParsedQuery)
  : result ParsedQuery :=
  if bool_decide (length tokens < 2) then
    Throw (runtime_error "Invalid DESCRIBE syntax")
  else
    name ← at_ tokens 1;
    mret {| query_type := query_type query; table_name := name;
            columns := columns query;
            selected_columns := selected_columns query;
            values := values query; where_clause := where_clause query |}.

Definition set_type (ty : QueryType) (query : ParsedQuery) : ParsedQuery :=
  {| query_type := ty; table_name := table_name query;
     columns := columns query; selected_columns := selected_columns query;
     values := values query; where_clause := where_clause query |}.

(** [tokens.size() > 1 && toLower(tokens[1]) == kw]. *)
Definition second_is (kw : string) (tokens : list string) : bool :=
  match tokens !! 1 with
  | Some t => bool_decide (toLower t = kw)
  | None => false
  end.

Definition parse (query : string) : result ParsedQuery :=
  let parsed_query := new_ParsedQuery in
  let tokens := tokenize query in
  match tokens with
  | [] => mret parsed_query
  | t0 :: _ =>
      let first_token := toLower t0 in
      if bool_decide (first_token = "create") then
        if second_is "table" tokens
        then parseCreateTable tokens (set_type CREATE_TABLE parsed_query)
        else mret parsed_query
      else if bool_decide (first_token = "insert") then
        parseInsert tokens (set_type INSERT parsed_query)
      else if bool_decide (first_token = "select") then
        parseSelect tokens (set_type SELECT parsed_query)
      else if bool_decide (first_token = "drop") then
        if second_is "table" tokens
        then parseDropTable tokens (set_type DROP_TABLE parsed_query)
        else mret parsed_query
      else if bool_decide (first_token = "show") then
        if second_is "tables" tokens
        then mret (set_type SHOW_TABLES parsed_query)
        else mret parsed_query
      else if bool_decide (first_token = "describe")
              || bool_decide (first_token = "desc") then
        parseDescribe tokens (set_type DESCRIBE parsed_query)
      else mret parsed_query
  end.

End QueryParser.

(** ** table.h, table.cpp *)

Section values.
Context `{F64 : Float64}.

(** [std::variant<int, double, std::string, bool>]. *)
Inductive Value : Type :=
| VInt (i : Z)
| VDouble (d : double)
| VString (s : string)
| VBool (b : bool).

Definition Row : Type := list Value.

(** [v.index()]. *)
Definition index (v : Value) : nat :=
  match v with
  | VInt _ => 0
  | VDouble _ => 1
  | VString _ => 2
  | VBool _ => 3
  end.

(** The relational operators of [std::variant]: the alternatives are
    compared first, the payloads only when the alternatives agree. *)
Definition Value_eq (v w : Value) : bool :=
  match v, w with
  | VInt a, VInt b => bool_decide (a = b)
  | VDouble a, VDouble b => double_eqb a b
  | VString a, VString b => bool_decide (a = b)
  | VBool a, VBool b => bool_decide (a = b)
  | _, _ => false
  end.

Definition Value_ne (v w : Value) : bool :=
  match v, w with
  | VInt a, VInt b => bool_decide (a ≠ b)
  | VDouble a, VDouble b => negb (double_eqb a b)
  | VString a, VString b => bool_decide (a ≠ b)
  | VBool a, VBool b => bool_decide (a ≠ b)
  | _, _ => true
  end.

Definition Value_lt (v w : Value) : bool :=
  match v, w with
  | VInt a, VInt b => bool_decide (a < b)%Z
  | VDouble a, VDouble b => double_ltb a b
  | VString a, VString b => String.ltb a b
  | VBool a, VBool b => negb a && b
  | _, _ => bool_decide (index v < index w)
  end.

Definition Value_gt (v w : Value) : bool :=
  match v, w with
  | VInt a, VInt b => bool_decide (b < a)%Z
  | VDouble a, VDouble b => double_ltb b a
  | VString a, VString b => String.ltb b a
  | VBool a, VBool b => a && negb b
  | _, _ => bool_decide (index w < index v)
  end.

Definition Value_le (v w : Value) : bool :=
  match v, w with
  | VInt a, VInt b => bool_decide (a ≤ b)%Z
  | VDouble a, VDouble b => double_ltb a b || double_eqb a b
  | VString a, VString b => String.leb a b
  | VBool a, VBool b => negb a || b
  | _, _ => bool_decide (index v < index w)
  end.

Definition Value_ge (v w : Value) : bool :=
  match v, w with
  | VInt a, VInt b => bool_decide (b ≤ a)%Z
  | VDouble a, VDouble b => double_ltb b a || double_eqb b a
  | VString a, VString b => String.leb b a
  | VBool a, VBool b => a || negb b
  | _, _ => bool_decide (index w < index v)
  end.

End values.

Module Table.
Section table.
Context `{F64 : Float64}.

Record t : Type := mk {
  table_name : string;
  columns : list Column;
  rows : list Row;
  column_index_map : gmap string nat;
}.

(** The constructor [Table(name)]. *)
Definition new (name : string) : t :=
  {| table_name := name; columns := []; rows := []; column_index_map := ∅ |}.

Definition size (tbl : t) : nat := length (rows tbl).

Definition addColumn (name type : string) (tbl : t) : t :=
  let columns' := columns tbl ++ [mkColumn name type] in
  {| table_name := table_name tbl; columns := columns'; rows := rows tbl;
     column_index_map :=
       <[name := length columns' - 1]> (column_index_map tbl) |}.

Definition hasColumn (tbl : t) (name : string) : bool :=
  bool_decide (is_Some (column_index_map tbl !! name)).

Definition getColumnIndex (tbl : t) (name : string) : result nat :=
  match column_index_map tbl !! name with
  | Some i => Ok i
  | None => Throw (runtime_error ("Column '" +:+ name +:+ "' not found"))
  end.

Definition push_row (row : Row) (tbl : t) : t :=
  {| table_name := table_name tbl; columns := columns tbl;
     rows := rows tbl ++ [row]; column_index_map := column_index_map tbl |}.

(** [insertRow(const Row&)]. *)
Definition insertRow (row : Row) (tbl : t) : t * result unit :=
  if bool_decide (length row ≠ length (columns tbl)) then
    (tbl, Throw (runtime_error "Row size doesn't match number of columns"))
  else (push_row row tbl, Ok ()).

Definition parseValue (value_str type : string) : result Value :=
  if bool_decide (type = "int") then i ← stoi value_str; mret (VInt i)
  else if bool_decide (type = "double") then d ← stod value_str; mret (VDouble d)
  else if bool_decide (type = "bool") then
    let lower := smap tolower value_str in
    mret (VBool (bool_decide (lower = "true") || bool_decide (lower = "1")))
  else mret (VString value_str).

(** The conversion loop of [insertRow(const std::vector<std::string>&)], run
    on the values from index [i] on; [row] is the local row built so far. *)
Fixpoint build_row (tbl : t) (rest : list string) (i : nat) (row : Row)
  : result Row :=
  match rest with
  | [] => mret row
  | value :: rest' =>
      col ← at_ (columns tbl) i;
      v ← parseValue value (type col);
      build_row tbl rest' (S i) (row ++ [v])
  end.

(** [insertRow(const std::vector<std::string>&)]. *)
Definition insertRow_strings (values : list string) (tbl : t) : t * result unit :=
  if bool_decide (length values ≠ length (columns tbl)) then
    (tbl,
     Throw (runtime_error "Number of values doesn't match number of columns"))
  else
    match build_row tbl values 0 [] with
    | Ok row => (push_row row tbl, Ok ())
    | Throw e => (tbl, Throw e)
    | Undefined => (tbl, Undefined)
    end.

Definition valueToString (value : Value) : string :=
  match value with
  | VString v => v
  | VBool v => if v then "true" else "false"
  | VInt v => pretty v
  | VDouble v => double_to_string v
  end.

Definition compare_op (op : string) (row_value condition_value : Value) : bool :=
  if bool_decide (op = "=") then Value_eq row_value condition_value
  else if bool_decide (op = "!=") then Value_ne row_value condition_value
  else if bool_decide (op = "<") then Value_lt row_value condition_value
  else if bool_decide (op = ">") then Value_gt row_value condition_value
  else if bool_decide (op = "<=") then Value_le row_value condition_value
  else if bool_decide (op = ">=") then Value_ge row_value condition_value
  else false.

Definition evaluateCondition (tbl : t) (row : Row) (condition : string)
  : result bool :=
  match words condition with
  | column_name :: op :: value_str :: _ =>
      if negb (hasColumn tbl column_name) then mret false
      else
        col_idx ← getColumnIndex tbl column_name;
        row_value ← at_ row col_idx;
        col ← at_ (columns tbl) col_idx;
        condition_value ← parseValue value_str (type col);
        mret (compare_op op row_value condition_value)
  | _ => mret true
  end.

(** The loop of [selectRows], run on the rows from index [i] on. *)
Fixpoint select_loop (tbl : t) (where_clause : string) (rest : list Row)
    (i : nat) (res : list nat) : result (list nat) :=
  match rest with
  | [] => mret res
  | row :: rest' =>
      keep ← (if empty where_clause then mret true
              else evaluateCondition tbl row where_clause);
      select_loop tbl where_clause rest' (S i)
                  (if keep : bool then res ++ [i] else res)
  end.

Definition selectRows (tbl : t) (where_clause : string) : result (list nat) :=
  select_loop tbl where_clause (rows tbl) 0 [].

(** *** [printRows] *)

(** The two parallel vectors [col_indices] and [headers], kept as pairs. *)
Fixpoint selected_headers (tbl : t) (selected_columns : list string)
  : result (list (nat * string)) :=
  match selected_columns with
  | [] => mret []
  | col_name :: rest =>
      if hasColumn tbl col_name then
        i ← getColumnIndex tbl col_name;
        hs ← selected_headers tbl rest;
        mret ((i, col_name) :: hs)
      else selected_headers tbl rest
  end.

Definition all_headers (tbl : t) : list (nat * string) :=
  imap (λ i col, (i, name col)) (columns tbl).

Definition headers_of (tbl : t) (selected_columns : list string)
  : result (list (nat * string)) :=
  match selected_columns with
  | [] => mret (all_headers tbl)
  | _ => selected_headers tbl selected_columns
  end.

(** [valueToString(rows[row_idx][col_idx])]. *)
Definition cell (tbl : t) (row_idx col_idx : nat) : result string :=
  row ← at_ (rows tbl) row_idx;
  v ← at_ row col_idx;
  mret (valueToString v).

(** The inner loop of the width computation. *)
Fixpoint max_width_loop (tbl : t) (col_idx : nat) (row_indices : list nat)
    (max_width : nat) : result nat :=
  match row_indices with
  | [] => mret max_width
  | row_idx :: rest =>
      if bool_decide (row_idx < length (rows tbl)) then
        value_str ← cell tbl row_idx col_idx;
        max_width_loop tbl col_idx rest
                       (Nat.max max_width (String.length value_str))
      else max_width_loop tbl col_idx rest max_width
  end.

Fixpoint widths_of (tbl : t) (row_indices : list nat)
    (headers : list (nat * string)) : result (list nat) :=
  match headers with
  | [] => mret []
  | (col_idx, header) :: rest =>
      max_width ← max_width_loop tbl col_idx row_indices (String.length header);
      ws ← widths_of tbl row_indices rest;
      mret (Nat.max max_width 8 :: ws)
  end.

Fixpoint sconcat (l : list string) : string :=
  match l with
  | [] => EmptyString
  | s :: l' => s +:+ sconcat l'
  end.

Definition rule (widths : list nat) : string :=
  "+" +:+ sconcat ((λ width, fill (width + 2) "-" +:+ "+") <$> widths).

Definition header_line (widths : list nat) (headers : list (nat * string))
  : string :=
  "|" +:+ sconcat (zip_with (λ width h, " " +:+ setw_left width h.2 +:+ " |")
                            widths headers).

(** The cells of one printed row, already padded. *)
Fixpoint row_cells (tbl : t) (row_idx : nat) (widths : list nat)
    (headers : list (nat * string)) : result (list string) :=
  match headers, widths with
  | (col_idx, _) :: hs, width :: ws =>
      value_str ← cell tbl row_idx col_idx;
      cs ← row_cells tbl row_idx ws hs;
      mret ((" " +:+ setw_left width value_str +:+ " |") :: cs)
  | (_, _) :: _, [] => Undefined
  | [], _ => mret []
  end.

Fixpoint row_lines (tbl : t) (widths : list nat) (headers : list (nat * string))
    (row_indices : list nat) : result (list string) :=
  match row_indices with
  | [] => mret []
  | row_idx :: rest =>
      if bool_decide (row_idx < length (rows tbl)) then
        cs ← row_cells tbl row_idx widths headers;
        ls ← row_lines tbl widths headers rest;
        mret (("|" +:+ sconcat cs) :: ls)
      else row_lines tbl widths headers rest
  end.

(** The lines [printRows] writes to [std::cout]. *)
Definition printRows (tbl : t) (row_indices : list nat)
    (selected_columns : list string) : result (list string) :=
  headers ← headers_of tbl selected_columns;
  widths ← widths_of tbl row_indices headers;
  body ← row_lines tbl widths headers row_indices;
  mret ([rule widths; header_line widths headers; rule widths]
        ++ body
        ++ [rule widths; "(" +:+ pretty (length row_indices) +:+ " rows)"]).

(** [printTable]: every row, every column. *)
Definition printTable (tbl : t) : result (list string) :=
  row_indices ← selectRows tbl EmptyString;
  printRows tbl row_indices [].

End table.
End Table.

(** ** database_engine.h, database_engine.cpp *)

Module DatabaseEngine.
Section engine.
Context `{F64 : Float64}.

(** The engine object, together with what has been written to the two
    standard streams. *)
Record t : Type := mk {
  tables : gmap string Table.t;
  cout : list string;
  cerr : list string;
}.

(** A freshly constructed engine with nothing written yet. *)
Definition new : t := {| tables := ∅; cout := []; cerr := [] |}.

(** A method of the engine: it returns the state it leaves behind also when
    it throws. *)
Definition M (A : Type) : Type := t → t * result A.

Definition ret {A} (a : A) : M A := λ st, (st, Ok a).

Definition bind {A B} (m : M A) (k : A → M B) : M B := λ st,
  match m st with
  | (st', Ok a) => k a st'
  | (st', Throw e) => (st', Throw e)
  | (st', Undefined) => (st', Undefined)
  end.

Definition throw {A} (e : exception) : M A := λ st, (st, Throw e).

(** A computation that does not touch the engine. *)
Definition lift {A} (r : result A) : M A := λ st, (st, r).

Definition set_tables (f : gmap string Table.t → gmap string Table.t) : M unit :=
  λ st, ({| tables := f (tables st); cout := cout st; cerr := cerr st |}, Ok ()).

(** [std::cout << ...], one element per line. *)
Definition write_cout (lines : list string) : M unit := λ st,
  ({| tables := tables st; cout := cout st ++ lines; cerr := cerr st |}, Ok ()).

Definition write_cerr (lines : list string) : M unit := λ st,
  ({| tables := tables st; cout := cout st; cerr := cerr st ++ lines |}, Ok ()).

Global Instance M_ret : MRet M := @ret.
Global Instance M_bind : MBind M := λ A B k m, bind m k.

Definition not_found (table_name : string) : exception :=
  runtime_error ("Table '" +:+ table_name +:+ "' not found").

Definition hasTable (st : t) (table_name : string) : bool :=
  bool_decide (is_Some (tables st !! table_name)).

Definition createTable (table_name : string) : M unit := λ st,
  if hasTable st table_name then
    throw (runtime_error ("Table '" +:+ table_name +:+ "' already exists")) st
  else set_tables (<[table_name := Table.new table_name]>) st.

(** [getTable] returns a pointer into the registry; here it returns the
    table, and the callers store the table back after changing it. *)
Definition getTable (table_name : string) : M Table.t := λ st,
  match tables st !! table_name with
  | Some tbl => ret tbl st
  | None => throw (not_found table_name) st
  end.

Definition dropTable (table_name : string) : M unit := λ st,
  if negb (hasTable st table_name) then throw (not_found table_name) st
  else set_tables (delete table_name) st.

(** [std::sort] on strings: ascending for [operator<]. The traversal of the
    unordered map visits every key once, in an order of its own. *)
Definition listTables (st : t) : list string :=
  merge_sort String.le ((map_to_list (tables st)).*1).

Definition addColumn (table_name column_name type : string) : M unit :=
  tbl ← getTable table_name;
  set_tables (<[table_name := Table.addColumn column_name type tbl]>).

Definition insertInto (table_name : string) (values : list string) : M unit :=
  tbl ← getTable table_name;
  let '(tbl', r) := Table.insertRow_strings values tbl in
  set_tables (<[table_name := tbl']>);;
  lift r.

Definition select (table_name : string) (columns : list string)
    (where_clause : string) : M unit := λ st,
  match tables st !! table_name with
  | None => throw (not_found table_name) st
  | Some tbl =>
      (lines ← lift (row_indices ← Table.selectRows tbl where_clause;
                     Table.printRows tbl row_indices columns);
       write_cout lines) st
  end.

Definition table_line (name : string) (tbl : Table.t) : string :=
  "| " +:+ setw_left 14 name +:+ " | "
  +:+ setw_right 5 (pretty (Table.size tbl)) +:+ " |".

(** The loop skips a name that [tables.find] does not find. *)
Definition showTables_lines (st : t) : list string :=
  ["Tables in database:";
   "+----------------+-------+";
   "| Table Name     | Rows  |";
   "+----------------+-------+"]
  ++ omap (λ name, table_line name <$> tables st !! name) (listTables st)
  ++ ["+----------------+-------+";
      "(" +:+ pretty (size (tables st)) +:+ " tables)"].

Definition showTables : M unit := λ st, write_cout (showTables_lines st) st.

Definition column_line (column : Column) : string :=
  "| " +:+ setw_left 14 (name column) +:+ " | "
  +:+ setw_left 14 (type column) +:+ " |".

Definition describeTable_lines (table_name : string) (tbl : Table.t)
  : list string :=
  ["Table: " +:+ table_name;
   "+----------------+----------------+";
   "| Column Name    | Type           |";
   "+----------------+----------------+"]
  ++ (column_line <$> Table.columns tbl)
  ++ ["+----------------+----------------+";
      "(" +:+ pretty (length (Table.columns tbl)) +:+ " columns, "
      +:+ pretty (Table.size tbl) +:+ " rows)"].

Definition describeTable (table_name : string) : M unit := λ st,
  match tables st !! table_name with
  | None => throw (not_found table_name) st
  | Some tbl => write_cout (describeTable_lines table_name tbl) st
  end.

(** [for (const auto& col : parsed_query.columns) addColumn(...)]. *)
Fixpoint addColumns (table_name : string) (cols : list Column) : M unit :=
  match cols with
  | [] => ret ()
  | col :: cols' =>
      addColumn table_name (name col) (type col);;
      addColumns table_name cols'
  end.

(** The chain of tests on [parsed_query.type]. *)
Definition execute (parsed_query : QueryParser.ParsedQuery) : M unit :=
  let table_name := QueryParser.table_name parsed_query in
  match QueryParser.query_type parsed_query with
  | QueryParser.CREATE_TABLE =>
      createTable table_name;;
      addColumns table_name (QueryParser.columns parsed_query);;
      write_cout ["Table '" +:+ table_name +:+ "' created successfully."]
  | QueryParser.INSERT =>
      insertInto table_name (QueryParser.values parsed_query);;
      write_cout ["1 row inserted."]
  | QueryParser.SELECT =>
      select table_name (QueryParser.selected_columns parsed_query)
             (QueryParser.where_clause parsed_query)
  | QueryParser.DROP_TABLE =>
      dropTable table_name;;
      write_cout ["Table '" +:+ table_name +:+ "' dropped successfully."]
  | QueryParser.SHOW_TABLES => showTables
  | QueryParser.DESCRIBE => describeTable table_name
  | QueryParser.UNKNOWN => ret ()
  end.

(** The [try] block of [executeQuery]. *)
Definition dispatch (query : string) : M unit :=
  parsed_query ← lift (QueryParser.parse query);
  execute parsed_query.

(** [catch (const std::exception& e)]: every exception of the program is a
    [std::exception]. *)
Definition executeQuery (query : string) : M unit := λ st,
  match dispatch query st with
  | (st', Ok _) => (st', Ok ())
  | (st', Throw e) => write_cerr ["Error: " +:+ what e] st'
  | (st', Undefined) => (st', Undefined)
  end.

(** A session: the statements run one after the other, as the shell does. *)
Fixpoint executeQueries (queries : list string) : M unit :=
  match queries with
  | [] => ret ()
  | q :: qs => executeQuery q;; executeQueries qs
  end.

Definition getTableCount (st : t) : nat := size (tables st).

(** The loop of [printDatabaseInfo] over the registry. *)
Definition total_rows (st : t) : nat :=
  map_fold (λ _ tbl total, total + Table.size tbl) 0 (tables st).

Definition printDatabaseInfo_lines (st : t) : list string :=
  [EmptyString;
   "=== SimpleDB Database Information ===";
   "Total tables: " +:+ pretty (size (tables st));
   "Total rows: " +:+ pretty (total_rows st);
   "====================================";
   EmptyString].

Definition printDatabaseInfo : M unit := λ st,
  write_cout (printDatabaseInfo_lines st) st.

End engine.
End DatabaseEngine.

(** ** database.cpp *)

Module SimpleDatabase.
Section shell.
Context `{F64 : Float64}.

(** The shell: the engine with the standard output, the [running] flag, the
    standard input, the variable [input] of [run], which lives across the
    iterations of its loop, and the number of times the screen was cleared.
    The prompt is the one piece of output written without a line end. *)
Record t : Type := mk {
  engine : DatabaseEngine.t;
  running : bool;
  cin : istream;
  input : string;
  cleared : nat;
}.

(** The constructor [SimpleDatabase()], reading from [stdin]. *)
Definition new (stdin : string) : t :=
  {| engine := DatabaseEngine.new; running := true;
     cin := {| buffer := stdin; good := true |};
     input := EmptyString; cleared := 0 |}.

Definition blanks : string :=
  String " " (String "009" (String "010" (String "013" EmptyString))).

Definition trim (str : string) : string :=
  match find_first_not_of blanks str with
  | None => EmptyString
  | Some start =>
      match find_last_not_of blanks str with
      | Some end_ => substr start (end_ - start + 1) str
      | None => EmptyString
      end
  end.

Definition with_engine (f : DatabaseEngine.t → DatabaseEngine.t) (sh : t) : t :=
  {| engine := f (engine sh); running := running sh; cin := cin sh;
     input := input sh; cleared := cleared sh |}.

Definition write (lines : list string) (sh : t) : t :=
  with_engine (λ st, (DatabaseEngine.write_cout lines st).1) sh.

Definition printWelcome_lines : list string :=
  ["========================================";
   "      Welcome to SimpleDB v1.0         ";
   "    A lightweight C++ database         ";
   "========================================";
   EmptyString;
   "Type 'help' for available commands";
   "Type 'exit' or 'quit' to exit";
   EmptyString].

Definition printHelp_lines : list string :=
  [EmptyString;
   "Available Commands:";
   "==================";
   "CREATE TABLE <name> (<col1> <type1>, <col2> <type2>, ...)";
   "  - Creates a new table with specified columns";
   "  - Supported types: int, double, string, bool";
   "  - Example: CREATE TABLE users (id int, name string, age int)";
   EmptyString;
   "INSERT INTO <table> VALUES (<val1>, <val2>, ...)";
   "  - Inserts a new row into the table";
   "  - Example: INSERT INTO users VALUES (1, John, 25)";
   EmptyString;
   "SELECT * FROM <table> [WHERE <condition>]";
   "SELECT <col1>, <col2> FROM <table> [WHERE <condition>]";
   "  - Selects data from a table";
   "  - Example: SELECT * FROM users WHERE age > 20";
   EmptyString;
   "DROP TABLE <table>";
   "  - Removes a table and all its data";
   EmptyString;
   "SHOW TABLES";
   "  - Lists all tables in the database";
   EmptyString;
   "DESCRIBE <table> or DESC <table>";
   "  - Shows the structure of a table";
   EmptyString;
   "Other Commands:";
   "  help     - Show this help message";
   "  info     - Show database information";
   "  clear    - Clear the screen";
   "  exit     - Exit the database";
   EmptyString].

(** [clearScreen] hands over to the system's [clear]. *)
Definition clearScreen (sh : t) : t :=
  {| engine := engine sh; running := running sh; cin := cin sh;
     input := input sh; cleared := S (cleared sh) |}.

(** The tests on [lower_input] that end the loop. *)
Definition is_exit (lower_input : string) : bool :=
  bool_decide (lower_input = "exit") || bool_decide (lower_input = "quit").

(** The commands of the shell itself and the statements of the engine, on a
    line that is neither empty nor an exit. *)
Definition command (input lower_input : string) (sh : t) : result t :=
  if bool_decide (lower_input = "help") then Ok (write printHelp_lines sh)
  else if bool_decide (lower_input = "info") then
    Ok (with_engine (λ st, (DatabaseEngine.printDatabaseInfo st).1) sh)
  else if bool_decide (lower_input = "clear") then
    Ok (write printWelcome_lines (clearScreen sh))
  else
    match DatabaseEngine.executeQuery input (engine sh) with
    | (st', Ok _) => Ok (with_engine (λ _, st') sh)
    | (_, Throw e) => Throw e
    | (_, Undefined) => Undefined
    end.

(** One turn of the [while (running)] loop of [run]. *)
Definition iteration (sh : t) : result t :=
  let sh := write ["simpledb> "] sh in
  let '(cin', input') := getline (cin sh) (input sh) in
  let input' := trim input' in
  let sh := {| engine := engine sh; running := running sh; cin := cin';
               input := input'; cleared := cleared sh |} in
  if empty input' then Ok sh
  else
    let lower_input := smap tolower input' in
    if is_exit lower_input then
      Ok (write ["Goodbye!"]
            {| engine := engine sh; running := false; cin := cin sh;
               input := input sh; cleared := cleared sh |})
    else
      sh ← command input' lower_input sh;
      Ok (write [EmptyString] sh).

(** The loop of [run], for at most [fuel] turns: the shell has stopped when
    [running] is false in the state returned. *)
Fixpoint loop (fuel : nat) (sh : t) : result t :=
  match fuel with
  | O => Ok sh
  | S fuel' =>
      if running sh then sh' ← iteration sh; loop fuel' sh' else Ok sh
  end.

Definition run (fuel : nat) (sh : t) : result t :=
  loop fuel (write printWelcome_lines sh).

Definition sample_queries : list string :=
  ["CREATE TABLE users (id int, name string, age int, active bool)";
   "INSERT INTO users VALUES (1, Alice, 25, true)";
   "INSERT INTO users VALUES (2, Bob, 30, true)";
   "INSERT INTO users VALUES (3, Charlie, 22, false)";
   "INSERT INTO users VALUES (4, Diana, 28, true)";
   "CREATE TABLE products (id int, name string, price double, in_stock bool)";
   "INSERT INTO products VALUES (1, Laptop, 999.99, true)";
   "INSERT INTO products VALUES (2, Mouse, 25.50, true)";
   "INSERT INTO products VALUES (3, Keyboard, 75.00, false)";
   "INSERT INTO products VALUES (4, Monitor, 299.99, true)"].

(** [loadSampleData], on the engine of the shell. *)
Definition loadSampleData (st : DatabaseEngine.t) : DatabaseEngine.t * result unit :=
  let st := (DatabaseEngine.write_cout ["Loading sample data..."] st).1 in
  match DatabaseEngine.executeQueries sample_queries st with
  | (st', Ok _) =>
      DatabaseEngine.write_cout
        ["Sample data loaded successfully!";
         "Try: SHOW TABLES";
         "Try: SELECT * FROM users";
         "Try: SELECT * FROM products WHERE price > 50";
         EmptyString] st'
  | (st', Throw e) =>
      DatabaseEngine.write_cerr ["Error loading sample data: " +:+ what e] st'
  | (st', Undefined) => (st', Undefined)
  end.

End shell.
End SimpleDatabase.

(** ** An instance of [double] for closed examples

    Decimal numerals read exactly, as rationals with a power of ten as
    denominator; it serves only where a statement needs a concrete value
    type, and no theorem depends on it. *)
Module ExactDecimal.

Fixpoint read_fraction (s : string) (num : Z) (scale : nat) : Z * nat :=
  match s with
  | String c s' =>
      if isdigit c then read_fraction s' (10 * num + digit_value c)%Z (S scale)
      else (num, scale)
  | EmptyString => (num, scale)
  end.

Fixpoint skip_digits (s : string) : string :=
  match s with
  | String c s' => if isdigit c then skip_digits s' else s
  | EmptyString => EmptyString
  end.

Definition read_decimal (s : string) : option (Z * nat) :=
  match read_digits None s with
  | Some v =>
      match skip_digits s with
      | String "." s' => Some (read_fraction s' v 0)
      | _ => Some (v, 0)
      end
  | None => None
  end.

Definition stod (str : string) : result (Z * nat) :=
  let s := skip_space str in
  let r :=
    match s with
    | String "-" s' => prod_map Z.opp id <$> read_decimal s'
    | String "+" s' => read_decimal s'
    | _ => read_decimal s
    end in
  match r with
  | Some d => Ok d
  | None => Throw (invalid_argument "stod")
  end.

Definition eqb (a b : Z * nat) : bool :=
  bool_decide (a.1 * 10 ^ Z.of_nat b.2 = b.1 * 10 ^ Z.of_nat a.2)%Z.

Definition ltb (a b : Z * nat) : bool :=
  bool_decide (a.1 * 10 ^ Z.of_nat b.2 < b.1 * 10 ^ Z.of_nat a.2)%Z.

Definition to_string (a : Z * nat) : string :=
  pretty a.1 +:+ "e-" +:+ pretty a.2.

Definition float64 : Float64.
Proof.
  refine {| double := Z * nat; Cpp.stod := stod; double_eqb := eqb;
            double_ltb := ltb; double_to_string := to_string |}.
  intros s. unfold stod.
  by destruct (match skip_space s with String _ _ => _ | _ => _ end).
Defined.

End ExactDecimal.

(** The statements of the users scenario, as the shell receives them. *)
Definition scenario : list string :=
  ["CREATE TABLE users (id int, name string, age int)";
   "INSERT INTO users VALUES (1, Alice, 30)";
   "INSERT INTO users VALUES (2, Bob, 25)";
   "SELECT name FROM users WHERE age > 26"].

(** The same statements with a space after the open parenthesis of the
    value lists. *)
Definition scenario_spaced : list string :=
  ["CREATE TABLE users (id int, name string, age int)";
   "INSERT INTO users VALUES ( 1, Alice, 30)";
   "INSERT INTO users VALUES ( 2, Bob, 25)";
   "SELECT name FROM users WHERE age > 26"].

(** A table [users (age int)] holding the row [(30)]. *)
Definition users_ages : @Table.t ExactDecimal.float64 :=
  Table.push_row [VInt 30] (Table.addColumn "age" "int" (Table.new "users")).

(** * Specification *)

(** ** Tokens *)

(** Parentheses and commas are isolated in [tokens]: a token longer than one
    character contains none of them. *)
Definition isolated (tokens : list string) : Prop :=
  ∀ token, token ∈ tokens → 1 < String.length token →
    contains "(" token = false ∧ contains ")" token = false
    ∧ contains "," token = false.

Definition ends_with_punct (fragment : string) : bool :=
  match back fragment with
  | Some c => QueryParser.is_trailing_punct c
  | None => false
  end.

(** The punctuation of a white-space delimited fragment sits at its ends: an
    open parenthesis only in front, a comma or a close parenthesis only at the
    back, and, beyond two characters, not an open parenthesis in front
    together with a comma, semicolon or close parenthesis at the back. *)
Definition punct_at_ends (fragment : string) : bool :=
  negb (contains "(" (substr_from 1 fragment))
  && negb (contains "," (pop_back fragment))
  && negb (contains ")" (pop_back fragment))
  && negb (bool_decide (front fragment = Some "("%char)
           && ends_with_punct fragment
           && bool_decide (2 < String.length fragment)).

(** ** Tables *)

Section table_spec.
Context `{F64 : Float64}.

(** The alternative of [Value] that a column of declared type [ty] holds:
    [int], [double] and [bool] name their own, every other type name is kept
    as a string. *)
Definition kind_of_type (ty : string) : nat :=
  if bool_decide (ty = "int") then 0
  else if bool_decide (ty = "double") then 1
  else if bool_decide (ty = "bool") then 3
  else 2.

(** The shape invariant of one row: as many values as columns, each of the
    kind its column declares. *)
Definition row_shape (cols : list Column) (row : Row) : Prop :=
  Forall2 (λ v col, index v = kind_of_type (type col)) row cols.

Definition shape_invariant (tbl : Table.t) : Prop :=
  Forall (row_shape (Table.columns tbl)) (Table.rows tbl).

(** Its first half: every row is as long as the column list. *)
Definition length_invariant (tbl : Table.t) : Prop :=
  Forall (λ row : Row, length row = length (Table.columns tbl)) (Table.rows tbl).

(** The name index maps exactly the column names, each to a column of that
    name. *)
Definition index_consistent (tbl : Table.t) : Prop :=
  (∀ n i, Table.column_index_map tbl !! n = Some i →
          name <$> Table.columns tbl !! i = Some n)
  ∧ (∀ col, col ∈ Table.columns tbl →
            is_Some (Table.column_index_map tbl !! name col)).

Definition Table_wf (tbl : Table.t) : Prop :=
  index_consistent tbl ∧ length_invariant tbl.

(** The column indices [printRows] collects are those of columns. *)
Definition in_columns (tbl : Table.t) (headers : list (nat * string)) : Prop :=
  Forall (λ h : nat * string, h.1 < length (Table.columns tbl)) headers.

(** [value] parses as the numeric type [ty]: the conversion [parseValue]
    applies for that type returns. *)
Definition parses_as (ty value : string) : Prop :=
  (ty = "int" → ∃ i, stoi value = Ok i)
  ∧ (ty = "double" → ∃ d, stod value = Ok d).

Definition numeric (ty : string) : Prop := ty = "int" ∨ ty = "double".

(** The inputs [insertRow] must reject: a wrong number of values, or a value
    of a numeric column that does not parse. *)
Definition rejected (tbl : Table.t) (values : list string) : Prop :=
  length values ≠ length (Table.columns tbl)
  ∨ ∃ i col value,
      Table.columns tbl !! i = Some col ∧ values !! i = Some value
      ∧ numeric (type col) ∧ ¬ parses_as (type col) value.

End table_spec.

(** ** The engine *)

Section engine_spec.
Context `{F64 : Float64}.
Import DatabaseEngine.

(** Every registered table has a consistent index and rows as long as its
    column list. *)
Definition Engine_wf (st : DatabaseEngine.t) : Prop :=
  map_Forall (λ _ tbl, Table_wf tbl) (tables st).

(** Every row of every registered table satisfies the shape invariant. *)
Definition Engine_typed (st : DatabaseEngine.t) : Prop :=
  map_Forall (λ _ tbl, shape_invariant tbl) (tables st).

(** The calls a client can make on an engine. *)
Inductive operation : Type :=
| OpCreateTable (table_name : string)
| OpAddColumn (table_name column_name type : string)
| OpInsertInto (table_name : string) (values : list string)
| OpSelect (table_name : string) (columns : list string) (where_clause : string)
| OpDropTable (table_name : string)
| OpShowTables
| OpDescribeTable (table_name : string)
| OpExecuteQuery (query : string).

Definition run (op : operation) : M unit :=
  match op with
  | OpCreateTable table_name => createTable table_name
  | OpAddColumn table_name column_name type =>
      addColumn table_name column_name type
  | OpInsertInto table_name values => insertInto table_name values
  | OpSelect table_name columns where_clause =>
      select table_name columns where_clause
  | OpDropTable table_name => dropTable table_name
  | OpShowTables => showTables
  | OpDescribeTable table_name => describeTable table_name
  | OpExecuteQuery query => executeQuery query
  end.

(** The state after a series of calls, whatever each of them returned. *)
Definition run_all (ops : list operation) (st : DatabaseEngine.t)
  : DatabaseEngine.t :=
  fold_left (λ st op, (run op st).1) ops st.

(** The calls that create the table [table_name]. *)
Definition creates (table_name : string) (op : operation) : Prop :=
  match op with
  | OpCreateTable n => n = table_name
  | OpExecuteQuery query =>
      ∃ pq, QueryParser.parse query = Ok pq
        ∧ QueryParser.query_type pq = QueryParser.CREATE_TABLE
        ∧ QueryParser.table_name pq = table_name
  | _ => False
  end.

(** Every operation that refers to the table [table_name] throws the "not
    found" error and leaves the state alone. *)
Definition fails_not_found (st : DatabaseEngine.t) (table_name : string) : Prop :=
  getTable table_name st = (st, Throw (not_found table_name))
  ∧ (∀ values,
       insertInto table_name values st = (st, Throw (not_found table_name)))
  ∧ (∀ columns where_clause,
       select table_name columns where_clause st
       = (st, Throw (not_found table_name)))
  ∧ describeTable table_name st = (st, Throw (not_found table_name))
  ∧ dropTable table_name st = (st, Throw (not_found table_name)).

(** [createTable] on each name in turn. *)
Definition create_all (names : list string) (st : DatabaseEngine.t)
  : DatabaseEngine.t :=
  fold_left (λ st name, (createTable name st).1) names st.



End engine_spec.

(** ** What a statement does

    The outcomes of [executeQuery], one constructor per path through the
    parser and the engine. *)

Section outcomes.
Context `{F64 : Float64}.
Import QueryParser DatabaseEngine.

(** The state after the handler has written the message of [e]. *)
Definition report (e : exception) (st : DatabaseEngine.t) : DatabaseEngine.t :=
  mk (tables st) (cout st) (cerr st ++ ["Error: " +:+ what e]).

Definition print (lines : list string) (st : DatabaseEngine.t)
  : DatabaseEngine.t :=
  mk (tables st) (cout st ++ lines) (cerr st).

Definition with_tables (m : gmap string Table.t) (st : DatabaseEngine.t)
  : DatabaseEngine.t :=
  mk m (cout st) (cerr st).

Definition already_exists (table_name : string) : exception :=
  runtime_error ("Table '" +:+ table_name +:+ "' already exists").

(** The lines of a SELECT on [tbl]. *)
Definition select_lines (tbl : Table.t) (pq : ParsedQuery)
  : result (list string) :=
  Table.selectRows tbl (where_clause pq)
  ≫= λ row_indices, Table.printRows tbl row_indices (selected_columns pq).

Inductive outcome (st : DatabaseEngine.t) (query : string)
  : DatabaseEngine.t → result unit → Prop :=
| outcome_syntax_error e :
    parse query = Throw e → outcome st query (report e st) (Ok ())
| outcome_unknown pq :
    parse query = Ok pq → query_type pq = UNKNOWN →
    outcome st query st (Ok ())
| outcome_create_exists pq :
    parse query = Ok pq → query_type pq = CREATE_TABLE →
    is_Some (tables st !! table_name pq) →
    outcome st query (report (already_exists (table_name pq)) st) (Ok ())
| outcome_create pq tbl :
    parse query = Ok pq → query_type pq = CREATE_TABLE →
    tables st !! table_name pq = None →
    Table.columns tbl = columns pq → Table.rows tbl = [] →
    index_consistent tbl →
    outcome st query
      (print ["Table '" +:+ table_name pq +:+ "' created successfully."]
         (with_tables (<[table_name pq := tbl]> (tables st)) st))
      (Ok ())
| outcome_insert_missing pq :
    parse query = Ok pq → query_type pq = INSERT →
    tables st !! table_name pq = None →
    outcome st query (report (not_found (table_name pq)) st) (Ok ())
| outcome_insert pq tbl row :
    parse query = Ok pq → query_type pq = INSERT →
    tables st !! table_name pq = Some tbl →
    Table.insertRow_strings (values pq) tbl = (Table.push_row row tbl, Ok ()) →
    row_shape (Table.columns tbl) row →
    outcome st query
      (print ["1 row inserted."]
         (with_tables (<[table_name pq := Table.push_row row tbl]> (tables st))
                      st))
      (Ok ())
| outcome_insert_rejected pq tbl e :
    parse query = Ok pq → query_type pq = INSERT →
    tables st !! table_name pq = Some tbl →
    Table.insertRow_strings (values pq) tbl = (tbl, Throw e) →
    outcome st query (report e st) (Ok ())
| outcome_select_missing pq :
    parse query = Ok pq → query_type pq = SELECT →
    tables st !! table_name pq = None →
    outcome st query (report (not_found (table_name pq)) st) (Ok ())
| outcome_select pq tbl lines :
    parse query = Ok pq → query_type pq = SELECT →
    tables st !! table_name pq = Some tbl →
    select_lines tbl pq = Ok lines →
    outcome st query (print lines st) (Ok ())
| outcome_select_error pq tbl e :
    parse query = Ok pq → query_type pq = SELECT →
    tables st !! table_name pq = Some tbl →
    select_lines tbl pq = Throw e →
    outcome st query (report e st) (Ok ())
| outcome_select_undefined pq tbl :
    parse query = Ok pq → query_type pq = SELECT →
    tables st !! table_name pq = Some tbl →
    select_lines tbl pq = Undefined →
    outcome st query st Undefined
| outcome_drop_missing pq :
    parse query = Ok pq → query_type pq = DROP_TABLE →
    tables st !! table_name pq = None →
    outcome st query (report (not_found (table_name pq)) st) (Ok ())
| outcome_drop pq :
    parse query = Ok pq → query_type pq = DROP_TABLE →
    is_Some (tables st !! table_name pq) →
    outcome st query
      (print ["Table '" +:+ table_name pq +:+ "' dropped successfully."]
         (with_tables (delete (table_name pq) (tables st)) st))
      (Ok ())
| outcome_show pq :
    parse query = Ok pq → query_type pq = SHOW_TABLES →
    outcome st query (print (showTables_lines st) st) (Ok ())
| outcome_describe_missing pq :
    parse query = Ok pq → query_type pq = DESCRIBE →
    tables st !! table_name pq = None →
    outcome st query (report (not_found (table_name pq)) st) (Ok ())
| outcome_describe pq tbl :
    parse query = Ok pq → query_type pq = DESCRIBE →
    tables st !! table_name pq = Some tbl →
    outcome st query (print (describeTable_lines (table_name pq) tbl) st) (Ok ()).

End outcomes.

(** ** Further notions *)

(** [s] contains a white-space character. *)
Fixpoint has_space (s : string) : bool :=
  match s with
  | EmptyString => false
  | String c s' => isspace c || has_space s'
  end.

(** [s] is made of white-space characters only. *)
Fixpoint all_space (s : string) : bool :=
  match s with
  | EmptyString => true
  | String c s' => isspace c && all_space s'
  end.

(** A token proper: not empty, no white space inside. *)
Definition proper_token (token : string) : Prop :=
  token ≠ EmptyString ∧ has_space token = false.

(** ** Trimming *)

(** [c] is one of the characters [trim] removes. *)
Definition blank (c : ascii) : bool := contains c SimpleDatabase.blanks.

Fixpoint all_blank (s : string) : bool :=
  match s with
  | EmptyString => true
  | String c s' => blank c && all_blank s'
  end.

(** [s] without its leading blanks, and without its trailing blanks. *)
Fixpoint lstrip (s : string) : string :=
  match s with
  | EmptyString => EmptyString
  | String c s' => if blank c then lstrip s' else s
  end.

Fixpoint rstrip (s : string) : string :=
  match s with
  | EmptyString => EmptyString
  | String c s' =>
      match rstrip s' with
      | EmptyString => if blank c then EmptyString else String c EmptyString
      | r => String c r
      end
  end.

(** Neither end of [s] is a blank. *)
Definition trimmed (s : string) : Prop :=
  (∀ c, front s = Some c → blank c = false)
  ∧ (∀ c, back s = Some c → blank c = false).

(** ** Statement shapes *)

(** The tokens of a column list: name and type of each declaration, with a
    comma between two declarations. *)
Fixpoint column_tokens (decls : list (string * string)) : list string :=
  match decls with
  | [] => []
  | [d] => [d.1; d.2]
  | d :: ds => d.1 :: d.2 :: "," :: column_tokens ds
  end.

(** Neither a comma nor a close parenthesis. *)
Definition plain_token (t : string) : Prop := t ≠ "," ∧ t ≠ ")".

(** A statement that [parse] leaves of unknown kind: it has no token, or its
    first token, in lower case, is none of the statement keywords, or is
    "create" or "drop" not followed by "table", or "show" not followed by
    "tables". *)
Definition unrecognised (tokens : list string) : Prop :=
  match tokens with
  | [] => True
  | t0 :: _ =>
      let first_token := QueryParser.toLower t0 in
      (first_token ∉ ["insert"; "select"; "describe"; "desc"])
      ∧ (first_token = "create" ∨ first_token = "drop" →
         QueryParser.second_is "table" tokens = false)
      ∧ (first_token = "show" → QueryParser.second_is "tables" tokens = false)
  end.

(** The condition of a SELECT whose tokens after the table name are [rest]:
    the three tokens that follow the first WHERE, joined by single spaces;
    [default] when there is no WHERE or fewer than three tokens follow it. *)
Definition condition_after (default : string) (rest : list string) : string :=
  match rest with
  | c :: o :: v :: _ => c +:+ " " +:+ o +:+ " " +:+ v
  | _ => default
  end.

(** ** Printed tables *)

Section layout_spec.
Context `{F64 : Float64}.

(** The column of header [h] fits in [w] characters: its header does, and
    so does its cell in each of the rows [row_indices] that exist. *)
Definition fits (tbl : Table.t) (row_indices : list nat) (w : nat)
    (h : nat * string) : Prop :=
  String.length h.2 ≤ w
  ∧ ∀ row_idx value_str,
      row_idx ∈ row_indices → row_idx < length (Table.rows tbl) →
      Table.cell tbl row_idx h.1 = Ok value_str →
      String.length value_str ≤ w.

(** The indices of [row_indices] that are indices of rows of [tbl]. *)
Definition printed (tbl : Table.t) (row_indices : list nat) : list nat :=
  filter (λ row_idx, row_idx < length (Table.rows tbl)) row_indices.

End layout_spec.

(** ** The lines of the standard input *)

(** The lines of [s], [cur] being the line read so far: the runs of
    characters between line feeds, the last of them being what follows the
    last line feed. *)
Fixpoint lines_from (cur : string) (s : string) : list string :=
  match s with
  | EmptyString => [cur]
  | String c s' =>
      if bool_decide (c = "010"%char) then cur :: lines_from EmptyString s'
      else lines_from (cur +:+ String c EmptyString) s'
  end.

Definition lines (s : string) : list string := lines_from EmptyString s.

(** A line that ends the shell: "exit" or "quit" in any case, with blanks
    around it. *)
Definition exit_line (line : string) : bool :=
  SimpleDatabase.is_exit (smap tolower (SimpleDatabase.trim line)).

(** ** Sessions that insert nothing *)

Section no_row_spec.
Context `{F64 : Float64}.

(** From [st] to [st'] no table was touched and no row was inserted: the
    tables of [st] are those of [st'] as they were, and a table of [st'] that
    [st] does not have holds no row. *)
Definition no_row_inserted (st st' : DatabaseEngine.t) : Prop :=
  (∀ name tbl, DatabaseEngine.tables st !! name = Some tbl →
               DatabaseEngine.tables st' !! name = Some tbl)
  ∧ (∀ name tbl', DatabaseEngine.tables st' !! name = Some tbl' →
                  DatabaseEngine.tables st !! name = None →
                  Table.rows tbl' = []).

End no_row_spec.

(** ** Statements written with blanks *)

(** The tokens joined by single blanks. *)
Fixpoint unwords (tokens : list string) : string :=
  match tokens with
  | [] => EmptyString
  | t :: ts =>
      match ts with
      | [] => t
      | _ :: _ => t +:+ String " " (unwords ts)
      end
  end.

(** A token the tokenizer leaves whole: a proper token that is a
    parenthesis or a comma on its own, or has no open parenthesis in front
    and no comma, semicolon or close parenthesis at the back. *)
Definition stable_token (t : string) : Prop :=
  proper_token t
  ∧ (t = "(" ∨ t = "," ∨ t = ")"
     ∨ (front t ≠ Some "("%char ∧ ends_with_punct t = false)).

(** A value that can be printed and read back: of the kind of the column,
    not a [double], and within the range of [int] when it is an integer. *)
Section printable_spec.
Context `{F64 : Float64}.

Definition printable (v : Value) (col : Column) : Prop :=
  index v = kind_of_type (type col) ∧ index v ≠ 1
  ∧ ∀ i, v = VInt i → (INT_MIN ≤ i ≤ INT_MAX)%Z.

End printable_spec.

(** ** Integers in text *)

(** [s] is made of decimal digits only. *)
Fixpoint all_digits (s : string) : bool :=
  match s with
  | EmptyString => true
  | String c s' => isdigit c && all_digits s'
  end.

(** The number the digits denote in base 10, after the digits that already
    gave [acc]. *)
Fixpoint decimal (acc : Z) (digits : string) : Z :=
  match digits with
  | EmptyString => acc
  | String c digits' => decimal (10 * acc + digit_value c) digits'
  end.

Definition signed (sign : string) (n : Z) : Z :=
  if bool_decide (sign = "-") then (- n)%Z else n.

(** A valid base-10 integer, in the words of the specification: an optional
    sign and at least one digit, and nothing else. *)
Definition valid_integer (value : string) : Prop :=
  ∃ sign digits,
    value = sign +:+ digits
    ∧ sign ∈ [EmptyString; "+"; "-"]
    ∧ digits ≠ EmptyString ∧ all_digits digits = true.

(** [value] starts with the integer [i]: white space, an optional sign, the
    longest run of digits, which is not empty and denotes [i] with that
    sign, and then anything. *)
Definition integer_prefix (value : string) (i : Z) : Prop :=
  ∃ ws sign digits rest,
    value = ws +:+ sign +:+ digits +:+ rest
    ∧ all_space ws = true
    ∧ sign ∈ [EmptyString; "+"; "-"]
    ∧ digits ≠ EmptyString ∧ all_digits digits = true
    ∧ (∀ c, front rest = Some c → isdigit c = false)
    ∧ i = signed sign (decimal 0 digits).

Section refused_spec.
Context `{F64 : Float64}.

(** The texts [insertRow] refuses: a wrong number of them; at a column
    declared [int], a text that starts with no integer or with one outside
    the range of [int]; at a column declared [double], a text on which
    [std::stod] throws. *)
Definition refused (tbl : Table.t) (values : list string) : Prop :=
  length values ≠ length (Table.columns tbl)
  ∨ ∃ i col value,
      Table.columns tbl !! i = Some col ∧ values !! i = Some value
      ∧ ((type col = "int"
          ∧ ∀ n, integer_prefix value n → ¬ (INT_MIN ≤ n ≤ INT_MAX)%Z)
         ∨ (type col = "double" ∧ ∃ e, stod value = Throw e)).

End refused_spec.

(** * Properties *)

(** ** Strings and outcomes *)

Lemma back_cons c c' s :
  back (String c (String c' s)) = back (String c' s).
Proof. reflexivity. Qed.

Lemma pop_back_cons c c' s :
  pop_back (String c (String c' s)) = String c (pop_back (String c' s)).
Proof. reflexivity. Qed.

Lemma back_None s : back s = None → s = EmptyString.
Proof.
  induction s as [|c s IH]; [done|].
  destruct s as [|c' s']; [done|].
  rewrite back_cons. intros Hs. by apply IH in Hs.
Qed.

Lemma contains_back c s :
  contains c s
  = contains c (pop_back s) || bool_decide (back s = Some c).
Proof.
  induction s as [|c1 s IH]; [done|].
  destruct s as [|c2 s'].
  - simpl. rewrite orb_false_r. apply bool_decide_ext. naive_solver.
  - rewrite back_cons, pop_back_cons.
    change (contains c (String c1 ?x)) with (bool_decide (c1 = c) || contains c x).
    rewrite IH. by rewrite orb_assoc.
Qed.

Lemma contains_pop_back c s :
  contains c s = false → contains c (pop_back s) = false.
Proof. rewrite contains_back. by intros [? _]%orb_false_elim. Qed.

Lemma length_pop_back s : String.length (pop_back s) = String.length s - 1.
Proof.
  induction s as [|c s IH]; [done|].
  destruct s as [|c' s']; [done|].
  rewrite pop_back_cons.
  change (String.length (String ?a ?x)) with (S (String.length x)).
  rewrite IH. simpl. lia.
Qed.

Lemma mbind_Ok {A B} (r : result A) (k : A → result B) b :
  r ≫= k = Ok b ↔ ∃ a, r = Ok a ∧ k a = Ok b.
Proof.
  destruct r as [a| |]; simpl; split; try done; try by intros (? & [=] & _).
  - eauto.
  - by intros (a' & [= <-] & ?).
Qed.

Lemma at_Ok {A} (v : list A) i x : at_ v i = Ok x ↔ v !! i = Some x.
Proof. unfold at_. destruct (v !! i); naive_solver. Qed.

Lemma at_lt {A} (v : list A) i : i < length v → ∃ x, at_ v i = Ok x.
Proof.
  intros [x Hx]%lookup_lt_is_Some_2. exists x. by apply at_Ok.
Qed.

(** ** The tokenizer *)

Section tokenizer.
Import QueryParser.

(** The loop only ever appends to [tokens]. *)
Lemma tokenize_step_app tokens token :
  tokenize_step tokens token = tokens ++ tokenize_step [] token.
Proof.
  unfold tokenize_step.
  destruct (back token) as [punct|]; [destruct (is_trailing_punct punct)|].
  - simpl. destruct (empty (pop_back token)), (_ || _); simpl;
      by rewrite ?app_nil_r, <- ?app_assoc.
  - destruct (negb (empty token) && _); simpl;
      destruct (empty _); simpl; by rewrite ?app_nil_r, <- ?app_assoc.
  - destruct (negb (empty token) && _); simpl;
      destruct (empty _); simpl; by rewrite ?app_nil_r, <- ?app_assoc.
Qed.

Lemma fold_tokenize_step tokens fragments :
  fold_left tokenize_step fragments tokens
  = tokens ++ mjoin (tokenize_step [] <$> fragments).
Proof.
  revert tokens. induction fragments as [|f fs IH]; intros tokens; simpl.
  - by rewrite app_nil_r.
  - rewrite IH, (tokenize_step_app tokens). by rewrite <- app_assoc.
Qed.

Lemma tokenize_fragments query :
  tokenize query = mjoin (tokenize_step [] <$> words query).
Proof. unfold tokenize. by rewrite fold_tokenize_step. Qed.

End tokenizer.

Section tokens_isolated.
Import QueryParser.

Lemma contains_front c s :
  contains c s
  = bool_decide (front s = Some c) || contains c (substr_from 1 s).
Proof.
  destruct s as [|c' s']; simpl; [done|].
  f_equal. apply bool_decide_ext. naive_solver.
Qed.

Lemma front_pop_back s :
  1 < String.length s → front (pop_back s) = front s.
Proof. destruct s as [|c [|c' s']]; simpl; [lia..|done]. Qed.

Lemma elem_of_unless (b : bool) (x y : string) :
  y ∈ (if b then [] else [x]) → y = x.
Proof. destruct b; [by intros ?%elem_of_nil|by intros ?%list_elem_of_singleton]. Qed.

Lemma tokenize_step_isolated fragment :
  punct_at_ends fragment = true → isolated (tokenize_step [] fragment).
Proof.
  unfold punct_at_ends, ends_with_punct.
  rewrite !andb_true_iff, !negb_true_iff.
  intros [[[Hopen Hcomma] Hclose] Hboth].
  unfold tokenize_step.
  destruct (back fragment) as [punct|] eqn:Hback.
  - destruct (is_trailing_punct punct) eqn:Hpunct.
    + (* the fragment ends with punctuation *)
      simpl. intros token Hin Hlen.
      assert (token = pop_back fragment) as ->.
      { destruct (_ || _); [|by apply elem_of_unless in Hin].
        apply elem_of_app in Hin as [Hin%elem_of_unless|Hin%list_elem_of_singleton];
          [done|subst token; simpl in Hlen; lia]. }
      rewrite length_pop_back in Hlen.
      split_and!; [|done..].
      rewrite contains_front, front_pop_back by lia.
      apply orb_false_intro.
      * rewrite andb_true_r in Hboth.
        apply andb_false_iff in Hboth as [Hboth|Hboth]; [done|].
        apply bool_decide_eq_false in Hboth. lia.
      * destruct fragment as [|c [|c' s']]; simpl in Hlen; [lia..|].
        apply contains_pop_back in Hopen. by rewrite pop_back_cons.
    + (* no punctuation at the back *)
      unfold is_trailing_punct in Hpunct.
      apply orb_false_elim in Hpunct as [[Hp1 _]%orb_false_elim Hp2].
      apply bool_decide_eq_false in Hp1, Hp2.
      assert (contains "," fragment = false) as Hcomma'.
      { rewrite contains_back, Hcomma, Hback. simpl.
        apply bool_decide_eq_false. congruence. }
      assert (contains ")" fragment = false) as Hclose'.
      { rewrite contains_back, Hclose, Hback. simpl.
        apply bool_decide_eq_false. congruence. }
      rewrite contains_front in Hcomma', Hclose'.
      apply orb_false_elim in Hcomma' as [Hc1 Hc2].
      apply orb_false_elim in Hclose' as [Hc3 Hc4].
      destruct (negb (empty fragment) && _) eqn:Hfront.
      * intros token Hin Hlen.
        assert (token = substr_from 1 fragment) as ->; [|done].
        destruct (empty (substr_from 1 fragment)); simpl in Hin.
        -- apply list_elem_of_singleton in Hin. subst token. simpl in Hlen. lia.
        -- apply elem_of_cons in Hin as [->|Hin%list_elem_of_singleton];
             [simpl in Hlen; lia|done].
      * intros token Hin%elem_of_unless Hlen. subst token.
        rewrite !(contains_front _ fragment), Hopen, Hc2, Hc4, Hc1, Hc3.
        rewrite !orb_false_r. split_and!; [|done..].
        apply andb_false_iff in Hfront as [Hfront|Hfront%bool_decide_eq_false];
          [|by apply bool_decide_eq_false].
        destruct fragment; [simpl in Hlen; lia|done].
  - apply back_None in Hback as ->.
    simpl. by intros token Hin%elem_of_nil.
Qed.

Lemma isolated_concat (tokenss : list (list string)) :
  Forall isolated tokenss → isolated (mjoin tokenss).
Proof.
  intros Hall token (tokens & Hin & Htokens)%list_elem_of_join Hlen.
  rewrite Forall_forall in Hall. by apply (Hall tokens).
Qed.

(** C3, as stated, fails: a comma inside a fragment
    stays inside its token. *)
Lemma tokenize_not_isolated : ¬ ∀ query, isolated (tokenize query).
Proof.
  intros Hall.
  destruct (Hall "a,b" "a,b") as (_ & _ & Hcomma); [|simpl; lia|done].
  vm_compute. apply list_elem_of_here.
Qed.

(** C3, amended: for every input string whose white-space delimited
    fragments carry their punctuation at the ends ([punct_at_ends]), every
    parenthesis and comma of the token sequence is a token of its own: no
    token longer than one character contains '(', ')' or ','. *)
Theorem tokenize_isolated query :
  forallb punct_at_ends (words query) = true → isolated (tokenize query).
Proof.
  intros Hfrags. rewrite tokenize_fragments.
  apply isolated_concat, Forall_fmap, Forall_forall.
  intros fragment Hin. apply tokenize_step_isolated.
  rewrite forallb_forall in Hfrags. by apply Hfrags, list_elem_of_In.
Qed.

Lemma tokenize_isolated_witness :
  isolated (tokenize "CREATE TABLE users (id int, name string, age int)").
Proof. apply tokenize_isolated. vm_compute. reflexivity. Defined.

End tokens_isolated.

(** ** The users scenario *)

Section users_scenario.
Context `{F64 : Float64}.
Import QueryParser DatabaseEngine.

Example tokenize_create :
  tokenize "CREATE TABLE users (id int, name string, age int)"
  = ["CREATE"; "TABLE"; "users"; "("; "id"; "int"; ","; "name"; "string"; ",";
     "age"; "int"; ")"].
Proof. vm_compute. reflexivity. Qed.

(** The open parenthesis of the value list stays glued to the first value,
    because the fragment also ends with a comma. *)
Example tokenize_insert :
  tokenize "INSERT INTO users VALUES (1, Alice, 30)"
  = ["INSERT"; "INTO"; "users"; "VALUES"; "(1"; ","; "Alice"; ","; "30"; ")"].
Proof. vm_compute. reflexivity. Qed.

Example parse_insert_throws :
  parse "INSERT INTO users VALUES (1, Alice, 30)"
  = Throw (runtime_error "Missing values in INSERT statement").
Proof. vm_compute. reflexivity. Qed.

(** C1: on a fresh engine the four statements of the scenario run to the end,
    but both INSERT statements are rejected ("Missing values in INSERT
    statement") and the final SELECT prints the header and no row. *)
Theorem scenario_select_prints_no_row :
  let r := executeQueries scenario new in
  r.2 = Ok ()
  ∧ cerr r.1 = ["Error: Missing values in INSERT statement";
                "Error: Missing values in INSERT statement"]
  ∧ cout r.1 = ["Table 'users' created successfully.";
                "+----------+";
                "| name     |";
                "+----------+";
                "+----------+";
                "(0 rows)"]
  ∧ Table.rows <$> tables r.1 !! "users" = Some [].
Proof. vm_compute. done. Qed.

(** With a space after the open parenthesis the same scenario yields the one
    row the specification expects. *)
Example scenario_spaced_prints_alice :
  let r := executeQueries scenario_spaced new in
  r.2 = Ok () ∧ cerr r.1 = []
  ∧ cout r.1 = ["Table 'users' created successfully.";
                "1 row inserted.";
                "1 row inserted.";
                "+----------+";
                "| name     |";
                "+----------+";
                "| Alice    |";
                "+----------+";
                "(1 rows)"].
Proof. vm_compute. done. Qed.

End users_scenario.

(** ** Conversion of values *)

Section conversion.
Context `{F64 : Float64}.
Import Table.

Lemma stoi_defined s : stoi s ≠ Undefined.
Proof.
  unfold stoi. destruct (read_signed _); [|done]. by destruct (bool_decide _).
Qed.

Lemma parseValue_defined value ty : parseValue value ty ≠ Undefined.
Proof.
  unfold parseValue. repeat case_bool_decide; try done.
  - pose proof (stoi_defined value). by destruct (stoi value).
  - pose proof (stod_defined value). by destruct (stod value).
Qed.

Lemma parseValue_Ok value ty :
  parses_as ty value → ∃ v, parseValue value ty = Ok v.
Proof.
  intros [Hint Hdouble]. unfold parseValue.
  repeat case_bool_decide; subst; eauto.
  - destruct Hint as [i ->]; eauto.
  - destruct Hdouble as [d ->]; eauto.
Qed.

Lemma parseValue_parses value ty v :
  parseValue value ty = Ok v → parses_as ty value.
Proof.
  unfold parseValue, parses_as. intros Hv.
  repeat case_bool_decide; subst; split; try done; intros _.
  - destruct (stoi value); [eauto|done..].
  - destruct (stod value); [eauto|done..].
Qed.

Lemma parseValue_kind value ty v :
  parseValue value ty = Ok v → index v = kind_of_type ty.
Proof.
  unfold parseValue, kind_of_type.
  destruct (bool_decide (ty = "int")).
  { by intros (i & _ & [= <-])%mbind_Ok. }
  destruct (bool_decide (ty = "double")).
  { by intros (d & _ & [= <-])%mbind_Ok. }
  destruct (bool_decide (ty = "bool")); by intros [= <-].
Qed.

(** [std::stoi] reads a numeric prefix: what follows the digits is ignored. *)
Example stoi_prefix :
  stoi "30" = Ok 30%Z ∧ stoi "12abc" = Ok 12%Z ∧ stoi " -7" = Ok (-7)%Z
  ∧ stoi "abc" = Throw (invalid_argument "stoi")
  ∧ stoi "2147483648" = Throw (out_of_range "stoi").
Proof. by vm_compute. Qed.

(** What the conversion loop returns: the row built so far followed by one
    value per remaining text, each the conversion of that text for the type
    of its column. *)
Lemma build_row_Ok tbl rest i row row' :
  build_row tbl rest i row = Ok row' →
  ∃ vs, row' = row ++ vs ∧ length vs = length rest
    ∧ ∀ j v, vs !! j = Some v →
        ∃ col value, columns tbl !! (i + j) = Some col
          ∧ rest !! j = Some value ∧ parseValue value (type col) = Ok v.
Proof.
  revert i row. induction rest as [|value rest IH]; intros i row; simpl.
  - intros [= <-]. exists []. by rewrite app_nil_r.
  - intros (col & Hcol%at_Ok & (v & Hv & Hrest)%mbind_Ok)%mbind_Ok.
    apply IH in Hrest as (vs & -> & Hlen & Hvs).
    exists (v :: vs). rewrite <- app_assoc. split_and!; [done|simpl; lia|].
    intros [|j] v' Hj; simpl in Hj.
    + injection Hj as <-. exists col, value. by rewrite Nat.add_0_r.
    + apply Hvs in Hj as (col' & value' & Hcol' & Hvalue' & Hv').
      exists col', value'. by rewrite <- Nat.add_succ_comm.
Qed.

Lemma build_row_total tbl rest i row :
  (∀ j value, rest !! j = Some value →
     ∃ col, columns tbl !! (i + j) = Some col ∧ parses_as (type col) value) →
  ∃ row', build_row tbl rest i row = Ok row'.
Proof.
  revert i row. induction rest as [|value rest IH]; intros i row Hall; simpl.
  - eauto.
  - destruct (Hall 0 value) as (col & Hcol & Hparses); [done|].
    rewrite Nat.add_0_r in Hcol. apply at_Ok in Hcol as ->. simpl.
    apply parseValue_Ok in Hparses as [v ->]. simpl.
    apply IH. intros j value' Hj.
    rewrite Nat.add_succ_comm. by apply Hall.
Qed.

Lemma build_row_Throw tbl rest i row :
  i + length rest ≤ length (columns tbl) →
  (∃ j col value, rest !! j = Some value ∧ columns tbl !! (i + j) = Some col
     ∧ ¬ parses_as (type col) value) →
  ∃ e, build_row tbl rest i row = Throw e.
Proof.
  revert i row. induction rest as [|value rest IH]; intros i row Hlen Hbad.
  - by destruct Hbad as (j & ? & ? & ? & _).
  - simpl in *. destruct (at_lt (columns tbl) i) as [col Hcol]; [lia|].
    rewrite Hcol. simpl.
    destruct (parseValue value (type col)) as [v|e|] eqn:Hv; simpl.
    + apply IH; [lia|].
      destruct Hbad as ([|j] & col' & value' & Hj & Hcol' & Hparses).
      * injection Hj as <-. rewrite Nat.add_0_r in Hcol'.
        apply at_Ok in Hcol. simplify_eq.
        by apply parseValue_parses in Hv.
      * exists j, col', value'. by rewrite <- Nat.add_succ_comm in Hcol'.
    + eauto.
    + by apply parseValue_defined in Hv.
Qed.

Lemma build_row_shape tbl values row :
  length values = length (columns tbl) →
  build_row tbl values 0 [] = Ok row → row_shape (columns tbl) row.
Proof.
  intros Hlen (vs & -> & Hvs & Hall)%build_row_Ok. simpl.
  apply Forall2_same_length_lookup_2; [congruence|].
  intros j v col Hv Hcol.
  apply Hall in Hv as (col' & value & Hcol' & _ & Hv). simpl in Hcol'.
  simplify_eq. by apply parseValue_kind in Hv.
Qed.

(** [insertRow] on a vector of strings, in terms of the conversions: it
    throws and leaves the table as it was when the number of values is wrong
    or a conversion to a numeric type does not return, and appends one row
    otherwise. *)
Lemma insertRow_strings_conversions tbl values :
  (rejected tbl values → ∃ e, insertRow_strings values tbl = (tbl, Throw e))
  ∧ (¬ rejected tbl values →
     ∃ row, insertRow_strings values tbl = (push_row row tbl, Ok ())
       ∧ rows (push_row row tbl) = rows tbl ++ [row]
       ∧ columns (push_row row tbl) = columns tbl).
Proof.
  unfold insertRow_strings. split.
  - intros [Hlen|(i & col & value & Hcol & Hvalue & _ & Hparses)].
    + rewrite bool_decide_eq_true_2 by done. eauto.
    + case_bool_decide as Hlen; [eauto|].
      destruct (build_row_Throw tbl values 0 []) as [e ->]; [simpl; lia| |eauto].
      by exists i, col, value.
  - intros Hok. case_bool_decide as Hlen; [by destruct Hok; left|].
    destruct (build_row_total tbl values 0 []) as [row ->]; [|by eauto].
    intros j value Hvalue. simpl.
    destruct (lookup_lt_is_Some_2 (columns tbl) j) as [col Hcol].
    { rewrite <- Hlen. by eapply lookup_lt_Some. }
    exists col. split; [done|].
    split; intros Hty.
    + destruct (stoi value) as [i|e|] eqn:Hi; [by eauto| |].
      * destruct Hok. right. exists j, col, value.
        split_and!; [done|done|by left|]. intros [Hint _].
        destruct (Hint Hty). congruence.
      * by apply stoi_defined in Hi.
    + destruct (stod value) as [d|e|] eqn:Hd; [by eauto| |].
      * destruct Hok. right. exists j, col, value.
        split_and!; [done|done|by right|]. intros [_ Hdouble].
        destruct (Hdouble Hty). congruence.
      * by apply stod_defined in Hd.
Qed.

End conversion.

(** ** The shape of rows *)

Section shape.
Context `{F64 : Float64}.
Import Table.

Lemma shape_length_invariant tbl : shape_invariant tbl → length_invariant tbl.
Proof.
  intros Hinv. eapply Forall_impl; [done|]. intros row. apply Forall2_length.
Qed.

(** The conversion loop never reads past the columns. *)
Lemma build_row_defined tbl rest i row :
  i + length rest ≤ length (columns tbl) → build_row tbl rest i row ≠ Undefined.
Proof.
  revert i row. induction rest as [|value rest IH]; intros i row Hle; [done|].
  simpl in *. destruct (at_lt (columns tbl) i) as [col ->]; [lia|]. simpl.
  destruct (parseValue value (type col)) eqn:Hv; simpl; [|done|].
  - apply IH. lia.
  - by apply parseValue_defined in Hv.
Qed.

Lemma length_invariant_push tbl row :
  length row = length (columns tbl) →
  length_invariant tbl → length_invariant (push_row row tbl).
Proof. intros Hrow Hinv. apply Forall_app. split; [done|]. by constructor. Qed.

Lemma shape_invariant_push tbl row :
  row_shape (columns tbl) row →
  shape_invariant tbl → shape_invariant (push_row row tbl).
Proof. intros Hrow Hinv. apply Forall_app. split; [done|]. by constructor. Qed.

(** Whether it appends or throws, the string overload leaves the columns and
    the index alone and keeps the rows well shaped. *)
Lemma insertRow_strings_cases values tbl :
  (∃ row, insertRow_strings values tbl = (push_row row tbl, Ok ())
          ∧ row_shape (columns tbl) row)
  ∨ (∃ e, insertRow_strings values tbl = (tbl, Throw e)).
Proof.
  unfold insertRow_strings. case_bool_decide as Hlen; [by eauto|].
  destruct (build_row tbl values 0 []) as [row|e|] eqn:Hrow.
  - left. exists row. split; [done|]. by eapply build_row_shape.
  - eauto.
  - apply build_row_defined in Hrow; [done|simpl; lia].
Qed.

End shape.

Section shape_theorems.
Context `{F64 : Float64}.
Import Table.

(** What the two overloads of [insertRow] do to the shape of the rows. *)
Lemma insertRow_shape tbl :
  shape_invariant tbl →
  (∀ values, shape_invariant (insertRow_strings values tbl).1)
  ∧ (∀ row, length row ≠ length (columns tbl) →
       insertRow row tbl
       = (tbl, Throw (runtime_error "Row size doesn't match number of columns")))
  ∧ (∀ row, length_invariant (insertRow row tbl).1)
  ∧ (∀ row, row_shape (columns tbl) row →
       shape_invariant (insertRow row tbl).1).
Proof.
  intros Hinv. split_and!.
  - intros values.
    destruct (insertRow_strings_cases values tbl)
      as [(row & -> & Hrow)|[e ->]]; [|done].
    by apply shape_invariant_push.
  - intros row Hlen. unfold insertRow. by rewrite bool_decide_eq_true_2.
  - intros row. unfold insertRow. apply shape_length_invariant in Hinv.
    case_bool_decide as Hlen; [done|]. by apply length_invariant_push.
  - intros row Hrow. unfold insertRow.
    case_bool_decide; [done|]. by apply shape_invariant_push.
Qed.

(** *** The name index *)

Lemma index_consistent_new name : index_consistent (new name).
Proof. split; [done|]. by intros col Hcol%elem_of_nil. Qed.

Lemma index_consistent_addColumn name type tbl :
  index_consistent tbl → index_consistent (addColumn name type tbl).
Proof.
  intros [Hidx Hnames]. split; simpl.
  - intros n i. rewrite length_app, Nat.add_sub. simpl.
    destruct (decide (name = n)) as [->|Hne].
    + rewrite lookup_insert_eq. intros [= <-].
      by rewrite lookup_app_r, Nat.sub_diag.
    + rewrite lookup_insert_ne by done. intros Hi.
      pose proof (Hidx _ _ Hi) as Hcol.
      destruct (columns tbl !! i) as [col|] eqn:Hcol'; [|done].
      by rewrite (lookup_app_l_Some _ _ _ _ Hcol').
  - intros col [Hcol| ->%list_elem_of_singleton]%elem_of_app.
    + apply lookup_insert_is_Some'. right. by apply Hnames.
    + simpl. rewrite lookup_insert_eq. by eexists.
Qed.

Lemma index_consistent_push row tbl :
  index_consistent tbl → index_consistent (push_row row tbl).
Proof. done. Qed.

Lemma hasColumn_names tbl column_name :
  index_consistent tbl →
  hasColumn tbl column_name = true ↔ column_name ∈ name <$> columns tbl.
Proof.
  intros [Hidx Hnames]. unfold hasColumn. rewrite bool_decide_eq_true.
  split.
  - intros [i Hi]. apply Hidx in Hi.
    destruct (columns tbl !! i) as [col|] eqn:Hcol; [|done].
    injection Hi as <-. apply list_elem_of_fmap. exists col.
    split; [done|]. by eapply list_elem_of_lookup_2.
  - intros (col & -> & Hcol)%list_elem_of_fmap. by apply Hnames.
Qed.

(** *** Conditions *)

Lemma select_loop_all tbl where_clause rest i res :
  (empty where_clause = false →
   ∀ row, row ∈ rest → evaluateCondition tbl row where_clause = Ok true) →
  select_loop tbl where_clause rest i res = Ok (res ++ seq i (length rest)).
Proof.
  revert i res. induction rest as [|row rest IH]; intros i res Hall; simpl.
  - by rewrite app_nil_r.
  - destruct (empty where_clause) eqn:Hempty; simpl.
    + rewrite IH by done. by rewrite <- app_assoc.
    + rewrite Hall by (done || apply list_elem_of_here). simpl.
      rewrite IH; [by rewrite <- app_assoc|].
      intros _ row' Hrow'. apply Hall; [done|]. by apply list_elem_of_further.
Qed.

(** C6: a condition of fewer than three white-space separated tokens holds
    of every row, so that [selectRows] returns the index of every row; a
    condition of at least three tokens whose first token is not the name of a
    column holds of no row. *)
Theorem evaluateCondition_short_or_unknown tbl row condition :
  (length (words condition) < 3 →
     evaluateCondition tbl row condition = Ok true
     ∧ selectRows tbl condition = Ok (seq 0 (length (rows tbl))))
  ∧ (index_consistent tbl → 3 ≤ length (words condition) →
     ∀ column_name, head (words condition) = Some column_name →
       column_name ∉ name <$> columns tbl →
       evaluateCondition tbl row condition = Ok false).
Proof.
  split.
  - intros Hshort.
    assert (∀ row', evaluateCondition tbl row' condition = Ok true) as Htrue.
    { intros row'. unfold evaluateCondition.
      destruct (words condition) as [|? [|? [|? ?]]]; simpl in *; by try lia. }
    split; [done|]. unfold selectRows. by rewrite select_loop_all.
  - intros Hidx Hlong column_name Hhead Hcol. unfold evaluateCondition.
    destruct (words condition) as [|c [|op [|value_str ?]]];
      simpl in *; try lia.
    injection Hhead as ->.
    destruct (hasColumn tbl column_name) eqn:Hhas; [|done].
    by apply hasColumn_names in Hhas.
Qed.

(** C10, amended: for a table with a consistent index and rows as long as
    its column list, a row of the table, and a condition of exactly three
    tokens whose first token names a column and whose operator is none of
    [=], [!=], [<], [>], [<=], [>=]: the literal is first converted for the
    type of the column the index gives for that name; [evaluateCondition]
    returns false when the conversion succeeds and throws the conversion
    error when it does not. *)
Theorem evaluateCondition_unknown_operator tbl row condition
    column_name op value_str :
  Table_wf tbl → row ∈ rows tbl →
  words condition = [column_name; op; value_str] →
  op ∉ ["="; "!="; "<"; ">"; "<="; ">="] →
  column_name ∈ name <$> columns tbl →
  ∃ col, col ∈ columns tbl ∧ name col = column_name
    ∧ (getColumnIndex tbl column_name ≫= at_ (columns tbl)) = Ok col
    ∧ (parses_as (type col) value_str →
       evaluateCondition tbl row condition = Ok false)
    ∧ (¬ parses_as (type col) value_str →
       ∃ e, evaluateCondition tbl row condition = Throw e).
Proof.
  intros [Hidx Hlen] Hrow Hwords Hop Hname.
  pose proof Hname as Hhas. apply hasColumn_names in Hhas; [|done].
  pose proof Hhas as [i Hi]%bool_decide_eq_true.
  pose proof (proj1 Hidx _ _ Hi) as Hcol.
  destruct (columns tbl !! i) as [col|] eqn:Hcol'; [|done].
  injection Hcol as Hcol.
  assert (∃ v, row !! i = Some v) as [v Hv].
  { apply lookup_lt_is_Some_2.
    unfold length_invariant in Hlen.
    rewrite Forall_forall in Hlen. rewrite (Hlen row Hrow).
    by eapply lookup_lt_Some. }
  exists col. split_and!; [by eapply list_elem_of_lookup_2|done|..].
  - unfold getColumnIndex. rewrite Hi. simpl. by apply at_Ok.
  - intros [cv Hcv]%parseValue_Ok.
    apply at_Ok in Hv, Hcol'.
    unfold evaluateCondition, getColumnIndex.
    rewrite Hwords, Hhas, Hi. simpl. rewrite Hv. simpl. rewrite Hcol'. simpl.
    rewrite Hcv. simpl. unfold compare_op.
    repeat match goal with
      | |- context [bool_decide (op = ?o)] =>
          destruct (bool_decide_reflect (op = o)) as [Heq|_];
            [exfalso; apply Hop; rewrite Heq;
             apply list_elem_of_In; simpl; tauto|]
      end.
    done.
  - intros Hparses.
    apply at_Ok in Hv, Hcol'.
    unfold evaluateCondition, getColumnIndex.
    rewrite Hwords, Hhas, Hi. simpl. rewrite Hv. simpl. rewrite Hcol'. simpl.
    destruct (parseValue value_str (type col)) as [cv|e|] eqn:Hcv; simpl.
    + by apply parseValue_parses in Hcv.
    + eauto.
    + by apply parseValue_defined in Hcv.
Qed.

End shape_theorems.

(** ** Engine operations *)

Section engine_ops.
Context `{F64 : Float64}.
Import DatabaseEngine.

Lemma hasTable_true st table_name :
  hasTable st table_name = true ↔ is_Some (tables st !! table_name).
Proof. apply bool_decide_eq_true. Qed.

Lemma hasTable_false st table_name :
  hasTable st table_name = false ↔ tables st !! table_name = None.
Proof.
  unfold hasTable. rewrite bool_decide_eq_false. symmetry.
  apply eq_None_not_Some.
Qed.

Lemma createTable_fresh table_name st :
  tables st !! table_name = None →
  createTable table_name st
  = (mk (<[table_name := Table.new table_name]> (tables st)) (cout st) (cerr st),
     Ok ()).
Proof.
  intros Hnone. unfold createTable.
  by rewrite (proj2 (hasTable_false _ _) Hnone).
Qed.

Lemma createTable_exists table_name st :
  is_Some (tables st !! table_name) →
  createTable table_name st
  = (st, Throw (runtime_error ("Table '" +:+ table_name +:+ "' already exists"))).
Proof.
  intros Hsome. unfold createTable.
  by rewrite (proj2 (hasTable_true _ _) Hsome).
Qed.

Lemma getTable_Some table_name st tbl :
  tables st !! table_name = Some tbl → getTable table_name st = (st, Ok tbl).
Proof. intros Htbl. unfold getTable. by rewrite Htbl. Qed.

Lemma getTable_None table_name st :
  tables st !! table_name = None →
  getTable table_name st = (st, Throw (not_found table_name)).
Proof. intros Htbl. unfold getTable. by rewrite Htbl. Qed.

Lemma dropTable_Some table_name st :
  is_Some (tables st !! table_name) →
  dropTable table_name st
  = (mk (delete table_name (tables st)) (cout st) (cerr st), Ok ()).
Proof.
  intros Hsome. unfold dropTable.
  by rewrite (proj2 (hasTable_true _ _) Hsome).
Qed.

Lemma dropTable_None table_name st :
  tables st !! table_name = None →
  dropTable table_name st = (st, Throw (not_found table_name)).
Proof.
  intros Hnone. unfold dropTable.
  by rewrite (proj2 (hasTable_false _ _) Hnone).
Qed.

Lemma addColumn_Some table_name column_name type st tbl :
  tables st !! table_name = Some tbl →
  addColumn table_name column_name type st
  = (mk (<[table_name := Table.addColumn column_name type tbl]> (tables st))
        (cout st) (cerr st), Ok ()).
Proof.
  intros Htbl. unfold addColumn, mbind, M_bind, bind.
  by rewrite (getTable_Some _ _ _ Htbl).
Qed.

Lemma addColumn_None table_name column_name type st :
  tables st !! table_name = None →
  addColumn table_name column_name type st = (st, Throw (not_found table_name)).
Proof.
  intros Htbl. unfold addColumn, mbind, M_bind, bind.
  by rewrite (getTable_None _ _ Htbl).
Qed.

Lemma insertInto_Some table_name values st tbl :
  tables st !! table_name = Some tbl →
  insertInto table_name values st
  = (mk (<[table_name := (Table.insertRow_strings values tbl).1]> (tables st))
        (cout st) (cerr st),
     (Table.insertRow_strings values tbl).2).
Proof.
  intros Htbl. unfold insertInto, mbind, M_bind, bind.
  rewrite (getTable_Some _ _ _ Htbl).
  by destruct (Table.insertRow_strings values tbl) as [tbl' [[]| |]].
Qed.

Lemma insertInto_None table_name values st :
  tables st !! table_name = None →
  insertInto table_name values st = (st, Throw (not_found table_name)).
Proof.
  intros Htbl. unfold insertInto, mbind, M_bind, bind.
  by rewrite (getTable_None _ _ Htbl).
Qed.

Lemma select_Some table_name columns where_clause st tbl :
  tables st !! table_name = Some tbl →
  select table_name columns where_clause st
  = match Table.selectRows tbl where_clause
          ≫= λ row_indices, Table.printRows tbl row_indices columns with
    | Ok lines => (mk (tables st) (cout st ++ lines) (cerr st), Ok ())
    | Throw e => (st, Throw e)
    | Undefined => (st, Undefined)
    end.
Proof.
  intros Htbl. unfold select, mbind at 1, M_bind, bind, lift.
  rewrite Htbl. by destruct (_ ≫= _).
Qed.

Lemma select_None table_name columns where_clause st :
  tables st !! table_name = None →
  select table_name columns where_clause st
  = (st, Throw (not_found table_name)).
Proof. intros Htbl. unfold select. by rewrite Htbl. Qed.

Lemma describeTable_Some table_name st tbl :
  tables st !! table_name = Some tbl →
  describeTable table_name st
  = (mk (tables st) (cout st ++ describeTable_lines table_name tbl) (cerr st),
     Ok ()).
Proof. intros Htbl. unfold describeTable. by rewrite Htbl. Qed.

Lemma describeTable_None table_name st :
  tables st !! table_name = None →
  describeTable table_name st = (st, Throw (not_found table_name)).
Proof. intros Htbl. unfold describeTable. by rewrite Htbl. Qed.

Lemma fails_not_found_None st table_name :
  tables st !! table_name = None → fails_not_found st table_name.
Proof.
  intros Hnone. unfold fails_not_found.
  eauto 10 using getTable_None, insertInto_None, select_None,
    describeTable_None, dropTable_None.
Qed.

(** What [addColumns] does to a registered table. *)
Lemma addColumns_Some table_name cols st tbl :
  tables st !! table_name = Some tbl →
  ∃ tbl', addColumns table_name cols st
          = (mk (<[table_name := tbl']> (tables st)) (cout st) (cerr st), Ok ())
    ∧ Table.columns tbl' = Table.columns tbl ++ cols
    ∧ Table.rows tbl' = Table.rows tbl
    ∧ (index_consistent tbl → index_consistent tbl').
Proof.
  revert st tbl. induction cols as [|col cols IH]; intros st tbl Htbl; simpl.
  - exists tbl. rewrite insert_id by done. rewrite app_nil_r.
    by destruct st.
  - unfold mbind, M_bind, bind.
    rewrite (addColumn_Some _ _ _ _ _ Htbl).
    edestruct IH as (tbl' & -> & Hcols & Hrows & Hidx);
      [simpl; apply lookup_insert_eq|].
    exists tbl'. simpl. rewrite insert_insert_eq.
    split_and!; [done| |done|].
    + rewrite Hcols. simpl. rewrite <- app_assoc. by destruct col.
    + intros Hwf. by apply Hidx, index_consistent_addColumn.
Qed.

End engine_ops.

(** ** The parser reads no token out of range *)

Section parser_defined.
Import QueryParser.

Ltac at_in_range :=
  match goal with
  | |- context [at_ ?l ?i] =>
      let x := fresh "t" in
      let H := fresh "Ht" in
      destruct (at_lt l i) as [x H]; [lia|rewrite H; simpl]
  end.

Lemma parseCreateTable_defined tokens query :
  parseCreateTable tokens query ≠ Undefined.
Proof.
  unfold parseCreateTable. case_bool_decide; [done|].
  at_in_range. by case_bool_decide.
Qed.

Lemma parseInsert_defined tokens query : parseInsert tokens query ≠ Undefined.
Proof.
  unfold parseInsert. case_bool_decide; [done|].
  do 3 at_in_range. destruct (bool_decide (toLower _ ≠ "into")); [done|].
  destruct (bool_decide (toLower _ ≠ "values")); [done|].
  by case_bool_decide.
Qed.

Lemma parseSelect_defined tokens query : parseSelect tokens query ≠ Undefined.
Proof.
  unfold parseSelect. do 3 (case_bool_decide; [done|]).
  at_in_range.
  destruct (bool_decide (0 < _) && bool_decide (_ < _)) eqn:Hwhere; [|done].
  apply andb_true_iff in Hwhere as [_ Hwhere%bool_decide_eq_true].
  by do 3 at_in_range.
Qed.

Lemma parseDropTable_defined tokens query :
  parseDropTable tokens query ≠ Undefined.
Proof. unfold parseDropTable. case_bool_decide; [done|]. by at_in_range. Qed.

Lemma parseDescribe_defined tokens query :
  parseDescribe tokens query ≠ Undefined.
Proof. unfold parseDescribe. case_bool_decide; [done|]. by at_in_range. Qed.

Lemma parse_defined query : parse query ≠ Undefined.
Proof.
  unfold parse. destruct (tokenize query) as [|t0 tokens]; [done|].
  repeat case_bool_decide;
    repeat match goal with |- context [second_is ?kw ?l] =>
      destruct (second_is kw l) end;
    simpl;
    auto using parseCreateTable_defined, parseInsert_defined,
      parseSelect_defined, parseDropTable_defined, parseDescribe_defined.
Qed.

(** The statement parsers keep the kind that [parse] chose. *)
Ltac parser_steps :=
  repeat first
    [ progress intros [= <-]
    | intros (? & _ & Hr)%mbind_Ok; revert Hr
    | match goal with
      | |- context [bool_decide ?P] => destruct (bool_decide P); [done|]
      end
    | match goal with
      | |- context [if ?b then _ else _] => destruct b
      end ].

Lemma parseInsert_type tokens query r :
  parseInsert tokens query = Ok r → query_type r = query_type query.
Proof. unfold parseInsert. by parser_steps. Qed.

Lemma parseSelect_type tokens query r :
  parseSelect tokens query = Ok r → query_type r = query_type query.
Proof. unfold parseSelect. by parser_steps. Qed.

Lemma parseDropTable_type tokens query r :
  parseDropTable tokens query = Ok r → query_type r = query_type query.
Proof. unfold parseDropTable. by parser_steps. Qed.

Lemma parseDescribe_type tokens query r :
  parseDescribe tokens query = Ok r → query_type r = query_type query.
Proof. unfold parseDescribe. by parser_steps. Qed.

Lemma parse_type_create query pq :
  parse query = Ok pq → query_type pq = CREATE_TABLE →
  parseCreateTable (tokenize query) (set_type CREATE_TABLE new_ParsedQuery)
  = Ok pq.
Proof.
  unfold parse. destruct (tokenize query) as [|t0 tokens]; [by intros [= <-]|].
  repeat case_bool_decide;
    repeat match goal with |- context [second_is ?kw ?l] =>
      destruct (second_is kw l) end;
    try done; try (by intros [= <-]); intros Hpq Hty; exfalso;
    first [ apply parseInsert_type in Hpq
          | apply parseSelect_type in Hpq
          | apply parseDropTable_type in Hpq
          | apply parseDescribe_type in Hpq ];
    simpl in Hpq; congruence.
Qed.

End parser_defined.

(** ** Every run of [executeQuery] is one of the outcomes *)

Section executeQuery_outcomes.
Context `{F64 : Float64}.
Import QueryParser DatabaseEngine.

Lemma executeQuery_outcome query st :
  outcome st query (executeQuery query st).1 (executeQuery query st).2.
Proof.
  unfold executeQuery, dispatch, mbind, M_bind, bind, lift.
  destruct (parse query) as [pq|e|] eqn:Hparse.
  2: { by apply outcome_syntax_error. }
  2: { by apply parse_defined in Hparse. }
  unfold execute. destruct (query_type pq) eqn:Hty.
  - (* CREATE TABLE *)
    unfold mbind, M_bind, bind.
    destruct (tables st !! table_name pq) as [tbl|] eqn:Htbl.
    + rewrite createTable_exists by done.
      by apply outcome_create_exists.
    + rewrite createTable_fresh by done.
      edestruct (addColumns_Some (table_name pq) (columns pq))
        as (tbl' & -> & Hcols & Hrows & Hidx);
        [apply lookup_insert_eq|].
      simpl. rewrite insert_insert_eq.
      apply (outcome_create st query pq tbl'); try done.
      by apply Hidx, index_consistent_new.
  - (* INSERT *)
    unfold mbind, M_bind, bind.
    destruct (tables st !! table_name pq) as [tbl|] eqn:Htbl.
    + rewrite (insertInto_Some _ _ _ _ Htbl).
      destruct (insertRow_strings_cases (values pq) tbl)
        as [(row & Hrow & Hshape)|[e He]]; rewrite ?Hrow, ?He; simpl.
      * by apply (outcome_insert st query pq tbl row).
      * rewrite insert_id by done.
        replace (mk (tables st) (cout st) (cerr st)) with st by (by destruct st).
        by apply (outcome_insert_rejected st query pq tbl e).
    + rewrite insertInto_None by done.
      by apply outcome_insert_missing.
  - (* SELECT *)
    destruct (tables st !! table_name pq) as [tbl|] eqn:Htbl.
    + rewrite (select_Some _ _ _ _ _ Htbl).
      destruct (_ ≫= _) as [lines|e|] eqn:Hlines.
      * by apply (outcome_select st query pq tbl lines).
      * by apply (outcome_select_error st query pq tbl e).
      * by apply (outcome_select_undefined st query pq tbl).
    + rewrite select_None by done.
      by apply outcome_select_missing.
  - (* DROP TABLE *)
    unfold mbind, M_bind, bind.
    destruct (tables st !! table_name pq) as [tbl|] eqn:Htbl.
    + rewrite dropTable_Some by done.
      by apply outcome_drop.
    + rewrite dropTable_None by done.
      by apply outcome_drop_missing.
  - (* SHOW TABLES *)
    by apply (outcome_show st query pq).
  - (* DESCRIBE *)
    destruct (tables st !! table_name pq) as [tbl|] eqn:Htbl.
    + rewrite (describeTable_Some _ _ _ Htbl).
      by apply (outcome_describe st query pq tbl).
    + rewrite describeTable_None by done.
      by apply outcome_describe_missing.
  - (* anything else *)
    by apply (outcome_unknown st query pq).
Qed.

End executeQuery_outcomes.

(** ** A well-formed table is read within bounds *)

Section table_defined.
Context `{F64 : Float64}.
Import Table.

Lemma getColumnIndex_lt tbl column_name i :
  index_consistent tbl →
  getColumnIndex tbl column_name = Ok i → i < length (columns tbl).
Proof.
  intros [Hidx _]. unfold getColumnIndex.
  destruct (column_index_map tbl !! column_name) as [j|] eqn:Hj; [|done].
  intros [= <-]. apply Hidx in Hj.
  destruct (columns tbl !! j) eqn:Hcol; [|done]. by eapply lookup_lt_Some.
Qed.

Lemma getColumnIndex_defined tbl column_name :
  getColumnIndex tbl column_name ≠ Undefined.
Proof. unfold getColumnIndex. by destruct (_ !! _). Qed.

Lemma evaluateCondition_defined tbl row condition :
  index_consistent tbl → length row = length (columns tbl) →
  evaluateCondition tbl row condition ≠ Undefined.
Proof.
  intros Hidx Hlen. unfold evaluateCondition.
  destruct (words condition) as [|column_name [|op [|value_str ?]]]; [done..|].
  destruct (negb _); [done|].
  destruct (getColumnIndex tbl column_name) as [i|e|] eqn:Hi; simpl; [|done|].
  - apply getColumnIndex_lt in Hi; [|done].
    destruct (at_lt row i) as [v ->]; [lia|]. simpl.
    destruct (at_lt (columns tbl) i) as [col ->]; [lia|]. simpl.
    pose proof (parseValue_defined value_str (type col)).
    by destruct (parseValue value_str (type col)).
  - by apply getColumnIndex_defined in Hi.
Qed.

Lemma select_loop_defined tbl where_clause rest i res :
  index_consistent tbl →
  Forall (λ row : Row, length row = length (columns tbl)) rest →
  select_loop tbl where_clause rest i res ≠ Undefined.
Proof.
  intros Hidx Hrest. revert i res.
  induction Hrest as [|row rest Hrow _ IH]; intros i res; simpl; [done|].
  destruct (empty where_clause); simpl; [apply IH|].
  pose proof (evaluateCondition_defined tbl row where_clause Hidx Hrow).
  destruct (evaluateCondition tbl row where_clause); simpl; [apply IH|done..].
Qed.

Lemma selectRows_defined tbl where_clause :
  Table_wf tbl → selectRows tbl where_clause ≠ Undefined.
Proof. intros [Hidx Hlen]. by apply select_loop_defined. Qed.

Lemma selected_headers_in_columns tbl selected_columns :
  index_consistent tbl →
  ∃ headers, selected_headers tbl selected_columns = Ok headers
    ∧ in_columns tbl headers.
Proof.
  intros Hidx.
  induction selected_columns as [|col_name rest (headers & IH & Hin)]; simpl.
  - exists []. split; [done|]. constructor.
  - destruct (hasColumn tbl col_name) eqn:Hhas; [|by eauto].
    pose proof Hhas as [i Hi]%bool_decide_eq_true.
    assert (getColumnIndex tbl col_name = Ok i) as Hget.
    { unfold getColumnIndex. by rewrite Hi. }
    rewrite Hget, IH. simpl. eexists. split; [done|].
    constructor; [|done]. by eapply getColumnIndex_lt.
Qed.

Lemma all_headers_in_columns tbl : in_columns tbl (all_headers tbl).
Proof.
  apply Forall_forall. intros [i h].
  unfold all_headers. intros (j & col & [= -> ->] & Hcol)%elem_of_lookup_imap.
  by eapply lookup_lt_Some.
Qed.

Lemma headers_of_in_columns tbl selected_columns :
  index_consistent tbl →
  ∃ headers, headers_of tbl selected_columns = Ok headers
    ∧ in_columns tbl headers.
Proof.
  intros Hidx. destruct selected_columns as [|c cs].
  - eexists. split; [done|]. apply all_headers_in_columns.
  - by apply selected_headers_in_columns.
Qed.

Lemma cell_in_range tbl row_idx col_idx :
  length_invariant tbl →
  row_idx < length (rows tbl) → col_idx < length (columns tbl) →
  ∃ value_str, cell tbl row_idx col_idx = Ok value_str.
Proof.
  intros Hlen Hrow Hcol. unfold cell.
  destruct (lookup_lt_is_Some_2 (rows tbl) row_idx Hrow) as [row Hr].
  rewrite (proj2 (at_Ok _ _ _) Hr). simpl.
  unfold length_invariant in Hlen. rewrite Forall_forall in Hlen.
  destruct (at_lt row col_idx) as [v ->]; [|by eauto].
  rewrite (Hlen row); [done|]. by eapply list_elem_of_lookup_2.
Qed.

Lemma max_width_loop_in_range tbl col_idx row_indices max_width :
  length_invariant tbl → col_idx < length (columns tbl) →
  ∃ w, max_width_loop tbl col_idx row_indices max_width = Ok w.
Proof.
  intros Hlen Hcol. revert max_width.
  induction row_indices as [|row_idx rest IH]; intros max_width; simpl.
  - by eauto.
  - case_bool_decide as Hrow; [|apply IH].
    destruct (cell_in_range tbl row_idx col_idx) as [value_str ->]; [done..|].
    simpl. apply IH.
Qed.

Lemma widths_of_in_range tbl row_indices headers :
  length_invariant tbl → in_columns tbl headers →
  ∃ widths, widths_of tbl row_indices headers = Ok widths
    ∧ length widths = length headers.
Proof.
  intros Hlen Hin.
  induction Hin as [|[col_idx header] headers Hcol _ (widths & IH & Hws)];
    simpl.
  - by exists [].
  - destruct (max_width_loop_in_range tbl col_idx row_indices
                (String.length header)) as [w ->]; [done..|].
    simpl. rewrite IH. simpl. eexists. split; [done|]. simpl. by rewrite Hws.
Qed.

Lemma row_cells_in_range tbl row_idx widths headers :
  length_invariant tbl → in_columns tbl headers →
  row_idx < length (rows tbl) → length widths = length headers →
  ∃ cells, row_cells tbl row_idx widths headers = Ok cells.
Proof.
  intros Hlen Hin Hrow. revert widths.
  induction Hin as [|[col_idx header] headers Hcol _ IH];
    intros [|width widths] Hws; simpl in *; try done.
  - by eauto.
  - destruct (cell_in_range tbl row_idx col_idx) as [value_str ->]; [done..|].
    simpl. destruct (IH widths) as [cells ->]; [lia|]. simpl. by eauto.
Qed.

Lemma row_lines_in_range tbl widths headers row_indices :
  length_invariant tbl → in_columns tbl headers →
  length widths = length headers →
  ∃ lines, row_lines tbl widths headers row_indices = Ok lines.
Proof.
  intros Hlen Hin Hws.
  induction row_indices as [|row_idx rest [lines IH]]; simpl.
  - by eauto.
  - case_bool_decide as Hrow; [|by eauto].
    destruct (row_cells_in_range tbl row_idx widths headers)
      as [cells ->]; [done..|].
    simpl. rewrite IH. simpl. by eauto.
Qed.

Lemma printRows_defined tbl row_indices selected_columns :
  Table_wf tbl →
  ∃ lines, printRows tbl row_indices selected_columns = Ok lines.
Proof.
  intros [Hidx Hlen]. unfold printRows.
  destruct (headers_of_in_columns tbl selected_columns Hidx)
    as (headers & -> & Hin).
  simpl.
  destruct (widths_of_in_range tbl row_indices headers Hlen Hin)
    as (widths & -> & Hws).
  simpl.
  destruct (row_lines_in_range tbl widths headers row_indices Hlen Hin Hws)
    as [lines ->].
  simpl. by eauto.
Qed.

End table_defined.

(** ** Invariants of the engine *)

Section engine_invariants.
Context `{F64 : Float64}.
Import QueryParser DatabaseEngine.

Lemma Table_wf_push tbl row :
  row_shape (Table.columns tbl) row → Table_wf tbl →
  Table_wf (Table.push_row row tbl).
Proof.
  intros Hrow [Hidx Hlen]. split; [done|].
  apply length_invariant_push; [|done]. by eapply Forall2_length.
Qed.

Lemma executeQuery_wf query st :
  Engine_wf st → Engine_wf (executeQuery query st).1.
Proof.
  intros Hwf. unfold Engine_wf in *.
  destruct (executeQuery_outcome query st); simpl; try done.
  - apply map_Forall_insert_2; [|done]. split; [done|].
    unfold length_invariant.
    by select (Table.rows _ = []) (fun Hrows => rewrite Hrows).
  - apply map_Forall_insert_2; [|done].
    apply Table_wf_push; [done|]. by eapply (Hwf (table_name pq)).
  - by apply map_Forall_delete.
Qed.

Lemma executeQuery_typed query st :
  Engine_typed st → Engine_typed (executeQuery query st).1.
Proof.
  intros Hty. unfold Engine_typed in *.
  destruct (executeQuery_outcome query st); simpl; try done.
  - apply map_Forall_insert_2; [|done].
    unfold shape_invariant.
    by select (Table.rows _ = []) (fun Hrows => rewrite Hrows).
  - apply map_Forall_insert_2; [|done].
    apply shape_invariant_push; [done|]. by eapply (Hty (table_name pq)).
  - by apply map_Forall_delete.
Qed.

Lemma executeQueries_unfold q qs st :
  executeQueries (q :: qs) st
  = match executeQuery q st with
    | (st', Ok _) => executeQueries qs st'
    | (st', Throw e) => (st', Throw e)
    | (st', Undefined) => (st', Undefined)
    end.
Proof. reflexivity. Qed.

Lemma select_lines_defined tbl pq :
  Table_wf tbl → select_lines tbl pq ≠ Undefined.
Proof.
  intros Hwf. unfold select_lines.
  pose proof (selectRows_defined tbl (where_clause pq) Hwf).
  destruct (Table.selectRows tbl (where_clause pq)) as [row_indices| |];
    [simpl|done..].
  by destruct (printRows_defined tbl row_indices (selected_columns pq) Hwf)
    as [lines ->].
Qed.

Lemma executeQueries_wf queries st :
  Engine_wf st →
  ∃ st', executeQueries queries st = (st', Ok ()) ∧ Engine_wf st'.
Proof.
  revert st. induction queries as [|q qs IH]; intros st Hwf.
  - by exists st.
  - rewrite executeQueries_unfold.
    pose proof (executeQuery_wf q st Hwf) as Hwf'.
    pose proof (executeQuery_outcome q st) as Hout.
    destruct (executeQuery q st) as [st1 r]. simpl in Hwf', Hout.
    destruct Hout as [| | | | | | | | | | pq tbl ? ? Htbl Hlines | | | | |];
      try by apply IH.
    exfalso. eapply select_lines_defined; [|done].
    by eapply (Hwf (table_name pq)).
Qed.

(** C5: [executeQuery] lets no exception out, whatever the input and the
    state: an exception thrown while parsing or dispatching is caught and
    turned into one line on the error stream. On an engine whose tables are
    well formed it returns normally and leaves the tables well formed; in
    particular every session that starts from a fresh engine returns
    normally at every statement. *)
Theorem executeQuery_returns :
  (∀ query st e, (executeQuery query st).2 ≠ Throw e)
  ∧ (∀ query st st1 e,
       dispatch query st = (st1, Throw e) →
       executeQuery query st = (report e st1, Ok ()))
  ∧ (∀ query st, Engine_wf st →
       ∃ st', executeQuery query st = (st', Ok ()) ∧ Engine_wf st'
         ∧ (cerr st' = cerr st
            ∨ ∃ e, cerr st' = cerr st ++ ["Error: " +:+ what e]))
  ∧ (∀ queries,
       ∃ st', executeQueries queries new = (st', Ok ()) ∧ Engine_wf st').
Proof.
  split_and!.
  - intros query st e. by destruct (executeQuery_outcome query st).
  - intros query st st1 e Hthrow. unfold executeQuery. by rewrite Hthrow.
  - intros query st Hwf. pose proof (executeQuery_wf query st Hwf) as Hwf'.
    destruct (executeQuery query st) as [st' r] eqn:Hrun. simpl in Hwf'.
    pose proof (executeQuery_outcome query st) as Hout.
    rewrite Hrun in Hout. simpl in Hout.
    exists st'.
    destruct Hout as [| | | | | | | | | | pq tbl ? ? Htbl Hlines | | | | |];
      try (split_and!; [done|done|];
           unfold report, print, with_tables; cbn [cerr]; by eauto).
    exfalso. eapply select_lines_defined; [|done].
    by eapply (Hwf (table_name pq)).
  - intros queries. apply executeQueries_wf, map_Forall_empty.
Qed.

(** C2, amended: the shape invariant (every row as long as the column list,
    every value of the kind its column declares, an undeclared type name
    counting as string) holds in a fresh engine and is kept by every
    statement run through [executeQuery]. The string overload of [insertRow]
    keeps it whether it appends or throws. The [Row] overload throws and
    appends nothing when the length differs from the column count, but it
    checks no kinds: it always keeps the length half of the invariant, and
    the whole invariant only when the given row has the declared kinds. *)
Theorem shape_invariant_preserved :
  Engine_typed new
  ∧ (∀ query st, Engine_typed st → Engine_typed (executeQuery query st).1)
  ∧ (∀ tbl values, shape_invariant tbl →
       shape_invariant (Table.insertRow_strings values tbl).1)
  ∧ (∀ tbl row, length row ≠ length (Table.columns tbl) →
       Table.insertRow row tbl
       = (tbl, Throw (runtime_error "Row size doesn't match number of columns")))
  ∧ (∀ tbl row, shape_invariant tbl →
       length_invariant (Table.insertRow row tbl).1)
  ∧ (∀ tbl row, shape_invariant tbl → row_shape (Table.columns tbl) row →
       shape_invariant (Table.insertRow row tbl).1).
Proof.
  split_and!.
  - apply map_Forall_empty.
  - apply executeQuery_typed.
  - intros tbl values Hinv. by apply insertRow_shape.
  - intros tbl row Hlen. unfold Table.insertRow. by rewrite bool_decide_eq_true_2.
  - intros tbl row Hinv. by apply insertRow_shape.
  - intros tbl row Hinv. by apply insertRow_shape.
Qed.

End engine_invariants.

(** ** The registry *)

Section registry.
Context `{F64 : Float64}.
Import QueryParser DatabaseEngine.

(** A call that does not create [table_name] leaves it unregistered. *)
Lemma run_absent op st table_name :
  tables st !! table_name = None → ¬ creates table_name op →
  tables (run op st).1 !! table_name = None.
Proof.
  intros Hnone Hop. destruct op as [n|n c ty|n vs|n cs wc|n| |n|query]; simpl.
  - destruct (tables st !! n) as [tbl|] eqn:Hn.
    + by rewrite createTable_exists.
    + rewrite createTable_fresh by done. simpl.
      rewrite lookup_insert_ne; [done|]. by intros ->.
  - destruct (tables st !! n) as [tbl|] eqn:Hn.
    + rewrite (addColumn_Some _ _ _ _ _ Hn). simpl.
      rewrite lookup_insert_ne; [done|]. intros ->. congruence.
    + by rewrite addColumn_None.
  - destruct (tables st !! n) as [tbl|] eqn:Hn.
    + rewrite (insertInto_Some _ _ _ _ Hn). simpl.
      rewrite lookup_insert_ne; [done|]. intros ->. congruence.
    + by rewrite insertInto_None.
  - destruct (tables st !! n) as [tbl|] eqn:Hn.
    + rewrite (select_Some _ _ _ _ _ Hn). by destruct (_ ≫= _).
    + by rewrite select_None.
  - destruct (tables st !! n) as [tbl|] eqn:Hn.
    + rewrite dropTable_Some by done. simpl.
      by apply lookup_delete_None; right.
    + by rewrite dropTable_None.
  - done.
  - destruct (tables st !! n) as [tbl|] eqn:Hn.
    + by rewrite (describeTable_Some _ _ _ Hn).
    + by rewrite describeTable_None.
  - destruct (executeQuery_outcome query st); simpl; try done.
    + rewrite lookup_insert_ne; [done|]. intros Hn.
      apply Hop. simpl. by eauto.
    + rewrite lookup_insert_ne; [done|]. intros Hn. congruence.
    + by apply lookup_delete_None; right.
Qed.

Lemma run_all_absent ops st table_name :
  tables st !! table_name = None →
  Forall (λ op, ¬ creates table_name op) ops →
  tables (run_all ops st) !! table_name = None.
Proof.
  intros Hnone Hops. revert st Hnone.
  induction Hops as [|op ops Hop _ IH]; intros st Hnone; simpl; [done|].
  by apply IH, run_absent.
Qed.

(** C8: [dropTable] on a name that is not registered throws "not found" and
    leaves the engine unchanged; once [dropTable] has succeeded on a name,
    and for as long as no call creates that name again, [getTable],
    [insertInto], [select], [describeTable] and [dropTable] on it all throw
    "Table '<name>' not found" and change nothing. *)
Theorem dropTable_not_found st table_name :
  what (not_found table_name) = "Table '" +:+ table_name +:+ "' not found"
  ∧ (tables st !! table_name = None →
     dropTable table_name st = (st, Throw (not_found table_name)))
  ∧ (is_Some (tables st !! table_name) →
     ∃ st', dropTable table_name st = (st', Ok ())
       ∧ ∀ ops, Forall (λ op, ¬ creates table_name op) ops →
           fails_not_found (run_all ops st') table_name).
Proof.
  split_and!; [done|apply dropTable_None|].
  intros Hsome. rewrite dropTable_Some by done.
  eexists. split; [done|]. intros ops Hops.
  apply fails_not_found_None, run_all_absent; [|done].
  simpl. apply lookup_delete_eq.
Qed.

(** *** Listing *)

Lemma listTables_Permutation st :
  listTables st ≡ₚ (map_to_list (tables st)).*1.
Proof. apply merge_sort_Permutation. Qed.

Lemma listTables_Sorted st : Sorted String.le (listTables st).
Proof. apply (Sorted_merge_sort String.le). Qed.

Lemma elem_of_listTables st table_name :
  table_name ∈ listTables st ↔ is_Some (tables st !! table_name).
Proof.
  rewrite listTables_Permutation, list_elem_of_fmap. split.
  - intros ([n tbl] & -> & Hin%elem_of_map_to_list). by eexists.
  - intros [tbl Htbl]. exists (table_name, tbl).
    split; [done|]. by apply elem_of_map_to_list.
Qed.

Lemma listTables_NoDup st : NoDup (listTables st).
Proof. rewrite listTables_Permutation. apply NoDup_fst_map_to_list. Qed.

(** Sorting forgets the order in which the names were collected. *)
Lemma merge_sort_traversal (l1 l2 : list string) :
  l1 ≡ₚ l2 → merge_sort String.le l1 = merge_sort String.le l2.
Proof.
  intros Hperm.
  apply (Sorted_unique String.le); [apply (Sorted_merge_sort String.le)..|].
  by rewrite !merge_sort_Permutation.
Qed.

Lemma listTables_same_names st1 st2 :
  (∀ n, is_Some (tables st1 !! n) ↔ is_Some (tables st2 !! n)) →
  listTables st1 = listTables st2.
Proof.
  intros Hsame.
  apply (Sorted_unique String.le); [apply listTables_Sorted..|].
  apply NoDup_Permutation; [apply listTables_NoDup..|].
  intros n. by rewrite !elem_of_listTables.
Qed.

Lemma create_all_names names st n :
  is_Some (tables (create_all names st) !! n)
  ↔ n ∈ names ∨ is_Some (tables st !! n).
Proof.
  revert st. induction names as [|name names IH]; intros st; simpl.
  - rewrite elem_of_nil. tauto.
  - rewrite IH, elem_of_cons.
    destruct (tables st !! name) as [tbl|] eqn:Hname.
    + rewrite createTable_exists by done. simpl.
      split; [tauto|]. intros [[->|?]|?]; eauto.
    + rewrite createTable_fresh by done. simpl.
      rewrite lookup_insert_is_Some.
      split; [intros [?|[?|[_ ?]]]|intros [[->|?]|?]]; eauto.
      destruct (decide (name = n)); eauto.
Qed.

Lemma showTables_rows (m : gmap string Table.t) (names : list string) :
  (∀ n, n ∈ names → is_Some (m !! n)) →
  Forall2 (λ line n, ∃ tbl, m !! n = Some tbl ∧ line = table_line n tbl)
          (omap (λ n, table_line n <$> m !! n) names) names.
Proof.
  induction names as [|n names IH]; intros Hall; simpl; [constructor|].
  destruct (Hall n) as [tbl Htbl]; [apply list_elem_of_here|].
  rewrite Htbl. simpl. constructor; [by eauto|].
  apply IH. intros n' Hn'. by apply Hall, list_elem_of_further.
Qed.

Example parse_show_tables :
  parse "SHOW TABLES" = Ok (set_type SHOW_TABLES new_ParsedQuery).
Proof. by vm_compute. Qed.

(** C9: [listTables] returns the registered names, each once, in ascending
    lexicographic order; the list depends neither on the order in which the
    map is traversed nor on the order in which the tables were created; and
    SHOW TABLES prints one line per name of that list, in that order: the
    line of a name holds the name, padded to fourteen characters, and the
    number of rows of its table, right-aligned in five. *)
Theorem listTables_sorted st :
  Sorted String.le (listTables st)
  ∧ NoDup (listTables st)
  ∧ (∀ n, n ∈ listTables st ↔ hasTable st n = true)
  ∧ (∀ traversal, traversal ≡ₚ (map_to_list (tables st)).*1 →
       merge_sort String.le traversal = listTables st)
  ∧ (∀ names1 names2, names1 ≡ₚ names2 →
       listTables (create_all names1 st) = listTables (create_all names2 st))
  ∧ executeQuery "SHOW TABLES" st = showTables st
  ∧ ∃ lines,
      showTables st
      = (print (["Tables in database:";
                 "+----------------+-------+";
                 "| Table Name     | Rows  |";
                 "+----------------+-------+"]
                ++ lines
                ++ ["+----------------+-------+";
                    "(" +:+ pretty (size (tables st)) +:+ " tables)"]) st,
         Ok ())
      ∧ Forall2
          (λ line n,
             ∃ tbl, tables st !! n = Some tbl
               ∧ line
                 = "| " +:+ (n +:+ fill (14 - String.length n) " ")
                   +:+ " | "
                   +:+ (fill (5 - String.length
                                    (pretty (length (Table.rows tbl)))) " "
                        +:+ pretty (length (Table.rows tbl)))
                   +:+ " |")
          lines (listTables st).
Proof.
  split_and!.
  - apply listTables_Sorted.
  - apply listTables_NoDup.
  - intros n. by rewrite elem_of_listTables, hasTable_true.
  - intros traversal Hperm. by apply merge_sort_traversal.
  - intros names1 names2 Hperm. apply listTables_same_names.
    intros n. rewrite !create_all_names. by rewrite Hperm.
  - unfold executeQuery, dispatch, mbind, M_bind, bind, lift.
    by rewrite parse_show_tables.
  - eexists. split; [reflexivity|].
    eapply Forall2_impl.
    { apply showTables_rows. intros n. by rewrite elem_of_listTables. }
    intros line n (tbl & Htbl & ->). exists tbl. split; [done|].
    unfold table_line, setw_left, setw_right, Table.size. done.
Qed.

End registry.

(** ** CREATE TABLE *)

Section create_table.
Context `{F64 : Float64}.
Import QueryParser DatabaseEngine.




End create_table.

(** ** Closed instances *)

Section closed_instances.
Local Existing Instance ExactDecimal.float64.
Import QueryParser DatabaseEngine.

Ltac not_in_list :=
  let H := fresh in
  simpl; intros H;
  repeat (apply elem_of_cons in H as [H|H]; [discriminate H|]);
  by apply elem_of_nil in H.

Lemma users_ages_wf : Table_wf users_ages.
Proof.
  split.
  - apply index_consistent_push, index_consistent_addColumn,
      index_consistent_new.
  - by repeat constructor.
Defined.

(** C2, as stated, fails: the [Row] overload accepts a
    string for an [int] column. *)
Lemma insertRow_ignores_kinds :
  let tbl := Table.addColumn "age" "int" (Table.new "users") in
  shape_invariant tbl
  ∧ ¬ row_shape (Table.columns tbl) [VString "x"]
  ∧ Table.insertRow [VString "x"] tbl
    = (Table.push_row [VString "x"] tbl, Ok ())
  ∧ ¬ shape_invariant (Table.insertRow [VString "x"] tbl).1.
Proof.
  assert (¬ row_shape [mkColumn "age" "int"] [VString "x"]) as Hrow.
  { intros Hshape. apply Forall2_cons_1 in Hshape as [Hkind _].
    vm_compute in Hkind. discriminate. }
  split_and!.
  - by apply Forall_nil_2.
  - done.
  - done.
  - intros Hinv. unfold shape_invariant in Hinv. simpl in Hinv.
    apply Hrow. by inversion Hinv.
Qed.

Lemma shape_invariant_preserved_witness :
  Engine_typed (executeQuery "CREATE TABLE t (a int)" new).1
  ∧ shape_invariant (Table.insertRow_strings ["31"] users_ages).1
  ∧ Table.insertRow [] users_ages
    = (users_ages,
       Throw (runtime_error "Row size doesn't match number of columns"))
  ∧ length_invariant (Table.insertRow [VString "x"] users_ages).1
  ∧ shape_invariant (Table.insertRow [VInt 31] users_ages).1.
Proof.
  assert (shape_invariant users_ages) as Hinv.
  { by repeat constructor. }
  destruct shape_invariant_preserved
    as (Hnew & Hquery & Hstrings & Hreject & Hlength & Hrow).
  split_and!.
  - apply Hquery, Hnew.
  - apply Hstrings, Hinv.
  - apply Hreject. simpl. lia.
  - apply Hlength, Hinv.
  - apply Hrow; [apply Hinv|]. by repeat constructor.
Defined.

Lemma evaluateCondition_short_or_unknown_witness :
  (Table.evaluateCondition users_ages [VInt 30] "age" = Ok true
   ∧ Table.selectRows users_ages "age" = Ok [0])
  ∧ Table.evaluateCondition users_ages [VInt 30] "zip = 3" = Ok false.
Proof.
  destruct (evaluateCondition_short_or_unknown users_ages [VInt 30] "age")
    as [Hshort _].
  destruct (evaluateCondition_short_or_unknown users_ages [VInt 30] "zip = 3")
    as [_ Hunknown].
  split.
  - apply Hshort. vm_compute. lia.
  - apply (Hunknown (proj1 users_ages_wf)) with (column_name := "zip").
    + vm_compute. lia.
    + done.
    + not_in_list.
Defined.

(** C10, as stated, fails: the literal is converted before the
    operator is looked at, and the conversion error gets out. *)
Lemma evaluateCondition_unknown_operator_throws :
  [VInt 30] ∈ Table.rows users_ages
  ∧ words "age ~ abc" = ["age"; "~"; "abc"]
  ∧ ("~" ∉ ["="; "!="; "<"; ">"; "<="; ">="])
  ∧ Table.hasColumn users_ages "age" = true
  ∧ Table.evaluateCondition users_ages [VInt 30] "age ~ abc"
    = Throw (invalid_argument "stoi").
Proof.
  split_and!; [apply list_elem_of_here|done| |done|done].
  not_in_list.
Qed.

Lemma evaluateCondition_unknown_operator_witness :
  ∃ col, col ∈ Table.columns users_ages ∧ name col = "age"
    ∧ (Table.getColumnIndex users_ages "age"
         ≫= at_ (Table.columns users_ages)) = Ok col
    ∧ (parses_as (type col) "26" →
       Table.evaluateCondition users_ages [VInt 30] "age ~ 26" = Ok false)
    ∧ (¬ parses_as (type col) "26" →
       ∃ e, Table.evaluateCondition users_ages [VInt 30] "age ~ 26" = Throw e).
Proof.
  apply (evaluateCondition_unknown_operator users_ages [VInt 30] "age ~ 26"
           "age" "~" "26").
  - apply users_ages_wf.
  - apply list_elem_of_here.
  - done.
  - not_in_list.
  - apply list_elem_of_here.
Defined.

Lemma executeQuery_returns_witness :
  executeQuery "INSERT INTO missing VALUES ( 1 )" new
  = (report (not_found "missing") new, Ok ())
  ∧ ∃ st', executeQuery "SELECT * FROM missing" new = (st', Ok ())
      ∧ Engine_wf st'
      ∧ (cerr st' = cerr new
         ∨ ∃ e, cerr st' = cerr new ++ ["Error: " +:+ what e]).
Proof.
  destruct executeQuery_returns as (_ & Hcaught & Hreturns & _).
  split.
  - by apply Hcaught.
  - apply Hreturns, map_Forall_empty.
Defined.

Lemma dropTable_not_found_witness :
  let st := (createTable "t" new).1 in
  ∃ st', dropTable "t" st = (st', Ok ())
    ∧ fails_not_found
        (run_all [OpInsertInto "t" []; OpExecuteQuery "CREATE TABLE u (a int)"]
                 st')
        "t".
Proof.
  intros st.
  destruct (dropTable_not_found st "t") as (_ & _ & Hdrop).
  destruct Hdrop as (st' & Hst' & Hops); [by eexists|].
  exists st'. split; [done|]. apply Hops.
  constructor; [by intros []|].
  constructor; [|constructor].
  intros (pq & Hpq & _ & Hname). vm_compute in Hpq.
  injection Hpq as <-. discriminate.
Defined.

Lemma listTables_sorted_witness :
  listTables (create_all ["b"; "a"] new) = listTables (create_all ["a"; "b"] new)
  ∧ merge_sort String.le ["b"; "a"] = listTables (create_all ["a"; "b"] new)
  ∧ cout (showTables (create_all ["b"; "a"] new)).1
    = ["Tables in database:";
       "+----------------+-------+";
       "| Table Name     | Rows  |";
       "+----------------+-------+";
       "| a              |     0 |";
       "| b              |     0 |";
       "+----------------+-------+";
       "(2 tables)"].
Proof.
  split_and!.
  - destruct (listTables_sorted new) as (_ & _ & _ & _ & Hcreate & _ & _).
    apply Hcreate. apply perm_swap.
  - destruct (listTables_sorted (create_all ["a"; "b"] new))
      as (_ & _ & _ & Htraversal & _).
    apply Htraversal. vm_compute.
    first [reflexivity|apply perm_swap].
  - destruct (listTables_sorted (create_all ["b"; "a"] new))
      as (_ & _ & _ & Htraversal & _ & _ & lines & -> & Hlines).
    rewrite <- (Htraversal ["b"; "a"]) in Hlines.
    2: { vm_compute. first [reflexivity|apply perm_swap]. }
    change (merge_sort String.le ["b"; "a"]) with ["a"; "b"] in Hlines.
    apply Forall2_cons_inv_r in Hlines
      as (line_a & lines' & (ta & Hta & ->) & Hlines & ->).
    apply Forall2_cons_inv_r in Hlines
      as (line_b & lines'' & (tb & Htb & ->) & Hlines & ->).
    apply Forall2_nil_inv_r in Hlines as ->.
    assert (tables (create_all ["b"; "a"] new)
            = <["a" := Table.new "a"]> (<["b" := Table.new "b"]> ∅))
      as Htables.
    { unfold create_all. cbn [fold_left].
      rewrite (createTable_fresh "b" new) by done. cbn [fst].
      rewrite createTable_fresh
        by (cbn [tables new]; by rewrite lookup_insert_ne).
      done. }
    rewrite Htables in Hta, Htb. rewrite Htables.
    rewrite lookup_insert_eq in Hta.
    rewrite lookup_insert_ne, lookup_insert_eq in Htb by done.
    injection Hta as <-. injection Htb as <-.
    unfold print. cbn [cout fst new app].
    rewrite !map_size_insert_None, map_size_empty; [done|done|].
    by rewrite lookup_insert_ne.
Defined.

End closed_instances.

(** * Further properties *)

(** ** Words and tokens *)

Section words_and_tokens.
Import QueryParser.

Lemma words_from_space cur a c b :
  isspace c = true →
  words_from cur (a +:+ String c b) = words_from cur a ++ words b.
Proof.
  intros Hc. revert cur. induction a as [|c' a IH]; intros cur; simpl.
  - by rewrite Hc.
  - destruct (isspace c'); [|apply IH].
    by rewrite IH, <- app_assoc.
Qed.

Lemma has_space_app s1 s2 :
  has_space (s1 +:+ s2) = has_space s1 || has_space s2.
Proof.
  induction s1 as [|c s1 IH]; simpl; [done|]. by rewrite IH, orb_assoc.
Qed.

Lemma words_from_proper cur s :
  has_space cur = false → Forall proper_token (words_from cur s).
Proof.
  revert cur. induction s as [|c s IH]; intros cur Hcur; simpl.
  - destruct cur; simpl; by repeat constructor.
  - destruct (isspace c) eqn:Hc.
    + apply Forall_app. split; [|by apply IH].
      destruct cur; simpl; by repeat constructor.
    + apply IH. rewrite has_space_app. simpl. by rewrite Hcur, Hc.
Qed.

Lemma has_space_pop_back s : has_space s = false → has_space (pop_back s) = false.
Proof.
  induction s as [|c s IH]; [done|].
  destruct s as [|c' s']; [done|].
  rewrite pop_back_cons.
  change (has_space (String c ?x)) with (isspace c || has_space x).
  intros [-> Hs]%orb_false_elim. by rewrite IH.
Qed.

Lemma has_space_substr_from n s :
  has_space s = false → has_space (substr_from n s) = false.
Proof.
  revert s. induction n as [|n IH]; intros [|c s]; simpl; try done.
  intros [_ Hs]%orb_false_elim. by apply IH.
Qed.

Lemma has_space_back s c :
  has_space s = false → back s = Some c → isspace c = false.
Proof.
  induction s as [|c' s IH]; [done|].
  destruct s as [|c'' s'].
  - simpl. intros [Hc _]%orb_false_elim [= <-]. done.
  - rewrite back_cons.
    change (has_space (String c' ?x)) with (isspace c' || has_space x).
    intros [_ Hs]%orb_false_elim. by apply IH.
Qed.

Lemma tokenize_step_proper fragment :
  proper_token fragment → Forall proper_token (tokenize_step [] fragment).
Proof.
  intros [Hne Hsp]. unfold tokenize_step.
  assert (∀ s, has_space s = false → Forall proper_token (if empty s then [] else [s]))
    as Hone.
  { intros [|c s] Hs; simpl; by repeat constructor. }
  destruct (back fragment) as [punct|] eqn:Hback.
  - destruct (is_trailing_punct punct) eqn:Hpunct.
    + simpl.
      pose proof (Hone _ (has_space_pop_back _ Hsp)) as Hbody.
      destruct (_ || _); [|done].
      apply Forall_app. split; [done|].
      constructor; [|done]. split; [done|]. simpl.
      by rewrite (has_space_back _ _ Hsp Hback).
    + destruct (negb (empty fragment) && _).
      * pose proof (Hone _ (has_space_substr_from 1 _ Hsp)) as Hrest.
        destruct (empty (substr_from 1 fragment)); simpl;
          (constructor; [done|]); done.
      * by apply Hone.
  - by apply back_None in Hback.
Qed.

(** X1: the tokenizer works fragment by fragment: the tokens of two texts
    joined by a white-space character are the tokens of the first followed
    by the tokens of the second. *)
Theorem tokenize_space a c b :
  isspace c = true →
  tokenize (a +:+ String c b) = tokenize a ++ tokenize b.
Proof.
  intros Hc. rewrite !tokenize_fragments. unfold words.
  rewrite words_from_space by done.
  by rewrite fmap_app, join_app.
Qed.

Lemma tokenize_space_witness :
  tokenize ("DROP TABLE" +:+ String " " "users")
  = tokenize "DROP TABLE" ++ tokenize "users".
Proof. by apply tokenize_space. Defined.

Lemma words_from_all_space s :
  all_space s = true → words_from EmptyString s = [].
Proof.
  induction s as [|c s IH]; simpl; [done|].
  intros [-> Hs]%andb_true_iff. by apply IH.
Qed.

(** X2: every token is non-empty and free of white space, and a text made
    of white space only has no token at all. *)
Theorem tokenize_proper query :
  Forall proper_token (tokenize query)
  ∧ (all_space query = true → tokenize query = []).
Proof.
  split.
  - rewrite tokenize_fragments. apply Forall_forall.
    intros token (tokens & Hin & (fragment & -> & Hfrag)%list_elem_of_fmap)
      %list_elem_of_join.
    pose proof (words_from_proper EmptyString query eq_refl) as Hwords.
    rewrite Forall_forall in Hwords.
    pose proof (tokenize_step_proper fragment (Hwords _ Hfrag)) as Htok.
    rewrite Forall_forall in Htok. by apply Htok.
  - intros Hsp. unfold tokenize, words. by rewrite words_from_all_space.
Qed.

Lemma tokenize_proper_witness : tokenize "   " = [].
Proof. by apply tokenize_proper. Defined.

End words_and_tokens.

(** ** [trim] *)

Section trim.
Import QueryParser SimpleDatabase.

Lemma blank_isspace c : blank c = true → isspace c = true.
Proof.
  unfold blank, blanks. simpl. rewrite orb_false_r.
  intros [Hc|[Hc|[Hc|Hc]%orb_true_iff]%orb_true_iff]%orb_true_iff;
    apply bool_decide_eq_true in Hc; by subst c.
Qed.

Lemma all_blank_space s : all_blank s = true → all_space s = true.
Proof.
  induction s as [|c s IH]; simpl; [done|].
  intros [Hc Hs]%andb_true_iff. by rewrite (blank_isspace c Hc), IH.
Qed.

Lemma find_first_cons c s :
  find_first_not_of blanks (String c s)
  = if blank c then S <$> find_first_not_of blanks s else Some 0.
Proof. reflexivity. Qed.

Lemma find_last_cons c s :
  find_last_not_of blanks (String c s)
  = match find_last_not_of blanks s with
    | Some i => Some (S i)
    | None => if blank c then None else Some 0
    end.
Proof. reflexivity. Qed.

Lemma find_first_lstrip s :
  match find_first_not_of blanks s with
  | None => lstrip s = EmptyString ∧ all_blank s = true
  | Some i => lstrip s = substr_from i s ∧ lstrip s ≠ EmptyString
  end.
Proof.
  induction s as [|c s IH]; [done|].
  rewrite find_first_cons. cbn [lstrip all_blank].
  destruct (blank c); [|done].
  by destruct (find_first_not_of blanks s).
Qed.

Lemma find_last_rstrip s :
  match find_last_not_of blanks s with
  | None => rstrip s = EmptyString
  | Some j => rstrip s = string_take (j + 1) s ∧ rstrip s ≠ EmptyString
  end.
Proof.
  induction s as [|c s IH]; [done|].
  rewrite find_last_cons. cbn [rstrip].
  destruct (find_last_not_of blanks s) as [j|].
  - destruct IH as [IH Hne]. destruct (rstrip s) eqn:Hr; [done|].
    simpl. by rewrite <- IH.
  - rewrite IH. by destruct (blank c).
Qed.

Lemma find_last_substr_from s i :
  find_first_not_of blanks s = Some i →
  ∃ j, find_last_not_of blanks s = Some j ∧ i ≤ j
    ∧ find_last_not_of blanks (substr_from i s) = Some (j - i).
Proof.
  revert i. induction s as [|c s IH]; intros i; [done|].
  rewrite find_first_cons, find_last_cons.
  destruct (blank c) eqn:Hc.
  - destruct (find_first_not_of blanks s) as [i'|]; [|done].
    intros [= <-]. destruct (IH i' eq_refl) as (j & -> & Hle & Hlast).
    exists (S j). split_and!; [done|lia|done].
  - intros [= <-]. cbn [substr_from]. rewrite find_last_cons.
    destruct (find_last_not_of blanks s) as [j|] eqn:Hj.
    + exists (S j). split_and!; [done|lia|]. by rewrite Nat.sub_0_r.
    + exists 0. by rewrite Hc.
Qed.

(** [trim] is the text without its leading and trailing blanks. *)
Lemma trim_strip s : trim s = rstrip (lstrip s).
Proof.
  unfold trim. pose proof (find_first_lstrip s) as Hfirst.
  destruct (find_first_not_of blanks s) as [i|] eqn:Hi.
  - destruct Hfirst as [-> _].
    destruct (find_last_substr_from s i Hi) as (j & -> & Hle & Hlast).
    pose proof (find_last_rstrip (substr_from i s)) as Hr.
    rewrite Hlast in Hr. destruct Hr as [-> _]. unfold substr.
    by replace (j - i + 1) with (j - i + 1) by lia.
  - by destruct Hfirst as [-> _].
Qed.

Lemma append_cons c s1 s2 : String c s1 +:+ s2 = String c (s1 +:+ s2).
Proof. reflexivity. Qed.

Lemma lstrip_decompose s :
  ∃ l, s = l +:+ lstrip s ∧ all_blank l = true.
Proof.
  induction s as [|c s (l & IH & Hl)]; cbn [lstrip].
  - by exists EmptyString.
  - destruct (blank c) eqn:Hc; [|by exists EmptyString].
    exists (String c l). rewrite append_cons. cbn [all_blank].
    by rewrite <- IH, Hc.
Qed.

Lemma rstrip_decompose s :
  ∃ r, s = rstrip s +:+ r ∧ all_blank r = true.
Proof.
  induction s as [|c s (r & IH & Hr)]; cbn [rstrip].
  - by exists EmptyString.
  - destruct (rstrip s) as [|c' r'] eqn:Hs.
    + change (s = r) in IH. subst r. destruct (blank c) eqn:Hc.
      * exists (String c s). cbn [all_blank]. by rewrite Hc.
      * by exists s.
    + exists r. rewrite append_cons. by rewrite IH at 1.
Qed.

Lemma lstrip_front s c : front (lstrip s) = Some c → blank c = false.
Proof.
  induction s as [|c' s IH]; cbn [lstrip]; [done|].
  destruct (blank c') eqn:Hc; [done|]. cbn [front]. by intros [= <-].
Qed.

Lemma rstrip_back s c : back (rstrip s) = Some c → blank c = false.
Proof.
  induction s as [|c' s IH]; cbn [rstrip]; [done|].
  destruct (rstrip s) as [|c'' r] eqn:Hs.
  - destruct (blank c') eqn:Hc; [done|]. cbn [back]. by intros [= <-].
  - by rewrite back_cons.
Qed.

Lemma rstrip_front s c :
  front s = Some c → blank c = false → front (rstrip s) = Some c.
Proof.
  destruct s as [|c' s]; cbn [front rstrip]; [done|]. intros [= ->] Hc.
  destruct (rstrip s); [by rewrite Hc|done].
Qed.

Lemma lstrip_trimmed s :
  (∀ c, front s = Some c → blank c = false) → lstrip s = s.
Proof.
  destruct s as [|c s]; cbn [lstrip front]; [done|]. intros Hfront.
  by rewrite (Hfront c eq_refl).
Qed.

Lemma rstrip_trimmed s :
  (∀ c, back s = Some c → blank c = false) → rstrip s = s.
Proof.
  induction s as [|c s IH]; [done|]. intros Hback.
  destruct s as [|c' s'].
  - cbn [rstrip]. by rewrite (Hback c eq_refl).
  - change (rstrip (String c ?x)) with
      (match rstrip x with
       | EmptyString => if blank c then EmptyString else String c EmptyString
       | r => String c r
       end).
    rewrite IH; [done|]. intros c0 Hc0. apply Hback. by rewrite back_cons.
Qed.

Lemma trim_trimmed s : trimmed (trim s).
Proof.
  rewrite trim_strip. split; [|apply rstrip_back].
  intros c Hc.
  destruct (lstrip s) as [|c' r] eqn:Hl; [done|].
  destruct (blank c') eqn:Hc'.
  - pose proof (lstrip_front s c') as Hf. rewrite Hl in Hf.
    by rewrite Hf in Hc'.
  - rewrite (rstrip_front (String c' r) c' eq_refl Hc') in Hc.
    by injection Hc as <-.
Qed.

Lemma words_from_leading l m :
  all_space l = true →
  words_from EmptyString (l +:+ m) = words_from EmptyString m.
Proof.
  induction l as [|c l IH]; simpl; [done|].
  intros [-> Hl]%andb_true_iff. by apply IH.
Qed.

Lemma words_from_trailing cur p r :
  all_space r = true → words_from cur (p +:+ r) = words_from cur p.
Proof.
  intros Hr. revert cur. induction p as [|c p IH]; intros cur; simpl.
  - destruct r as [|c r]; [done|]. simpl in *.
    apply andb_true_iff in Hr as [-> Hr].
    by rewrite words_from_all_space, app_nil_r.
  - by rewrite !IH.
Qed.

Lemma words_trim s : words (trim s) = words s.
Proof.
  rewrite trim_strip. unfold words.
  destruct (lstrip_decompose s) as (l & Hs & Hl).
  destruct (rstrip_decompose (lstrip s)) as (r & Hm & Hr).
  rewrite Hs at 2.
  rewrite words_from_leading by by apply all_blank_space.
  rewrite Hm at 2.
  by rewrite words_from_trailing by by apply all_blank_space.
Qed.

Lemma trim_idempotent s : trim (trim s) = trim s.
Proof.
  destruct (trim_trimmed s) as [Hfront Hback].
  rewrite (trim_strip (trim s)).
  by rewrite lstrip_trimmed, rstrip_trimmed.
Qed.

(** X3: [trim] removes blanks at the two ends only, and what it removes
    does not matter to the parser: the trimmed line starts and ends with a
    character that is not a blank (or is empty, exactly when the line is all
    blanks), trimming twice is trimming once, and the trimmed line has the
    tokens of the line. *)
Theorem trim_insignificant s :
  trimmed (trim s)
  ∧ (trim s = EmptyString ↔ all_blank s = true)
  ∧ trim (trim s) = trim s
  ∧ tokenize (trim s) = tokenize s.
Proof.
  split_and!.
  - apply trim_trimmed.
  - unfold trim. pose proof (find_first_lstrip s) as Hfirst.
    destruct (find_first_not_of blanks s) as [i|] eqn:Hi.
    + destruct Hfirst as [Hl Hne]. split.
      * intros Hempty. exfalso.
        destruct (find_last_substr_from s i Hi) as (j & Hj & Hle & Hlast).
        rewrite Hj in Hempty.
        pose proof (find_last_rstrip (substr_from i s)) as Hr.
        rewrite Hlast in Hr. destruct Hr as [Hr Hrne].
        apply Hrne. rewrite Hr. done.
      * intros Hall. exfalso. clear Hl Hne. revert i Hi.
        induction s as [|c s IH]; intros i; [done|].
        rewrite find_first_cons. cbn [all_blank] in Hall.
        apply andb_true_iff in Hall as [-> Hs].
        destruct (find_first_not_of blanks s) eqn:Hf; [|done].
        intros _. by eapply IH.
    + by destruct Hfirst as [_ ->].
  - apply trim_idempotent.
  - unfold tokenize. by rewrite words_trim.
Qed.

End trim.

(** ** Shapes the parser accepts *)

Section parser_shapes.
Import QueryParser.

Lemma find_open_absent rest start :
  "(" ∉ rest → find_open rest start = start + length rest.
Proof.
  revert start. induction rest as [|t rest IH]; intros start Hin; simpl.
  - lia.
  - apply not_elem_of_cons in Hin as [Ht Hin].
    rewrite bool_decide_eq_false_2 by done. rewrite IH by done. lia.
Qed.

Lemma find_open_found rest start :
  find_open rest start < start + length rest → "(" ∈ rest.
Proof.
  revert start. induction rest as [|t rest IH]; intros start; simpl; [lia|].
  case_bool_decide as Ht; [subst t; intros _; apply list_elem_of_here|].
  intros Hlt. apply list_elem_of_further, (IH (S start)). lia.
Qed.

Lemma parse_values_body body rest vals :
  ")" ∉ body → rest = [] ∨ (∃ junk, rest = ")" :: junk) →
  parse_values (body ++ rest) vals
  = vals ++ (unquote <$> filter (λ t, t ≠ ",") body).
Proof.
  intros Hbody Hrest. revert vals.
  induction body as [|t body IH]; intros vals; simpl.
  - rewrite app_nil_r. by destruct Hrest as [->|[junk ->]].
  - apply not_elem_of_cons in Hbody as [Ht Hbody].
    rewrite bool_decide_eq_false_2 by done.
    rewrite filter_cons. destruct (decide (t = ",")) as [->|Hcomma].
    + rewrite (bool_decide_eq_true_2 ("," = ",")) by done.
      rewrite decide_False by (by intros []). by apply IH.
    + rewrite (bool_decide_eq_false_2 (t = ",")) by done.
      rewrite decide_True by done. rewrite IH by done.
      simpl. by rewrite <- app_assoc.
Qed.

Lemma parse_selected_filter rest sel :
  parse_selected rest sel
  = if bool_decide ("*" ∈ rest) then []
    else sel ++ filter (λ t, t ≠ ",") rest.
Proof.
  revert sel. induction rest as [|t rest IH]; intros sel; simpl.
  - by rewrite filter_nil, app_nil_r.
  - rewrite filter_cons. destruct (decide (t = ",")) as [->|Hcomma].
    + rewrite (bool_decide_eq_true_2 ("," = ",")) by done.
      rewrite decide_False by (by intros []). rewrite IH.
      apply (f_equal (λ b : bool, if b then _ else _)).
      apply bool_decide_ext. rewrite elem_of_cons.
      split; [by right|by intros [|]].
    + rewrite (bool_decide_eq_false_2 (t = ",")) by done.
      rewrite decide_True by done.
      destruct (decide (t = "*")) as [->|Hstar].
      * rewrite (bool_decide_eq_true_2 ("*" = "*")) by done.
        by rewrite bool_decide_eq_true_2 by apply list_elem_of_here.
      * rewrite (bool_decide_eq_false_2 (t = "*")) by done. rewrite IH.
        rewrite (bool_decide_ext ("*" ∈ t :: rest) ("*" ∈ rest)).
        2: { rewrite elem_of_cons. split; [by intros [|]|by right]. }
        case_bool_decide; [done|]. by rewrite <- app_assoc.
Qed.

Lemma length_append s1 s2 :
  String.length (s1 +:+ s2) = String.length s1 + String.length s2.
Proof. induction s1 as [|c s1 IH]; simpl; [done|]. by rewrite IH. Qed.

Lemma back_snoc s c : back (s +:+ String c EmptyString) = Some c.
Proof.
  induction s as [|c' s IH]; [done|].
  rewrite append_cons. destruct s as [|c'' s']; [done|].
  rewrite append_cons in *. by rewrite back_cons.
Qed.

Lemma substring_prefix s r :
  String.substring 0 (String.length s) (s +:+ r) = s.
Proof.
  induction s as [|c s IH]; simpl; [by destruct r|]. by rewrite IH.
Qed.

(** X4: the quote stripping of [parseInsert] takes off exactly one pair of
    matching quotes, single or double, whatever is between them, and leaves
    alone a value that does not start and end with the same quote. *)
Theorem unquote_quoted q s :
  (q = "'"%char ∨ q = "034"%char →
   unquote (String q (s +:+ String q EmptyString)) = s)
  ∧ ((front s ≠ Some "'"%char ∨ back s ≠ Some "'"%char) →
     (front s ≠ Some "034"%char ∨ back s ≠ Some "034"%char) →
     unquote s = s).
Proof.
  split.
  - intros Hq. unfold unquote.
    assert (back (String q (s +:+ String q EmptyString)) = Some q) as Hback.
    { rewrite <- append_cons. apply back_snoc. }
    rewrite Hback. cbn [front String.length].
    rewrite length_append. cbn [String.length].
    rewrite bool_decide_eq_true_2 by lia.
    replace (S (String.length s + 1) - 2) with (String.length s) by lia.
    cbn [String.substring]. rewrite substring_prefix.
    by destruct Hq as [-> | ->].
  - intros Hsingle Hdouble. unfold unquote.
    destruct (bool_decide (2 ≤ String.length s)); [|done]. simpl.
    destruct (bool_decide_reflect (front s = Some "034"%char)),
             (bool_decide_reflect (back s = Some "034"%char)),
             (bool_decide_reflect (front s = Some "'"%char)),
             (bool_decide_reflect (back s = Some "'"%char));
      simpl; try done;
      first [by destruct Hdouble | by destruct Hsingle].
Qed.

Lemma unquote_quoted_witness :
  unquote "'New York'" = "New York" ∧ unquote "it's" = "it's".
Proof.
  split.
  - apply (proj1 (unquote_quoted "'"%char "New York"%string)). by left.
  - apply (proj2 (unquote_quoted "'"%char "it's"%string)); right; by vm_compute.
Defined.

(** X5: [parseInsert] on a statement of the shape INSERT INTO name VALUES
    ( body ), the close parenthesis being optional: the values are the tokens
    of the body that are not commas, each with its quotes stripped, in
    order. When no token after VALUES is an open parenthesis on its own the
    statement is refused with "Missing values in INSERT statement". *)
Theorem parseInsert_shape kw into name vals_kw query :
  toLower into = "into" → toLower vals_kw = "values" →
  (∀ body rest,
     ")" ∉ body → rest = [] ∨ (∃ junk, rest = ")" :: junk) →
     parseInsert (kw :: into :: name :: vals_kw :: "(" :: body ++ rest) query
     = Ok {| query_type := query_type query; table_name := name;
             columns := columns query;
             selected_columns := selected_columns query;
             values := values query
                       ++ (unquote <$> filter (λ t, t ≠ ",") body);
             where_clause := where_clause query |})
  ∧ (∀ rest,
       rest ≠ [] → "(" ∉ rest →
       parseInsert (kw :: into :: name :: vals_kw :: rest) query
       = Throw (runtime_error "Missing values in INSERT statement")).
Proof.
  intros Hinto Hvalues. split.
  - intros body rest Hbody Hrest. unfold parseInsert.
    rewrite bool_decide_eq_false_2 by (simpl; lia). simpl.
    rewrite Hinto, Hvalues. simpl.
    by rewrite drop_0, parse_values_body.
  - intros rest Hne Hopen. unfold parseInsert.
    rewrite bool_decide_eq_false_2 by (destruct rest; simpl; [done|lia]).
    simpl. rewrite Hinto, Hvalues. simpl. rewrite drop_0.
    rewrite find_open_absent by done.
    by rewrite bool_decide_eq_true_2 by lia.
Qed.

Lemma parseInsert_shape_witness :
  parseInsert ["insert"; "Into"; "t"; "VALUES"; "("; "1"; ","; "'a'"; ")"]
              new_ParsedQuery
  = Ok {| query_type := UNKNOWN; table_name := "t"; columns := [];
          selected_columns := []; values := ["1"; "a"];
          where_clause := EmptyString |}
  ∧ parseInsert ["insert"; "Into"; "t"; "VALUES"; "(1"; ","; "'a'"; ")"]
                new_ParsedQuery
    = Throw (runtime_error "Missing values in INSERT statement").
Proof.
  destruct (parseInsert_shape "insert" "Into" "t" "VALUES" new_ParsedQuery)
    as [Hshape Hmissing]; [done..|].
  split.
  - apply (Hshape ["1"; ","; "'a'"] [")"]); [|by eauto].
    intros Hin. repeat (apply elem_of_cons in Hin as [Hin|Hin]; [done|]).
    by apply elem_of_nil in Hin.
  - apply Hmissing; [done|].
    intros Hin. repeat (apply elem_of_cons in Hin as [Hin|Hin]; [done|]).
    by apply elem_of_nil in Hin.
Defined.

End parser_shapes.


Section open_parenthesis.
Import QueryParser.

Lemma parseCreateTable_type tokens query r :
  parseCreateTable tokens query = Ok r → query_type r = query_type query.
Proof.
  unfold parseCreateTable. case_bool_decide; [done|].
  destruct (at_ tokens 2); [|done..]. simpl.
  case_bool_decide; [done|]. by intros [= <-].
Qed.

Lemma parse_type_insert query pq :
  parse query = Ok pq → query_type pq = INSERT →
  parseInsert (tokenize query) (set_type INSERT new_ParsedQuery) = Ok pq.
Proof.
  unfold parse. destruct (tokenize query) as [|t0 tokens]; [by intros [= <-]|].
  repeat case_bool_decide;
    repeat match goal with |- context [second_is ?kw ?l] =>
      destruct (second_is kw l) end;
    try done; try (by intros [= <-]); intros Hpq Hty; exfalso;
    first [ apply parseCreateTable_type in Hpq
          | apply parseSelect_type in Hpq
          | apply parseDropTable_type in Hpq
          | apply parseDescribe_type in Hpq ];
    simpl in Hpq; congruence.
Qed.

Lemma pop_back_open s punct :
  back s = Some punct → pop_back s = "(" →
  front s = Some "("%char ∧ String.length s = 2.
Proof.
  destruct s as [|c [|c' [|c'' s']]]; try done.
  simpl. by intros _ [= ->].
Qed.

Lemma tokenize_step_open fragment :
  "(" ∈ tokenize_step [] fragment →
  front fragment = Some "("%char
  ∧ (ends_with_punct fragment = false ∨ String.length fragment ≤ 2).
Proof.
  unfold tokenize_step, ends_with_punct.
  destruct (back fragment) as [punct|] eqn:Hback.
  2: { apply back_None in Hback as ->. by intros ?%elem_of_nil. }
  destruct (is_trailing_punct punct) eqn:Hpunct.
  - cbn [empty negb andb app]. intros Hin.
    assert (pop_back fragment = "(") as Hopen.
    { destruct (empty (pop_back fragment)) eqn:Hempty;
        unfold is_trailing_punct in Hpunct;
        repeat case_bool_decide; subst; cbn in Hin;
        repeat (apply elem_of_cons in Hin as [Hin|Hin]; try done);
        by apply elem_of_nil in Hin. }
    destruct (pop_back_open _ _ Hback Hopen) as [? Hlen].
    split; [done|]. right. lia.
  - destruct (bool_decide_reflect (front fragment = Some "("%char))
      as [Hfront|Hfront]; [by auto|].
    rewrite andb_false_r. cbn [app].
    destruct (empty fragment); [by intros ?%elem_of_nil|].
    intros Hin%list_elem_of_singleton. subst fragment. by destruct Hfront.
Qed.

(** X6: a CREATE TABLE or an INSERT statement is accepted only when some
    white-space delimited fragment of it starts with an open parenthesis and
    either has no comma, semicolon or close parenthesis at its end or is at
    most two characters long; the values or columns of a fragment such as
    (1, or (id) are never found. *)
Theorem open_parenthesis_required query pq :
  parse query = Ok pq →
  query_type pq = CREATE_TABLE ∨ query_type pq = INSERT →
  ∃ fragment,
    fragment ∈ words query ∧ front fragment = Some "("%char
    ∧ (ends_with_punct fragment = false ∨ String.length fragment ≤ 2).
Proof.
  intros Hparse Hty.
  assert ("(" ∈ tokenize query) as Hopen.
  { destruct Hty as [Hty|Hty].
    - apply parse_type_create in Hparse; [|done].
      unfold parseCreateTable in Hparse.
      case_bool_decide; [done|].
      destruct (at_ (tokenize query) 2); [|done..]. simpl in Hparse.
      case_bool_decide; [done|].
      apply (subseteq_drop 3), (find_open_found _ 3).
      rewrite length_drop. lia.
    - apply parse_type_insert in Hparse; [|done].
      unfold parseInsert in Hparse.
      case_bool_decide; [done|].
      destruct (at_ (tokenize query) 1); [|done..]. simpl in Hparse.
      case_bool_decide; [done|].
      destruct (at_ (tokenize query) 2); [|done..]. simpl in Hparse.
      destruct (at_ (tokenize query) 3); [|done..]. simpl in Hparse.
      case_bool_decide; [done|]. case_bool_decide; [done|].
      apply (subseteq_drop 4), (find_open_found _ 4).
      rewrite length_drop. lia. }
  rewrite tokenize_fragments in Hopen.
  apply list_elem_of_join in Hopen as (tokens & Hin & Htokens).
  apply list_elem_of_fmap in Htokens as (fragment & -> & Hfragment).
  exists fragment. split; [done|]. by apply tokenize_step_open.
Qed.

Lemma open_parenthesis_required_witness :
  ∃ fragment,
    fragment ∈ words "INSERT INTO t VALUES ( 1 )"
    ∧ front fragment = Some "("%char
    ∧ (ends_with_punct fragment = false ∨ String.length fragment ≤ 2).
Proof.
  eapply (open_parenthesis_required "INSERT INTO t VALUES ( 1 )").
  - by vm_compute.
  - by right.
Defined.

End open_parenthesis.


Section select_shape.
Import QueryParser.

Lemma at_app_r {A} (l1 l2 : list A) i :
  at_ (l1 ++ l2) (length l1 + i) = at_ l2 i.
Proof.
  unfold at_. rewrite lookup_app_r by lia.
  by replace (length l1 + i - length l1) with i by lia.
Qed.

Lemma find_keyword_absent kw rest i :
  Forall (λ t, toLower t ≠ kw) rest → find_keyword kw rest i = 0.
Proof.
  intros Hrest. revert i.
  induction Hrest as [|t rest Ht _ IH]; intros i; simpl; [done|].
  by rewrite bool_decide_eq_false_2.
Qed.

Lemma find_keyword_found kw pre t rest i :
  Forall (λ t, toLower t ≠ kw) pre → toLower t = kw →
  find_keyword kw (pre ++ t :: rest) i = i + length pre.
Proof.
  intros Hpre Ht. revert i.
  induction Hpre as [|t' pre Ht' _ IH]; intros i; simpl.
  - rewrite bool_decide_eq_true_2 by done. lia.
  - rewrite bool_decide_eq_false_2 by done. rewrite IH. lia.
Qed.

(** The tokens of a SELECT up to the table name. *)
Lemma parseSelect_head kw proj from name tail query :
  Forall (λ t, toLower t ≠ "from") proj → toLower from = "from" →
  proj ≠ [] ∨ tail ≠ [] →
  parseSelect (kw :: proj ++ from :: name :: tail) query
  = wc ←
      (if bool_decide
            (0 < find_keyword "where" tail
                   (length (kw :: proj ++ [from; name])))
          && bool_decide
               (find_keyword "where" tail
                  (length (kw :: proj ++ [from; name])) + 3
                < length ((kw :: proj ++ [from; name]) ++ tail))
       then
         c ← at_ ((kw :: proj ++ [from; name]) ++ tail)
                 (find_keyword "where" tail
                    (length (kw :: proj ++ [from; name])) + 1);
         o ← at_ ((kw :: proj ++ [from; name]) ++ tail)
                 (find_keyword "where" tail
                    (length (kw :: proj ++ [from; name])) + 2);
         v ← at_ ((kw :: proj ++ [from; name]) ++ tail)
                 (find_keyword "where" tail
                    (length (kw :: proj ++ [from; name])) + 3);
         mret (c +:+ " " +:+ o +:+ " " +:+ v)
       else mret (where_clause query));
    mret {| query_type := query_type query; table_name := name;
            columns := columns query;
            selected_columns := parse_selected proj (selected_columns query);
            values := values query; where_clause := wc |}.
Proof.
  intros Hproj Hfrom Hlen.
  assert (kw :: proj ++ from :: name :: tail
          = (kw :: proj ++ [from; name]) ++ tail) as Htokens.
  { simpl. by rewrite <- app_assoc. }
  unfold parseSelect.
  rewrite bool_decide_eq_false_2.
  2: { simpl. rewrite length_app. simpl.
       destruct Hlen as [Hlen|Hlen]; [destruct proj|destruct tail];
         simpl; try done; lia. }
  replace (drop 1 (kw :: proj ++ from :: name :: tail))
    with (proj ++ from :: name :: tail) by (simpl; by rewrite drop_0).
  rewrite find_keyword_found by done.
  rewrite bool_decide_eq_false_2 by lia.
  replace (1 + length proj - 1) with (length proj) by lia.
  rewrite take_app_length.
  rewrite bool_decide_eq_false_2
    by (simpl; rewrite length_app; simpl; lia).
  assert (at_ (kw :: proj ++ from :: name :: tail) (1 + length proj + 1)
          = Ok name) as ->.
  { apply at_Ok.
    replace (kw :: proj ++ from :: name :: tail)
      with ((kw :: proj ++ [from]) ++ name :: tail)
      by (simpl; by rewrite <- app_assoc).
    replace (1 + length proj + 1) with (length (kw :: proj ++ [from]))
      by (simpl; rewrite length_app; simpl; lia).
    apply list_lookup_middle; done. }
  cbn [mbind result_bind].
  replace (drop (1 + length proj + 2) (kw :: proj ++ from :: name :: tail))
    with tail.
  2: { rewrite Htokens.
       replace (1 + length proj + 2)
         with (length (kw :: proj ++ [from; name]))
         by (simpl; rewrite length_app; simpl; lia).
       by rewrite drop_app_length. }
  replace (1 + length proj + 2) with (length (kw :: proj ++ [from; name]))
    by (simpl; rewrite length_app; simpl; lia).
  by rewrite Htokens.
Qed.

Lemma where_clause_found (head pre : list string) w rest default :
  head ≠ [] →
  Forall (λ t, toLower t ≠ "where") pre → toLower w = "where" →
  (if bool_decide
        (0 < find_keyword "where" (pre ++ w :: rest) (length head))
      && bool_decide
           (find_keyword "where" (pre ++ w :: rest) (length head) + 3
            < length (head ++ pre ++ w :: rest))
   then
     c ← at_ (head ++ pre ++ w :: rest)
             (find_keyword "where" (pre ++ w :: rest) (length head) + 1);
     o ← at_ (head ++ pre ++ w :: rest)
             (find_keyword "where" (pre ++ w :: rest) (length head) + 2);
     v ← at_ (head ++ pre ++ w :: rest)
             (find_keyword "where" (pre ++ w :: rest) (length head) + 3);
     mret (c +:+ " " +:+ o +:+ " " +:+ v)
   else mret default)
  = Ok (condition_after default rest).
Proof.
  intros Hhead Hpre Hw.
  rewrite find_keyword_found by done.
  rewrite bool_decide_eq_true_2 by (destruct head; simpl; [done|lia]).
  rewrite (app_assoc head pre).
  replace (length head + length pre) with (length (head ++ pre))
    by by rewrite length_app.
  replace (w :: rest) with ([w] ++ rest) by done.
  rewrite (app_assoc (head ++ pre) [w]).
  replace (length (head ++ pre) + 1) with (length ((head ++ pre) ++ [w]) + 0)
    by (rewrite (length_app _ [w]); simpl; lia).
  replace (length (head ++ pre) + 2) with (length ((head ++ pre) ++ [w]) + 1)
    by (rewrite (length_app _ [w]); simpl; lia).
  replace (length (head ++ pre) + 3) with (length ((head ++ pre) ++ [w]) + 2)
    by (rewrite (length_app _ [w]); simpl; lia).
  rewrite !at_app_r.
  rewrite (length_app _ rest), (length_app _ [w]). simpl.
  destruct rest as [|c [|o [|v extra]]]; simpl;
    try (rewrite bool_decide_eq_false_2 by lia; done).
  by rewrite bool_decide_eq_true_2 by lia.
Qed.

(** X7: [parseSelect] on SELECT projection FROM name followed by more
    tokens. The projection is its tokens other than commas, or every column
    as soon as one of them is a star. With a WHERE among the later tokens,
    the condition is the three tokens after the first one, joined by single
    spaces: what follows them is ignored, and so is a WHERE with fewer than
    three tokens behind it. Without a WHERE the later tokens are ignored
    altogether. *)
Theorem parseSelect_shape kw proj from name tail query :
  Forall (λ t, toLower t ≠ "from") proj → toLower from = "from" →
  proj ≠ [] ∨ tail ≠ [] →
  let parsed wc :=
    {| query_type := query_type query; table_name := name;
       columns := columns query;
       selected_columns :=
         if bool_decide ("*" ∈ proj) then []
         else selected_columns query ++ filter (λ t, t ≠ ",") proj;
       values := values query; where_clause := wc |} in
  (Forall (λ t, toLower t ≠ "where") tail →
   parseSelect (kw :: proj ++ from :: name :: tail) query
   = Ok (parsed (where_clause query)))
  ∧ (∀ pre w rest,
       tail = pre ++ w :: rest →
       Forall (λ t, toLower t ≠ "where") pre → toLower w = "where" →
       parseSelect (kw :: proj ++ from :: name :: tail) query
       = Ok (parsed (condition_after (where_clause query) rest))).
Proof.
  intros Hproj Hfrom Hlen parsed. split.
  - intros Htail. rewrite parseSelect_head by done.
    rewrite find_keyword_absent by done.
    rewrite bool_decide_eq_false_2 by lia. simpl.
    by rewrite parse_selected_filter.
  - intros pre w rest -> Hpre Hw. rewrite parseSelect_head by done.
    rewrite where_clause_found by done. simpl.
    by rewrite parse_selected_filter.
Qed.

Lemma parseSelect_shape_witness :
  parseSelect ["select"; "a"; ","; "b"; "FROM"; "t"; "where"; "a"; ">"; "1";
               "and"; "b"; "<"; "2"] new_ParsedQuery
  = Ok {| query_type := UNKNOWN; table_name := "t"; columns := [];
          selected_columns := ["a"; "b"]; values := [];
          where_clause := "a > 1" |}.
Proof.
  apply (proj2 (parseSelect_shape "select" ["a"; ","; "b"] "FROM" "t"
                  ["where"; "a"; ">"; "1"; "and"; "b"; "<"; "2"]
                  new_ParsedQuery
                  ltac:(by repeat constructor) eq_refl
                  ltac:(by left))
               [] "where" ["a"; ">"; "1"; "and"; "b"; "<"; "2"]);
    [done|constructor|done].
Defined.

End select_shape.


Section create_shape.
Import QueryParser.

Lemma parse_columns_decls decls rest cols :
  Forall (λ d, plain_token d.1 ∧ plain_token d.2) decls →
  parse_columns (column_tokens decls ++ rest) cols
  = parse_columns rest
      (cols ++ ((λ d, mkColumn d.1 (toLower d.2)) <$> decls)).
Proof.
  intros Hdecls. revert cols.
  induction Hdecls as [|d decls [[Hn1 Hn2] [Ht1 Ht2]] Hdecls IH]; intros cols.
  { simpl. by rewrite app_nil_r. }
  assert (∀ more,
    parse_columns (d.1 :: d.2 :: more) cols
    = parse_columns more (cols ++ [mkColumn d.1 (toLower d.2)])) as Hpair.
  { intros more. simpl.
    rewrite (bool_decide_eq_false_2 (d.1 = ")")) by done.
    rewrite (bool_decide_eq_false_2 (d.1 = ",")) by done.
    rewrite (bool_decide_eq_true_2 (d.2 ≠ ",")) by done.
    by rewrite (bool_decide_eq_true_2 (d.2 ≠ ")")) by done. }
  destruct decls as [|d' decls].
  - cbn [column_tokens app fmap list_fmap]. by rewrite Hpair.
  - change (column_tokens (d :: d' :: decls))
      with (d.1 :: d.2 :: "," :: column_tokens (d' :: decls)).
    cbn [app]. rewrite Hpair. cbn [parse_columns].
    rewrite (bool_decide_eq_false_2 ("," = ")")) by done.
    rewrite (bool_decide_eq_true_2 ("," = ",")) by done.
    rewrite IH. rewrite fmap_cons. by rewrite <- app_assoc.
Qed.

(** X8: [parseCreateTable] on CREATE TABLE name ( declarations ), the
    declarations being name and type pairs with commas between them and the
    close parenthesis optional: the columns are the declarations in order,
    each type in lower case. A last name without a type is dropped without
    a message. *)
Theorem parseCreateTable_shape kw kw2 name decls query :
  Forall (λ d, plain_token d.1 ∧ plain_token d.2) decls →
  let parsed :=
    {| query_type := query_type query; table_name := name;
       columns := columns query
                  ++ ((λ d, mkColumn d.1 (toLower d.2)) <$> decls);
       selected_columns := selected_columns query;
       values := values query; where_clause := where_clause query |} in
  (∀ rest,
     rest = [] ∨ (∃ junk, rest = ")" :: junk) →
     parseCreateTable
       (kw :: kw2 :: name :: "(" :: column_tokens decls ++ rest) query
     = Ok parsed)
  ∧ (∀ lone junk,
       plain_token lone →
       parseCreateTable
         (kw :: kw2 :: name :: "("
             :: column_tokens decls ++ "," :: lone :: ")" :: junk) query
       = Ok parsed).
Proof.
  intros Hdecls parsed.
  assert (∀ rest,
    parseCreateTable
      (kw :: kw2 :: name :: "(" :: column_tokens decls ++ rest) query
    = Ok {| query_type := query_type query; table_name := name;
            columns :=
              parse_columns rest
                (columns query
                 ++ ((λ d, mkColumn d.1 (toLower d.2)) <$> decls));
            selected_columns := selected_columns query;
            values := values query; where_clause := where_clause query |})
    as Hhead.
  { intros rest. unfold parseCreateTable.
    rewrite bool_decide_eq_false_2 by (simpl; lia). simpl.
    by rewrite drop_0, parse_columns_decls. }
  split.
  - intros rest Hrest. rewrite Hhead.
    by destruct Hrest as [-> | [junk ->]].
  - intros lone junk [Hl1 Hl2]. rewrite Hhead. simpl.
    rewrite (bool_decide_eq_false_2 (lone = ")")) by done.
    by rewrite (bool_decide_eq_false_2 (lone = ",")) by done.
Qed.

Lemma parseCreateTable_shape_witness :
  parseCreateTable
    ["create"; "table"; "t"; "("; "id"; "INT"; ","; "name"; "String"; ","; 
     "age"; ")"] new_ParsedQuery
  = Ok {| query_type := UNKNOWN; table_name := "t";
          columns := [mkColumn "id" "int"; mkColumn "name" "string"];
          selected_columns := []; values := [];
          where_clause := EmptyString |}.
Proof.
  apply (proj2 (parseCreateTable_shape "create" "table" "t"
                  [("id", "INT"); ("name", "String")] new_ParsedQuery
                  ltac:(by repeat constructor))
               "age" []).
  by split.
Defined.

End create_shape.

Section unrecognised_statements.
Context `{F64 : Float64}.
Import QueryParser DatabaseEngine.

Ltac not_keyword :=
  let Hin := fresh "Hin" in
  intros Hin;
  repeat (apply elem_of_cons in Hin as [Hin|Hin]; [congruence|]);
  by apply elem_of_nil in Hin.

Lemma parse_unrecognised query :
  unrecognised (tokenize query) → parse query = Ok new_ParsedQuery.
Proof.
  unfold parse, unrecognised.
  destruct (tokenize query) as [|t0 tokens]; [done|].
  cbv zeta. intros (Hnot & Htable & Htables).
  case_bool_decide as Hcreate; [by rewrite Htable by auto|].
  case_bool_decide as Hinsert.
  { destruct Hnot. rewrite Hinsert. set_solver. }
  case_bool_decide as Hselect.
  { destruct Hnot. rewrite Hselect. set_solver. }
  case_bool_decide as Hdrop; [by rewrite Htable by auto|].
  case_bool_decide as Hshow; [by rewrite Htables|].
  case_bool_decide as Hdescribe.
  { destruct Hnot. rewrite Hdescribe. set_solver. }
  case_bool_decide as Hdesc; [|done].
  destruct Hnot. rewrite Hdesc. set_solver.
Qed.

Lemma parse_unknown query pq :
  parse query = Ok pq → query_type pq = UNKNOWN →
  unrecognised (tokenize query).
Proof.
  unfold parse, unrecognised.
  destruct (tokenize query) as [|t0 tokens]; [done|].
  cbv zeta. intros Hparse Hty.
  destruct (decide (toLower t0 = "create")) as [Hcreate|Hcreate].
  { rewrite bool_decide_eq_true_2 in Hparse by done.
    destruct (second_is "table" (t0 :: tokens)).
    { apply parseCreateTable_type in Hparse. simpl in Hparse. congruence. }
    rewrite Hcreate. split; [not_keyword|]. by split. }
  rewrite (bool_decide_eq_false_2 _ Hcreate) in Hparse.
  destruct (decide (toLower t0 = "insert")) as [Hinsert|Hinsert].
  { rewrite bool_decide_eq_true_2 in Hparse by done.
    apply parseInsert_type in Hparse. simpl in Hparse. congruence. }
  rewrite (bool_decide_eq_false_2 _ Hinsert) in Hparse.
  destruct (decide (toLower t0 = "select")) as [Hselect|Hselect].
  { rewrite bool_decide_eq_true_2 in Hparse by done.
    apply parseSelect_type in Hparse. simpl in Hparse. congruence. }
  rewrite (bool_decide_eq_false_2 _ Hselect) in Hparse.
  destruct (decide (toLower t0 = "drop")) as [Hdrop|Hdrop].
  { rewrite bool_decide_eq_true_2 in Hparse by done.
    destruct (second_is "table" (t0 :: tokens)).
    { apply parseDropTable_type in Hparse. simpl in Hparse. congruence. }
    rewrite Hdrop. split; [not_keyword|]. by split. }
  rewrite (bool_decide_eq_false_2 _ Hdrop) in Hparse.
  destruct (decide (toLower t0 = "show")) as [Hshow|Hshow].
  { rewrite bool_decide_eq_true_2 in Hparse by done.
    destruct (second_is "tables" (t0 :: tokens)).
    { injection Hparse as <-. done. }
    rewrite Hshow. split; [not_keyword|]. split; [|done].
    by intros [|]. }
  rewrite (bool_decide_eq_false_2 _ Hshow) in Hparse.
  destruct (decide (toLower t0 = "describe")) as [Hdescribe|Hdescribe].
  { rewrite bool_decide_eq_true_2 in Hparse by done.
    apply parseDescribe_type in Hparse. simpl in Hparse. congruence. }
  rewrite (bool_decide_eq_false_2 _ Hdescribe) in Hparse.
  destruct (decide (toLower t0 = "desc")) as [Hdesc|Hdesc].
  { rewrite bool_decide_eq_true_2 in Hparse by done.
    apply parseDescribe_type in Hparse. simpl in Hparse. congruence. }
  split; [not_keyword|]. split; [by intros [|]|done].
Qed.

Lemma report_changes e (st : DatabaseEngine.t) : report e st ≠ st.
Proof.
  intros Heq%(f_equal (λ st, length (cerr st))).
  unfold report in Heq. simpl in Heq. rewrite length_app in Heq.
  simpl in Heq. lia.
Qed.

Lemma print_changes lines (st st' : DatabaseEngine.t) :
  cout st' = cout st → print lines st' = st → lines = [].
Proof.
  intros Hcout Heq%(f_equal (λ st, length (cout st))).
  unfold print in Heq. simpl in Heq. rewrite length_app, Hcout in Heq.
  destruct lines; [done|]. simpl in Heq. lia.
Qed.

Lemma printRows_lines tbl row_indices selected_columns lines :
  Table.printRows tbl row_indices selected_columns = Ok lines → lines ≠ [].
Proof.
  unfold Table.printRows.
  intros (headers & _ & (widths & _ & (body & _ & [= <-])%mbind_Ok)
            %mbind_Ok)%mbind_Ok.
  done.
Qed.

Lemma select_lines_nonempty tbl pq lines :
  select_lines tbl pq = Ok lines → lines ≠ [].
Proof.
  unfold select_lines. intros (row_indices & _ & Hlines)%mbind_Ok.
  by apply printRows_lines in Hlines.
Qed.

(** X9: a statement runs without writing a line and without touching the
    engine exactly when [parse] leaves it of unknown kind: an empty
    statement, one whose first word is no statement keyword, CREATE or DROP
    not followed by TABLE, SHOW not followed by TABLES. Every other
    statement writes at least one line to the standard output and none to
    the standard error, or exactly one line to the standard error, none to
    the standard output, and leaves the tables alone; the one exception is
    a SELECT that reads a row out of range, which well-formed tables
    exclude. *)
Theorem silent_iff_unrecognised query (st : DatabaseEngine.t) :
  (executeQuery query st = (st, Ok ()) ↔ unrecognised (tokenize query))
  ∧ (¬ unrecognised (tokenize query) →
     (executeQuery query st).2 = Undefined
     ∨ (∃ lines, lines ≠ []
          ∧ cout (executeQuery query st).1 = cout st ++ lines
          ∧ cerr (executeQuery query st).1 = cerr st)
     ∨ (∃ line, cerr (executeQuery query st).1 = cerr st ++ [line]
          ∧ cout (executeQuery query st).1 = cout st
          ∧ tables (executeQuery query st).1 = tables st))
  ∧ (Engine_wf st → (executeQuery query st).2 = Ok ()).
Proof.
  split_and!.
  - split.
    + intros Hrun. pose proof (executeQuery_outcome query st) as Hout.
      rewrite Hrun in Hout. simpl in Hout.
      inversion Hout as
        [ e ? Hst | pq Hp Hty | pq ? ? ? Hst | pq tbl ? ? ? ? ? ? Hst
        | pq ? ? ? Hst | pq tbl row ? ? ? ? ? Hst | pq tbl e ? ? ? ? Hst
        | pq ? ? ? Hst | pq tbl lines ? ? ? Hlines Hst
        | pq tbl e ? ? ? ? Hst
        | | pq ? ? ? Hst | pq ? ? ? Hst | pq ? ? Hst | pq ? ? ? Hst
        | pq tbl ? ? ? Hst ];
        try (by apply report_changes in Hst);
        try (by apply print_changes in Hst);
        try (by eapply parse_unknown).
      apply print_changes in Hst; [|done]. subst lines.
      by apply select_lines_nonempty in Hlines.
    + intros Hun. unfold executeQuery, dispatch, mbind, M_bind, bind, lift.
      by rewrite parse_unrecognised.
  - intros Hkind. pose proof (executeQuery_outcome query st) as Hout.
    destruct (executeQuery query st) as [st' r]. simpl in *.
    destruct Hout
      as [ e | pq Hp Hty | pq | pq tbl | pq | pq tbl row | pq tbl e
         | pq | pq tbl lines ? ? ? Hlines | pq tbl e | pq tbl | pq | pq
         | pq | pq | pq tbl ];
      unfold report, print, with_tables; cbn [cout cerr tables];
      try (by right; right; eexists);
      try (right; left;
           refine (ex_intro _ _ (conj _ (conj eq_refl eq_refl))); done);
      try (by left).
    + destruct Hkind. by eapply parse_unknown.
    + right. left. exists lines. split_and!; [|done..].
      by eapply select_lines_nonempty.
  - intros Hwf. pose proof (executeQuery_outcome query st) as Hout.
    destruct (executeQuery query st) as [st' r]. simpl in *.
    destruct Hout as [| | | | | | | | | | pq tbl ? ? Htbl Hlines | | | | |];
      try done.
    exfalso. eapply select_lines_defined; [|done].
    by eapply (Hwf (table_name pq)).
Qed.

End unrecognised_statements.

Section unrecognised_statements_instances.
Local Existing Instance ExactDecimal.float64.
Import QueryParser DatabaseEngine.

Lemma silent_iff_unrecognised_witness :
  executeQuery "CREATE INDEX i" new = (new, Ok ())
  ∧ ((executeQuery "SHOW TABLES" new).2 = Undefined
     ∨ (∃ lines, lines ≠ []
          ∧ cout (executeQuery "SHOW TABLES" new).1 = cout new ++ lines
          ∧ cerr (executeQuery "SHOW TABLES" new).1 = cerr new)
     ∨ (∃ line, cerr (executeQuery "SHOW TABLES" new).1 = cerr new ++ [line]
          ∧ cout (executeQuery "SHOW TABLES" new).1 = cout new
          ∧ tables (executeQuery "SHOW TABLES" new).1 = tables new))
  ∧ (executeQuery "SELECT * FROM t" new).2 = Ok ().
Proof.
  split_and!.
  - apply (proj1 (silent_iff_unrecognised "CREATE INDEX i" new)).
    split; [|by split]. intros Hin.
    repeat (apply elem_of_cons in Hin as [Hin|Hin]; [done|]).
    by apply elem_of_nil in Hin.
  - apply (proj1 (proj2 (silent_iff_unrecognised "SHOW TABLES" new))).
    intros (_ & _ & Hshow). by specialize (Hshow eq_refl).
  - apply (proj2 (proj2 (silent_iff_unrecognised "SELECT * FROM t" new))).
    apply map_Forall_empty.
Defined.

End unrecognised_statements_instances.


Section engine_history.
Context `{F64 : Float64}.
Import QueryParser DatabaseEngine.

(** X10: no statement rewrites what a table holds. A table registered before
    a statement runs is afterwards either registered with the same columns,
    the same name index and the same rows, followed by at most one new row,
    or gone, and then the statement was a DROP TABLE of that very name. *)
Theorem executeQuery_append_only query st name tbl :
  tables st !! name = Some tbl →
  match tables (executeQuery query st).1 !! name with
  | Some tbl' =>
      Table.columns tbl' = Table.columns tbl
      ∧ Table.column_index_map tbl' = Table.column_index_map tbl
      ∧ (Table.rows tbl' = Table.rows tbl
         ∨ ∃ row, Table.rows tbl' = Table.rows tbl ++ [row])
  | None =>
      ∃ pq, parse query = Ok pq ∧ query_type pq = DROP_TABLE
            ∧ table_name pq = name
  end.
Proof.
  intros Htbl. pose proof (executeQuery_outcome query st) as Hout.
  destruct (executeQuery query st) as [st' r]. simpl in *.
  inversion Hout as
    [ e | pq | pq | pq tbl0 ? ? Hnone | pq | pq tbl0 row ? ? Hsome | pq tbl0 e
    | pq | pq tbl0 lines | pq tbl0 e | | pq | pq Hp Hty Hsome | pq | pq
    | pq tbl0 ]; subst; simpl;
    try (rewrite Htbl; by auto).
  - destruct (decide (table_name pq = name)) as [<-|Hne]; [congruence|].
    rewrite lookup_insert_ne by done. rewrite Htbl. by auto.
  - destruct (decide (table_name pq = name)) as [<-|Hne].
    + rewrite lookup_insert_eq. simpl.
      replace tbl0 with tbl by congruence. by eauto.
    + rewrite lookup_insert_ne by done. rewrite Htbl. by auto.
  - destruct (decide (table_name pq = name)) as [<-|Hne].
    + rewrite lookup_delete_eq. by eauto.
    + rewrite lookup_delete_ne by done. rewrite Htbl. by auto.
Qed.

(** X11: [createTable] followed by [dropTable] of the same fresh name gives
    back the engine as it was; a second [createTable] of a name throws
    "already exists" and leaves the table of the first one in place. *)
Theorem createTable_dropTable table_name (st : DatabaseEngine.t) :
  hasTable st table_name = false →
  (createTable table_name;; dropTable table_name) st = (st, Ok ())
  ∧ (createTable table_name;; createTable table_name) st
    = ((createTable table_name st).1,
       Throw (runtime_error
                ("Table '" +:+ table_name +:+ "' already exists"))).
Proof.
  intros Hfresh.
  assert (tables st !! table_name = None) as Hnone.
  { unfold hasTable in Hfresh. apply bool_decide_eq_false in Hfresh.
    by apply eq_None_not_Some. }
  unfold createTable, dropTable, mbind, M_bind, bind, set_tables, throw.
  rewrite Hfresh. unfold hasTable. simpl.
  rewrite !bool_decide_eq_true_2 by (by rewrite lookup_insert_eq).
  simpl. split; [|done].
  rewrite delete_insert_id by done. by destruct st.
Qed.

End engine_history.

Section engine_history_instances.
Local Existing Instance ExactDecimal.float64.
Import QueryParser DatabaseEngine.

Lemma executeQuery_append_only_witness :
  match
    tables (executeQuery "INSERT INTO users VALUES ( 31 )"
              (mk {[ "users" := users_ages ]} [] [])).1 !! "users"
  with
  | Some tbl' =>
      Table.columns tbl' = Table.columns users_ages
      ∧ Table.column_index_map tbl' = Table.column_index_map users_ages
      ∧ (Table.rows tbl' = Table.rows users_ages
         ∨ ∃ row, Table.rows tbl' = Table.rows users_ages ++ [row])
  | None =>
      ∃ pq, parse "INSERT INTO users VALUES ( 31 )" = Ok pq
            ∧ query_type pq = DROP_TABLE ∧ table_name pq = "users"
  end.
Proof.
  apply (executeQuery_append_only "INSERT INTO users VALUES ( 31 )"
           (mk {[ "users" := users_ages ]} [] []) "users" users_ages).
  apply lookup_singleton_eq.
Defined.

Lemma createTable_dropTable_witness :
  (createTable "t";; dropTable "t") new = (new, Ok ())
  ∧ (createTable "t";; createTable "t") new
    = ((createTable "t" new).1,
       Throw (runtime_error ("Table '" +:+ "t" +:+ "' already exists"))).
Proof. apply (createTable_dropTable "t" new). reflexivity. Defined.

End engine_history_instances.


Section selection.
Context `{F64 : Float64}.
Import Table.

Lemma evaluateCondition_empty tbl row where_clause :
  empty where_clause = true →
  evaluateCondition tbl row where_clause = Ok true.
Proof. by destruct where_clause. Qed.

Lemma select_loop_Ok tbl where_clause rest i res idx :
  select_loop tbl where_clause rest i res = Ok idx →
  ∃ more,
    idx = res ++ more ∧ StronglySorted lt more ∧ Forall (λ j, i ≤ j) more
    ∧ ∀ j, j ∈ more ↔
           i ≤ j ∧ ∃ row, rest !! (j - i) = Some row
                          ∧ evaluateCondition tbl row where_clause = Ok true.
Proof.
  revert i res. induction rest as [|row rest IH]; intros i res; simpl.
  { intros [= <-]. exists []. rewrite app_nil_r.
    split_and!; [done|constructor|constructor|].
    intros j. split; [by intros ?%elem_of_nil|by intros (_ & ? & ? & _)]. }
  intros (keep & Hkeep & Hloop)%mbind_Ok.
  assert (evaluateCondition tbl row where_clause = Ok keep) as Hrow.
  { destruct (empty where_clause) eqn:Hempty; [|done].
    injection Hkeep as <-. by apply evaluateCondition_empty. }
  apply IH in Hloop as (more & -> & Hsorted & Hlower & Hmore).
  assert (∀ j, S i ≤ j → j - i = S (j - S i)) as Hshift by (intros; lia).
  destruct keep.
  - exists (i :: more). rewrite <- app_assoc. split_and!; [done| | |].
    + constructor; [done|]. eapply Forall_impl; [done|]. simpl. lia.
    + constructor; [done|]. eapply Forall_impl; [done|]. simpl. lia.
    + intros j. rewrite elem_of_cons, Hmore. split.
      * intros [->|(Hj & row' & Hrow' & Heval)].
        -- split; [done|]. exists row. by rewrite Nat.sub_diag.
        -- split; [lia|]. exists row'. by rewrite Hshift.
      * intros (Hj & row' & Hrow' & Heval).
        destruct (decide (j = i)) as [->|Hne]; [by left|]. right.
        split; [lia|]. exists row'. by rewrite Hshift in Hrow' by lia.
  - exists more. split_and!; [done|done| |].
    + eapply Forall_impl; [done|]. simpl. lia.
    + intros j. rewrite Hmore. split.
      * intros (Hj & row' & Hrow' & Heval).
        split; [lia|]. exists row'. by rewrite Hshift.
      * intros (Hj & row' & Hrow' & Heval).
        destruct (decide (j = i)) as [->|Hne].
        { rewrite Nat.sub_diag in Hrow'. simpl in Hrow'. congruence. }
        split; [lia|]. exists row'. by rewrite Hshift in Hrow' by lia.
Qed.

Lemma select_loop_Throw tbl where_clause rest i res e :
  select_loop tbl where_clause rest i res = Throw e →
  ∃ row, row ∈ rest ∧ evaluateCondition tbl row where_clause = Throw e.
Proof.
  revert i res. induction rest as [|row rest IH]; intros i res; simpl; [done|].
  destruct (empty where_clause) eqn:Hempty; simpl.
  - intros (row' & Hin & Heval)%IH. exists row'.
    split; [by apply list_elem_of_further|done].
  - destruct (evaluateCondition tbl row where_clause) as [keep|e'|] eqn:Hrow;
      simpl; [|intros [= <-]|done].
    + intros (row' & Hin & Heval)%IH. exists row'.
      split; [by apply list_elem_of_further|done].
    + exists row. split; [apply list_elem_of_here|done].
Qed.

(** X12: the indices [selectRows] returns are in ascending order without
    repetition, and are exactly the positions of the rows of which the
    condition holds; when it throws, the exception is that of the condition
    on one of the rows. *)
Theorem selectRows_characterised tbl where_clause :
  (∀ row_indices,
     selectRows tbl where_clause = Ok row_indices →
     StronglySorted lt row_indices
     ∧ ∀ i, i ∈ row_indices ↔
            ∃ row, rows tbl !! i = Some row
                   ∧ evaluateCondition tbl row where_clause = Ok true)
  ∧ (∀ e,
       selectRows tbl where_clause = Throw e →
       ∃ row, row ∈ rows tbl
              ∧ evaluateCondition tbl row where_clause = Throw e).
Proof.
  split.
  - intros row_indices (more & -> & Hsorted & _ & Hmore)%select_loop_Ok.
    split; [done|]. intros i. rewrite app_nil_l, Hmore, Nat.sub_0_r.
    split; [by intros [_ ?]|]. intros ?. split; [lia|done].
  - intros e. apply select_loop_Throw.
Qed.

End selection.

Section selection_instances.
Local Existing Instance ExactDecimal.float64.
Import Table.

Lemma selectRows_characterised_witness :
  StronglySorted lt [0]
  ∧ ∀ i, i ∈ [0] ↔
         ∃ row, rows users_ages !! i = Some row
                ∧ evaluateCondition users_ages row "age > 26" = Ok true.
Proof.
  apply (proj1 (selectRows_characterised users_ages "age > 26") [0]).
  reflexivity.
Defined.

End selection_instances.


Section layout.
Context `{F64 : Float64}.
Import Table.

Lemma length_fill n c : String.length (fill n c) = n.
Proof. induction n as [|n IH]; simpl; [done|]. by rewrite IH. Qed.

Lemma length_setw_left w s :
  String.length s ≤ w → String.length (setw_left w s) = w.
Proof.
  intros Hs. unfold setw_left. rewrite length_append, length_fill. lia.
Qed.

Lemma length_padded_cell w s :
  String.length s ≤ w →
  String.length (" " +:+ setw_left w s +:+ " |") = w + 3.
Proof.
  intros Hs. rewrite !length_append, length_setw_left by done. simpl. lia.
Qed.

Lemma length_rule widths :
  String.length (rule widths) = 1 + sum_list_with (λ w, w + 3) widths.
Proof.
  unfold rule. rewrite length_append.
  change (String.length "+") with 1. f_equal.
  induction widths as [|w widths IH]; [done|].
  rewrite fmap_cons. cbn [sconcat sum_list_with].
  rewrite !length_append, length_fill, IH. simpl. lia.
Qed.

Lemma max_width_loop_fits tbl col_idx row_indices max_width w :
  max_width_loop tbl col_idx row_indices max_width = Ok w →
  max_width ≤ w
  ∧ ∀ row_idx value_str,
      row_idx ∈ row_indices → row_idx < length (rows tbl) →
      cell tbl row_idx col_idx = Ok value_str →
      String.length value_str ≤ w.
Proof.
  revert max_width.
  induction row_indices as [|row_idx rest IH]; intros max_width; simpl.
  { intros [= <-]. split; [done|]. by intros ? ? ?%elem_of_nil. }
  case_bool_decide as Hrow.
  - intros (value_str & Hcell & [Hmax Hrest]%IH)%mbind_Ok.
    split; [lia|]. intros row_idx' value_str' [->|Hin]%elem_of_cons ? Hcell'.
    + replace value_str' with value_str by congruence. lia.
    + by eapply Hrest.
  - intros [Hmax Hrest]%IH. split; [done|].
    intros row_idx' value_str' [->|Hin]%elem_of_cons ? Hcell'; [done|].
    by eapply Hrest.
Qed.

Lemma widths_of_fits tbl row_indices headers widths :
  widths_of tbl row_indices headers = Ok widths →
  Forall2 (fits tbl row_indices) widths headers.
Proof.
  revert widths.
  induction headers as [|[col_idx header] headers IH]; intros widths; simpl.
  { intros [= <-]. constructor. }
  intros (w & [Hheader Hcells]%max_width_loop_fits
            & (ws & Hws%IH & [= <-])%mbind_Ok)%mbind_Ok.
  constructor; [|done]. split; simpl; [lia|].
  intros row_idx value_str Hin Hrow Hcell.
  specialize (Hcells row_idx value_str Hin Hrow Hcell). lia.
Qed.

Lemma length_header_line tbl row_indices widths headers :
  Forall2 (fits tbl row_indices) widths headers →
  String.length (header_line widths headers)
  = 1 + sum_list_with (λ w, w + 3) widths.
Proof.
  intros Hfits. unfold header_line. rewrite length_append.
  change (String.length "|") with 1. f_equal.
  induction Hfits as [|w h widths headers [Hh _] _ IH]; [done|].
  cbn [zip_with sconcat sum_list_with].
  by rewrite length_append, length_padded_cell, IH.
Qed.

Lemma length_row_cells tbl row_indices row_idx widths headers cells :
  Forall2 (fits tbl row_indices) widths headers →
  row_idx ∈ row_indices → row_idx < length (rows tbl) →
  row_cells tbl row_idx widths headers = Ok cells →
  String.length (sconcat cells) = sum_list_with (λ w, w + 3) widths.
Proof.
  intros Hfits Hin Hrow. revert cells.
  induction Hfits as [|w [col_idx header] widths headers [_ Hh] _ IH];
    intros cells; simpl.
  { by intros [= <-]. }
  intros (value_str & Hcell & (cs & Hcs%IH & [= <-])%mbind_Ok)%mbind_Ok.
  cbn [sconcat sum_list_with].
  rewrite length_append, length_padded_cell, Hcs; [done|].
  by eapply Hh.
Qed.

Lemma row_lines_layout tbl row_indices widths headers rest body :
  Forall2 (fits tbl row_indices) widths headers →
  rest ⊆ row_indices →
  row_lines tbl widths headers rest = Ok body →
  length body = length (printed tbl rest)
  ∧ Forall (λ line, String.length line
                    = 1 + sum_list_with (λ w, w + 3) widths) body.
Proof.
  intros Hfits. revert body.
  induction rest as [|row_idx rest IH]; intros body Hsub; simpl.
  { by intros [= <-]. }
  assert (rest ⊆ row_indices) as Hrest.
  { intros x Hx. by apply Hsub, list_elem_of_further. }
  unfold printed. rewrite filter_cons. fold (printed tbl rest).
  case_bool_decide as Hrow.
  - rewrite decide_True by done.
    intros (cs & Hcs & (ls & [Hlen Hls]%IH & [= <-])%mbind_Ok)%mbind_Ok;
      [|done].
    simpl. split; [by rewrite Hlen|]. constructor; [|done].
    rewrite length_append. change (String.length "|") with 1. f_equal.
    eapply length_row_cells; [done| |done..].
    apply Hsub, list_elem_of_here.
  - rewrite decide_False by done. by apply IH.
Qed.

(** X13: what [printRows] writes is a rectangle followed by a count. The
    lines above the last one are all of the same length; they are the three
    lines of the header, one line for each index that is the index of a
    row, and a closing rule. The last line counts the indices asked for,
    also those that are the index of no row. *)
Theorem printRows_layout tbl row_indices selected_columns lines :
  printRows tbl row_indices selected_columns = Ok lines →
  ∃ width box,
    lines = box ++ ["(" +:+ pretty (length row_indices) +:+ " rows)"]
    ∧ length box = 4 + length (printed tbl row_indices)
    ∧ Forall (λ line, String.length line = width) box.
Proof.
  unfold printRows.
  intros (headers & _ & (widths & Hfits%widths_of_fits
            & (body & Hbody & [= <-])%mbind_Ok)%mbind_Ok)%mbind_Ok.
  apply (row_lines_layout _ row_indices) in Hbody as [Hlen Hbody];
    [|done|done].
  exists (1 + sum_list_with (λ w, w + 3) widths),
         ([rule widths; header_line widths headers; rule widths]
          ++ body ++ [rule widths]).
  split_and!.
  - by rewrite <- !app_assoc.
  - rewrite !length_app, Hlen. simpl. lia.
  - repeat first [ apply Forall_app_2 | apply Forall_cons_2
                 | apply Forall_nil_2 ];
      first [ done | apply length_rule | by eapply length_header_line ].
Qed.

End layout.

Section layout_instances.
Local Existing Instance ExactDecimal.float64.
Import Table.

Lemma printRows_layout_witness :
  ∃ width box,
    ["+----------+"; "| age      |"; "+----------+"; "| 30       |";
     "+----------+"; "(2 rows)"]
    = box ++ ["(" +:+ pretty (length [0; 5]) +:+ " rows)"]
    ∧ length box = 4 + length (printed users_ages [0; 5])
    ∧ Forall (λ line, String.length line = width) box.
Proof. apply (printRows_layout users_ages [0; 5] []). reflexivity. Defined.

End layout_instances.


Section projection.
Context `{F64 : Float64}.
Import Table.

Lemma selected_headers_projection tbl selected_columns :
  index_consistent tbl →
  ∃ headers,
    selected_headers tbl selected_columns = Ok headers
    ∧ headers.*2 = filter (λ n, n ∈ name <$> columns tbl) selected_columns
    ∧ Forall (λ h, name <$> columns tbl !! h.1 = Some h.2) headers.
Proof.
  intros Hidx.
  induction selected_columns as [|col_name rest (headers & IH & Hnames & Hcols)];
    simpl.
  { exists []. split_and!; [done|done|constructor]. }
  rewrite filter_cons.
  destruct (hasColumn tbl col_name) eqn:Hhas.
  - rewrite decide_True by (by apply hasColumn_names).
    pose proof Hhas as [i Hi]%bool_decide_eq_true.
    unfold getColumnIndex. rewrite Hi, IH. simpl.
    exists ((i, col_name) :: headers).
    split_and!; [done|by rewrite fmap_cons, Hnames|].
    constructor; [|done]. simpl. by apply Hidx.
  - rewrite decide_False; [by eauto|].
    intros Hin%hasColumn_names; [congruence|done].
Qed.

(** X14: the columns [printRows] shows. Without a projection they are all
    the columns of the table, in order. With one they are the names asked
    for that are names of columns, in the order and as many times as asked;
    the other names are passed over without a message, also when that leaves
    no column at all. Every header stands over a column of its name. *)
Theorem headers_of_projection tbl selected_columns :
  index_consistent tbl →
  ∃ headers,
    headers_of tbl selected_columns = Ok headers
    ∧ headers.*2
      = match selected_columns with
        | [] => name <$> columns tbl
        | _ => filter (λ n, n ∈ name <$> columns tbl) selected_columns
        end
    ∧ Forall (λ h, name <$> columns tbl !! h.1 = Some h.2) headers.
Proof.
  intros Hidx. destruct selected_columns as [|col_name rest].
  - exists (all_headers tbl). unfold all_headers. split_and!; [done| |].
    + apply list_eq. intros i.
      rewrite !list_lookup_fmap, list_lookup_imap.
      by destruct (columns tbl !! i).
    + apply Forall_forall. intros [i h].
      intros (j & col & [= -> ->] & Hcol)%elem_of_lookup_imap.
      simpl. by rewrite Hcol.
  - by apply selected_headers_projection.
Qed.

Lemma widths_of_rows tbl1 tbl2 row_indices headers :
  rows tbl1 = rows tbl2 →
  widths_of tbl1 row_indices headers = widths_of tbl2 row_indices headers.
Proof.
  intros Hrows.
  assert (∀ col_idx max_width,
    max_width_loop tbl1 col_idx row_indices max_width
    = max_width_loop tbl2 col_idx row_indices max_width) as Hloop.
  { intros col_idx.
    induction row_indices as [|row_idx rest IH]; intros max_width; simpl;
      [done|].
    assert (cell tbl1 row_idx col_idx = cell tbl2 row_idx col_idx) as ->.
    { unfold cell. by rewrite Hrows. }
    rewrite Hrows.
    destruct (bool_decide (row_idx < length (rows tbl2))); [|done].
    destruct (cell tbl2 row_idx col_idx); simpl; [|done..]. apply IH. }
  induction headers as [|[col_idx header] headers IH]; simpl; [done|].
  by rewrite Hloop, IH.
Qed.

Lemma widths_of_app tbl row_indices headers1 headers2 :
  widths_of tbl row_indices (headers1 ++ headers2)
  = ws1 ← widths_of tbl row_indices headers1;
    ws2 ← widths_of tbl row_indices headers2;
    mret (ws1 ++ ws2).
Proof.
  induction headers1 as [|[col_idx header] headers1 IH]; simpl.
  { by destruct (widths_of tbl row_indices headers2). }
  destruct (max_width_loop tbl col_idx row_indices (String.length header));
    simpl; [|done..].
  rewrite IH. destruct (widths_of tbl row_indices headers1); simpl; [|done..].
  by destruct (widths_of tbl row_indices headers2).
Qed.

(** X15: [addColumn] appends the column and points its name at it, so that
    the name of an earlier column of the same name now leads to the new one;
    the other names lead where they did. It leaves the rows as they are: on
    a well-formed table that holds a row, every row is afterwards one cell
    short, and [printTable] reads past the end of the first one. *)
Theorem addColumn_rows_untouched column_name type tbl :
  (getColumnIndex (addColumn column_name type tbl) column_name
   ≫= at_ (columns (addColumn column_name type tbl)))
  = Ok (mkColumn column_name type)
  ∧ (∀ other, other ≠ column_name →
       getColumnIndex (addColumn column_name type tbl) other
       = getColumnIndex tbl other)
  ∧ rows (addColumn column_name type tbl) = rows tbl
  ∧ (Table_wf tbl → rows tbl ≠ [] →
     printTable (addColumn column_name type tbl) = Undefined).
Proof.
  split_and!.
  - unfold getColumnIndex, addColumn. simpl. rewrite lookup_insert_eq. simpl.
    apply at_Ok. rewrite length_app, Nat.add_sub.
    by rewrite lookup_app_r, Nat.sub_diag.
  - intros other Hother. unfold getColumnIndex, addColumn. simpl.
    by rewrite lookup_insert_ne.
  - done.
  - intros [Hidx Hlen] Hrows. unfold printTable, selectRows.
    rewrite select_loop_all by done. simpl.
    unfold printRows. simpl. unfold all_headers. simpl.
    rewrite imap_app, widths_of_app.
    rewrite !(widths_of_rows (addColumn column_name type tbl) tbl) by done.
    destruct (widths_of_in_range tbl (seq 0 (length (rows tbl)))
                (imap (λ i col, (i, name col)) (columns tbl)) Hlen
                (all_headers_in_columns tbl)) as (ws & -> & _).
    simpl.
    destruct (rows tbl) as [|row rest] eqn:Hrest; [done|].
    simpl. unfold cell at 1. simpl. rewrite Hrest. simpl.
    assert (at_ row (length (columns tbl) + 0) = Undefined) as ->; [|done].
    unfold at_. rewrite lookup_ge_None_2; [done|].
    unfold length_invariant in Hlen. rewrite Hrest in Hlen.
    apply Forall_cons_1 in Hlen as [-> _]. lia.
Qed.

End projection.

Section projection_instances.
Local Existing Instance ExactDecimal.float64.
Import Table.

Lemma headers_of_projection_witness :
  ∃ headers,
    headers_of users_ages ["zip"; "age"; "age"] = Ok headers
    ∧ headers.*2
      = filter (λ n, n ∈ name <$> columns users_ages) ["zip"; "age"; "age"]
    ∧ Forall (λ h, name <$> columns users_ages !! h.1 = Some h.2) headers.
Proof.
  apply (headers_of_projection users_ages ["zip"; "age"; "age"]).
  apply users_ages_wf.
Defined.

Lemma addColumn_rows_untouched_witness :
  printTable (addColumn "zip" "int" users_ages) = Undefined.
Proof.
  apply (addColumn_rows_untouched "zip" "int" users_ages);
    [apply users_ages_wf|done].
Defined.

End projection_instances.


Section shell_loop.
Context `{F64 : Float64}.
Import DatabaseEngine SimpleDatabase.

Lemma append_nil_r s : s +:+ EmptyString = s.
Proof. induction s as [|c s IH]; [done|]. by rewrite append_cons, IH. Qed.

Lemma append_assoc s1 s2 s3 : (s1 +:+ s2) +:+ s3 = s1 +:+ (s2 +:+ s3).
Proof.
  induction s1 as [|c s1 IH]; [done|]. by rewrite !append_cons, IH.
Qed.

Lemma lines_from_read_line cur s :
  lines_from cur s
  = match read_line s with
    | (line, Some rest) => (cur +:+ line) :: lines rest
    | (line, None) => [cur +:+ line]
    end.
Proof.
  revert cur. induction s as [|c s IH]; intros cur; simpl.
  { by rewrite append_nil_r. }
  case_bool_decide as Hc; [by rewrite append_nil_r|].
  rewrite IH. destruct (read_line s) as [line [rest|]];
    by rewrite append_assoc.
Qed.

Lemma read_line_append line rest :
  contains "010" line = false →
  read_line (line +:+ String "010" rest) = (line, Some rest).
Proof.
  induction line as [|c line IH]; [done|].
  rewrite append_cons. simpl.
  intros [Hc Hline]%orb_false_elim. apply bool_decide_eq_false in Hc.
  rewrite bool_decide_eq_false_2 by done. by rewrite IH.
Qed.

Lemma executeQuery_Ok query st :
  Engine_wf st → (executeQuery query st).2 = Ok ().
Proof.
  intros Hwf. pose proof (executeQuery_outcome query st) as Hout.
  destruct (executeQuery query st) as [st1 r]. simpl in *.
  destruct Hout as [| | | | | | | | | | pq tbl ? ? Htbl Hlines | | | | |];
    try done.
  exfalso. eapply select_lines_defined; [|done].
  by eapply (Hwf (QueryParser.table_name pq)).
Qed.

Lemma command_wf input lower_input sh :
  Engine_wf (engine sh) →
  ∃ sh', command input lower_input sh = Ok sh'
         ∧ Engine_wf (engine sh') ∧ running sh' = running sh
         ∧ cin sh' = cin sh ∧ SimpleDatabase.input sh' = SimpleDatabase.input sh.
Proof.
  intros Hwf. unfold command.
  repeat case_bool_decide; try (eexists; by split_and!).
  pose proof (executeQuery_Ok input (engine sh) Hwf) as Hok.
  pose proof (executeQuery_wf input (engine sh) Hwf) as Hwf'.
  destruct (executeQuery input (engine sh)) as [st' r]. simpl in *. subst r.
  eexists. by split_and!.
Qed.

(** The shell goes on: it is running, its tables are well formed, and no
    line it will read ends it. Once the input is exhausted the line it reads
    is the one it read last. *)
Lemma iteration_goes_on sh :
  running sh = true → Engine_wf (engine sh) →
  (if good (cin sh)
   then Forall (λ line, exit_line line = false) (lines (buffer (cin sh)))
   else exit_line (SimpleDatabase.input sh) = false) →
  ∃ sh', iteration sh = Ok sh'
    ∧ running sh' = true ∧ Engine_wf (engine sh')
    ∧ (if good (cin sh')
       then Forall (λ line, exit_line line = false) (lines (buffer (cin sh')))
       else exit_line (SimpleDatabase.input sh') = false).
Proof.
  intros Hrun Hwf Hlines. unfold iteration.
  cbn [write with_engine cin SimpleDatabase.input engine running cleared].
  assert (∃ cin' input',
    getline (cin sh) (SimpleDatabase.input sh) = (cin', input')
    ∧ exit_line input' = false
    ∧ (if good cin'
       then Forall (λ line, exit_line line = false) (lines (buffer cin'))
       else True)) as (cin' & input' & -> & Hinput & Hrest).
  { unfold getline. destruct (good (cin sh)) eqn:Hgood.
    - unfold lines in Hlines. rewrite lines_from_read_line in Hlines.
      destruct (read_line (buffer (cin sh))) as [line [rest|]];
        apply Forall_cons_1 in Hlines as [Hline Hlines];
        eexists _, _; (split; [done|]); by split.
    - eexists _, _. split; [done|]. rewrite Hgood. by split. }
  assert (exit_line (trim input') = false) as Htrim.
  { unfold exit_line in *. by rewrite trim_idempotent. }
  destruct (empty (trim input')) eqn:Hempty.
  { eexists. split; [done|]. cbn. split_and!; [done|done|].
    by destruct (good cin'). }
  unfold exit_line in Hinput. rewrite Hinput.
  match goal with
  | |- context [command ?i ?l ?s] =>
      destruct (command_wf i l s) as (sh' & -> & Hwf' & Hrun' & Hcin & Hin);
        [done|]
  end.
  cbn in Hrun', Hcin, Hin. cbn [mbind result_bind].
  eexists. split; [done|]. cbn. rewrite Hrun', Hcin, Hin.
  split_and!; [done|done|]. by destruct (good cin').
Qed.

(** X16: a line that reads exit or quit, in any case and with blanks around
    it, ends the shell at once: it says goodbye, leaves the engine as it is
    but for the prompt and the goodbye, and does not read what follows the
    line. *)
Theorem exit_line_stops fuel sh line rest :
  running sh = true → good (cin sh) = true →
  buffer (cin sh) = line +:+ String "010" rest →
  contains "010" line = false → exit_line line = true →
  loop (S fuel) sh
  = Ok {| engine :=
            DatabaseEngine.mk (tables (engine sh))
              (cout (engine sh) ++ ["simpledb> "] ++ ["Goodbye!"])
              (cerr (engine sh));
          running := false;
          cin := {| buffer := rest; good := true |};
          input := trim line; cleared := cleared sh |}.
Proof.
  intros Hrun Hgood Hbuffer Hline Hexit.
  cbn [loop]. rewrite Hrun. unfold iteration.
  cbn [write with_engine cin SimpleDatabase.input engine running cleared].
  unfold getline. rewrite Hgood, Hbuffer, read_line_append by done.
  unfold exit_line in Hexit.
  assert (empty (trim line) = false) as ->.
  { destruct (trim line); [|done]. by vm_compute in Hexit. }
  rewrite Hexit. cbn [mbind result_bind write with_engine engine write_cout
                        running cin SimpleDatabase.input cleared fst cout
                        tables cerr].
  rewrite (app_assoc (cout (engine sh))). by destruct fuel.
Qed.

(** X17: the shell ends on an exit line only. On an input none of whose
    lines is one, and on tables that are well formed, it is still running
    after any number of turns: the end of the input does not end it. *)
Theorem run_without_exit fuel sh :
  running sh = true → good (cin sh) = true → Engine_wf (engine sh) →
  Forall (λ line, exit_line line = false) (lines (buffer (cin sh))) →
  ∃ sh', run fuel sh = Ok sh' ∧ running sh' = true.
Proof.
  intros Hrun Hgood Hwf Hlines. unfold run.
  assert (∀ sh0,
    running sh0 = true → Engine_wf (engine sh0) →
    (if good (cin sh0)
     then Forall (λ line, exit_line line = false) (lines (buffer (cin sh0)))
     else exit_line (SimpleDatabase.input sh0) = false) →
    ∃ sh', loop fuel sh0 = Ok sh' ∧ running sh' = true) as Hloop.
  { induction fuel as [|fuel IH]; intros sh0 Hrun0 Hwf0 Hlines0.
    - by exists sh0.
    - cbn [loop]. rewrite Hrun0.
      destruct (iteration_goes_on sh0)
        as (sh1 & -> & Hrun1 & Hwf1 & Hlines1); [done..|].
      cbn [mbind result_bind]. by apply IH. }
  apply Hloop; cbn; [done|done|]. by rewrite Hgood.
Qed.

End shell_loop.

Section shell_instances.
Local Existing Instance ExactDecimal.float64.
Import DatabaseEngine SimpleDatabase.

Lemma exit_line_stops_witness :
  ∃ sh', loop 5 (new (" Quit " +:+ String "010" "SHOW TABLES")) = Ok sh'
         ∧ running sh' = false ∧ buffer (cin sh') = "SHOW TABLES".
Proof.
  eexists. split.
  - by apply (exit_line_stops 4 (new (" Quit " +:+ String "010" "SHOW TABLES"))
                " Quit " "SHOW TABLES").
  - done.
Defined.

Lemma run_without_exit_witness :
  ∃ sh', run 7 (new "SHOW TABLES") = Ok sh' ∧ running sh' = true.
Proof.
  apply (run_without_exit 7 (new "SHOW TABLES")); [done|done| |].
  - apply map_Forall_empty.
  - by repeat constructor.
Defined.

End shell_instances.


Section sample_data.
Context `{F64 : Float64}.
Import QueryParser DatabaseEngine SimpleDatabase.

Lemma no_row_inserted_refl st st' :
  tables st' = tables st → no_row_inserted st st'.
Proof. intros Heq. split; intros name tbl; rewrite Heq; congruence. Qed.

Lemma no_row_inserted_trans st1 st2 st3 :
  no_row_inserted st1 st2 → no_row_inserted st2 st3 →
  no_row_inserted st1 st3.
Proof.
  intros [Hkeep12 Hnew12] [Hkeep23 Hnew23]. split.
  - intros name tbl Htbl. by apply Hkeep23, Hkeep12.
  - intros name tbl Htbl Hnone.
    destruct (tables st2 !! name) as [tbl2|] eqn:Htbl2.
    + pose proof (Hkeep23 _ _ Htbl2). simplify_eq. by eapply Hnew12.
    + by eapply Hnew23.
Qed.

Lemma executeQuery_syntax_error query e st :
  parse query = Throw e →
  executeQuery query st = (report e st, Ok ()).
Proof.
  intros Hparse.
  unfold executeQuery, dispatch, mbind, M_bind, bind, lift.
  by rewrite Hparse.
Qed.

Lemma executeQuery_create query pq st :
  parse query = Ok pq → query_type pq = CREATE_TABLE →
  (executeQuery query st).2 = Ok ()
  ∧ no_row_inserted st (executeQuery query st).1.
Proof.
  intros Hparse Hty. pose proof (executeQuery_outcome query st) as Hout.
  destruct (executeQuery query st) as [st' r]. simpl in *.
  inversion Hout as
    [ e Hp | pq' Hp | pq' Hp | pq' tbl0 Hp ? Hnone ? Hrows | pq' Hp Hty'
    | pq' tbl0 row Hp Hty' | pq' tbl0 e Hp Hty'
    | pq' Hp Hty' | pq' tbl0 lines Hp Hty' | pq' tbl0 e Hp Hty'
    | pq' tbl0 Hp Hty' | pq' Hp Hty' | pq' Hp Hty' | pq' Hp Hty'
    | pq' Hp Hty' | pq' tbl0 Hp Hty' ];
    subst; try (rewrite Hparse in Hp; simplify_eq; congruence);
    try (split; [done|]; by apply no_row_inserted_refl).
  split; [done|]. split; simpl.
  - intros name tbl Htbl.
    rewrite lookup_insert_ne; [done|]. intros <-. congruence.
  - intros name tbl' Htbl' Hnone'.
    destruct (decide (table_name pq' = name)) as [<-|Hne].
    + rewrite lookup_insert_eq in Htbl'. by simplify_eq.
    + rewrite lookup_insert_ne in Htbl' by done. congruence.
Qed.

Lemma executeQueries_no_row queries st :
  Forall (λ q, ∀ st, (executeQuery q st).2 = Ok ()
                     ∧ no_row_inserted st (executeQuery q st).1) queries →
  (executeQueries queries st).2 = Ok ()
  ∧ no_row_inserted st (executeQueries queries st).1.
Proof.
  intros Hqueries. revert st.
  induction Hqueries as [|q qs Hq _ IH]; intros st.
  { split; [done|]. by apply no_row_inserted_refl. }
  rewrite executeQueries_unfold.
  destruct (Hq st) as [Hok Hstep].
  destruct (executeQuery q st) as [st1 r]. simpl in *. subst r.
  destruct (IH st1) as [Hok' Hrest]. split; [done|].
  by eapply no_row_inserted_trans.
Qed.

(** X18: [loadSampleData] inserts no row, whatever the engine holds: each
    of its INSERT statements writes its opening parenthesis against the
    first value, and is refused. The tables of the engine stay as they are,
    a table that is new afterwards is empty, no exception gets out, and the
    message of success is written all the same. *)
Theorem loadSampleData_inserts_nothing (st : DatabaseEngine.t) :
  (loadSampleData st).2 = Ok ()
  ∧ no_row_inserted st (loadSampleData st).1
  ∧ "Sample data loaded successfully!" ∈ cout (loadSampleData st).1
  ∧ 8 ≤ length (cerr (loadSampleData st).1) - length (cerr st).
Proof.
  unfold loadSampleData.
  set (st0 := (write_cout ["Loading sample data..."] st).1).
  assert (∀ q,
    parse q = Throw (runtime_error "Missing values in INSERT statement") →
    ∀ st, (executeQuery q st).2 = Ok ()
          ∧ no_row_inserted st (executeQuery q st).1) as Hinsert.
  { intros q Hq st1. rewrite (executeQuery_syntax_error _ _ _ Hq).
    split; [done|]. by apply no_row_inserted_refl. }
  assert (∀ q pq,
    parse q = Ok pq → query_type pq = CREATE_TABLE →
    ∀ st, (executeQuery q st).2 = Ok ()
          ∧ no_row_inserted st (executeQuery q st).1) as Hcreate.
  { intros q pq Hq Hty st1. by eapply executeQuery_create. }
  destruct (executeQueries_no_row sample_queries st0) as [Hok Hrows].
  { unfold sample_queries.
    repeat first
      [ apply Forall_nil_2
      | apply Forall_cons_2;
          [first [ apply Hinsert; by vm_compute
                 | eapply Hcreate; [by vm_compute|done] ]|] ]. }
  assert (8 ≤ length (cerr (executeQueries sample_queries st0).1)
              - length (cerr st)) as Herr.
  { unfold sample_queries.
    assert (∀ q qs st1,
      parse q = Throw (runtime_error "Missing values in INSERT statement") →
      executeQueries (q :: qs) st1
      = executeQueries qs
          (report (runtime_error "Missing values in INSERT statement") st1))
      as Hstep.
    { intros q qs st1 Hq. rewrite executeQueries_unfold.
      by rewrite (executeQuery_syntax_error _ _ _ Hq). }
    assert (∀ q qs st1,
      (∃ pq, parse q = Ok pq ∧ query_type pq = CREATE_TABLE) →
      ∃ st2, executeQueries (q :: qs) st1 = executeQueries qs st2
             ∧ length (cerr st1) ≤ length (cerr st2)) as Hstep'.
    { intros q qs st1 (pq & Hq & Hty). rewrite executeQueries_unfold.
      destruct (executeQuery_create q pq st1 Hq Hty) as [Hok1 _].
      pose proof (executeQuery_outcome q st1) as Hout.
      destruct (executeQuery q st1) as [st2 r]. simpl in *. subst r.
      exists st2. split; [done|].
      destruct Hout; unfold report, print, with_tables; cbn [cerr];
        rewrite ?length_app; lia. }
    match goal with
    | |- context [executeQueries (?q :: ?qs) ?s] =>
        destruct (Hstep' q qs s) as (st1 & -> & Hlen1)
    end.
    { eexists. split; [by vm_compute|done]. }
    do 4 (rewrite Hstep by (by vm_compute)).
    match goal with
    | |- context [executeQueries (?q :: ?qs) ?s] =>
        destruct (Hstep' q qs s) as (st2 & -> & Hlen2)
    end.
    { eexists. split; [by vm_compute|done]. }
    do 4 (rewrite Hstep by (by vm_compute)).
    unfold report in *. cbn [executeQueries ret fst cerr] in *.
    rewrite !length_app in *. cbn [length] in *.
    assert (cerr st0 = cerr st) as Hst0 by done. rewrite Hst0 in Hlen1.
    lia. }
  destruct (executeQueries sample_queries st0) as [st' r]. simpl in *.
  subst r. cbn. split_and!; [done| | |done].
  - eapply no_row_inserted_trans; [|apply no_row_inserted_refl; done].
    eapply no_row_inserted_trans; [|done]. by apply no_row_inserted_refl.
  - apply elem_of_app. right. apply list_elem_of_here.
Qed.

End sample_data.


Section value_round_trip.
Context `{F64 : Float64}.
Import Table.

Lemma pretty_N_char_digit d :
  (d < 10)%N →
  isdigit (pretty_N_char d) = true
  ∧ digit_value (pretty_N_char d) = Z.of_N d.
Proof.
  intros Hd.
  assert (d = 0 ∨ d = 1 ∨ d = 2 ∨ d = 3 ∨ d = 4 ∨ d = 5 ∨ d = 6 ∨ d = 7
          ∨ d = 8 ∨ d = 9)%N as Hcases by lia.
  repeat destruct Hcases as [->|Hcases]; try subst d; by vm_compute.
Qed.

Lemma isdigit_not_space c : isdigit c = true → isspace c = false.
Proof.
  unfold isdigit, isspace. cbv zeta.
  intros [H1 H2]%andb_true_iff.
  apply bool_decide_eq_true in H1, H2.
  rewrite bool_decide_eq_false_2 by lia. simpl.
  rewrite bool_decide_eq_true_2 by lia. simpl.
  apply bool_decide_eq_false_2. lia.
Qed.

Lemma read_signed_digit c s :
  isdigit c = true →
  read_signed (String c s) = read_digits None (String c s).
Proof.
  intros Hc. destruct c as [[] [] [] [] [] [] [] []]; try done.
Qed.

Lemma pretty_N_go_front x s :
  (0 < x)%N → ∃ c s', pretty_N_go x s = String c s' ∧ isdigit c = true.
Proof.
  revert s. induction (N.lt_wf_0 x) as [x _ IH]; intros s Hx.
  rewrite pretty_N_go_step by done.
  destruct (decide (x `div` 10 = 0)%N) as [->|Hdiv].
  - rewrite pretty_N_go_0. eexists _, _. split; [done|].
    apply pretty_N_char_digit. by apply N.mod_lt.
  - apply IH; [by apply N.div_lt|by apply N.neq_0_lt_0].
Qed.

Lemma read_digits_pretty x s :
  (0 < x)%N →
  read_digits None (pretty_N_go x s) = read_digits (Some (Z.of_N x)) s.
Proof.
  revert s. induction (N.lt_wf_0 x) as [x _ IH]; intros s Hx.
  rewrite pretty_N_go_step by done.
  destruct (pretty_N_char_digit (x `mod` 10)) as [Hdigit Hvalue];
    [by apply N.mod_lt|].
  assert (Z.of_N x = 10 * Z.of_N (x `div` 10) + Z.of_N (x `mod` 10))%Z
    as Hx10.
  { rewrite (N.div_mod x 10) at 1 by done. lia. }
  destruct (decide (x `div` 10 = 0)%N) as [Hdiv|Hdiv].
  - rewrite Hdiv, pretty_N_go_0. cbn [read_digits]. rewrite Hdigit, Hvalue.
    rewrite Hx10, Hdiv. done.
  - rewrite IH; [|by apply N.div_lt|by apply N.neq_0_lt_0].
    cbn [read_digits]. rewrite Hdigit, Hvalue. cbn [default].
    by rewrite Hx10.
Qed.

Lemma stoi_pretty (i : Z) :
  (INT_MIN ≤ i ≤ INT_MAX)%Z → stoi (pretty i) = Ok i.
Proof.
  intros Hi. unfold stoi.
  assert (read_signed (skip_space (pretty i)) = Some i) as ->.
  2: { by rewrite bool_decide_eq_true_2. }
  destruct i as [|p|p]; [done| |].
  - change (pretty (Z.pos p)) with (pretty_N_go (N.pos p) EmptyString).
    destruct (pretty_N_go_front (N.pos p) EmptyString) as (c & s & Hs & Hc);
      [done|].
    rewrite Hs. cbn [skip_space]. rewrite (isdigit_not_space c Hc).
    rewrite read_signed_digit by done.
    rewrite <- Hs, read_digits_pretty by done. done.
  - change (pretty (Z.neg p))
      with (String "-" (pretty_N_go (N.pos p) EmptyString)).
    cbn [skip_space]. change (isspace "-") with false. cbn [read_signed].
    rewrite read_digits_pretty by done. done.
Qed.

Lemma parseValue_round_trip v ty :
  index v = kind_of_type ty → index v ≠ 1 →
  (∀ i, v = VInt i → (INT_MIN ≤ i ≤ INT_MAX)%Z) →
  parseValue (valueToString v) ty = Ok v.
Proof.
  unfold kind_of_type, parseValue. intros Hkind Hdouble Hrange.
  destruct v as [i|d|s|b]; simpl in *; [|done| |].
  - repeat case_bool_decide; try done. by rewrite stoi_pretty by auto.
  - by repeat case_bool_decide.
  - destruct b; by repeat case_bool_decide.
Qed.

(** X19: an integer, a Boolean or a string is read back from what is
    printed for it: [parseValue] on the text [valueToString] gives for a
    value, with the type of a column of that kind, returns the value. *)
Theorem parseValue_valueToString v ty :
  index v = kind_of_type ty → index v ≠ 1 →
  (∀ i, v = VInt i → (INT_MIN ≤ i ≤ INT_MAX)%Z) →
  parseValue (valueToString v) ty = Ok v.
Proof.
  unfold kind_of_type, parseValue. intros Hkind Hdouble Hrange.
  destruct v as [i|d|s|b]; simpl in *; [|done| |].
  - repeat case_bool_decide; try done. by rewrite stoi_pretty by auto.
  - by repeat case_bool_decide.
  - destruct b; by repeat case_bool_decide.
Qed.

End value_round_trip.

Section value_round_trip_instances.
Local Existing Instance ExactDecimal.float64.
Import Table.

Lemma parseValue_valueToString_witness :
  parseValue (valueToString (VInt (-2147483648))) "int"
  = Ok (VInt (-2147483648)).
Proof.
  apply (parseValue_valueToString (VInt (-2147483648)) "int");
    [done|done|].
  intros i [= <-]. by vm_compute.
Defined.

End value_round_trip_instances.


Section comparison.
Context `{F64 : Float64}.
Import Table.

Lemma string_leb_ltb a b : String.leb a b = String.ltb a b || bool_decide (a = b).
Proof.
  unfold String.leb, String.ltb.
  destruct (String.compare a b) eqn:Hcmp.
  - apply String.compare_eq_iff in Hcmp. by rewrite bool_decide_eq_true_2.
  - done.
  - rewrite bool_decide_eq_false_2; [done|].
    intros ->. pose proof (String.compare_antisym b b) as Hanti.
    rewrite Hcmp in Hanti. done.
Qed.

(** X20: the six comparison operators of a condition agree with one
    another, on values of the same kind and of different kinds alike:
    [!=] is the negation of [=], [>] and [>=] are [<] and [<=] with the
    two sides exchanged, and [<=] holds exactly when [<] or [=] does. *)
Theorem compare_op_algebra v w :
  compare_op "!=" v w = negb (compare_op "=" v w)
  ∧ compare_op ">" v w = compare_op "<" w v
  ∧ compare_op ">=" v w = compare_op "<=" w v
  ∧ compare_op "<=" v w = compare_op "<" v w || compare_op "=" v w.
Proof.
  unfold compare_op. simpl. split_and!.
  - destruct v, w; simpl; try done;
      by repeat case_bool_decide.
  - destruct v as [a|a|a|a], w as [b|b|b|b]; simpl; try done.
    by destruct a, b.
  - destruct v as [a|a|a|a], w as [b|b|b|b]; simpl; try done.
    by destruct a, b.
  - destruct v as [a|a|a|a], w as [b|b|b|b]; simpl;
      rewrite ?orb_false_r; try done.
    + repeat case_bool_decide; try done; lia.
    + apply string_leb_ltb.
    + by destruct a, b.
Qed.

End comparison.

Section database_info.
Context `{F64 : Float64}.
Import DatabaseEngine.

Lemma total_rows_insert_None name tbl (st : DatabaseEngine.t) :
  tables st !! name = None →
  total_rows (with_tables (<[name := tbl]> (tables st)) st)
  = total_rows st + Table.size tbl.
Proof.
  intros Hnone. unfold total_rows. simpl.
  rewrite map_fold_insert_L; [done| |done]. intros. lia.
Qed.

Lemma total_rows_delete name tbl (st : DatabaseEngine.t) :
  tables st !! name = Some tbl →
  total_rows st
  = total_rows (with_tables (delete name (tables st)) st) + Table.size tbl.
Proof.
  intros Hsome. unfold total_rows. simpl.
  rewrite (map_fold_delete_L _ _ name tbl); [done| |done]. intros. lia.
Qed.

Lemma total_rows_insert_Some name tbl tbl' (st : DatabaseEngine.t) :
  tables st !! name = Some tbl →
  total_rows (with_tables (<[name := tbl']> (tables st)) st) + Table.size tbl
  = total_rows st + Table.size tbl'.
Proof.
  intros Hsome. rewrite (total_rows_delete name tbl st Hsome).
  pose proof (total_rows_insert_None name tbl'
                (with_tables (delete name (tables st)) st)) as Hins.
  simpl in Hins. rewrite insert_delete_eq in Hins.
  unfold total_rows in *. simpl in *.
  rewrite Hins by apply lookup_delete_eq. lia.
Qed.

(** X21: what the info command counts. The number of tables is the number
    of names [listTables] returns. A call of [insertInto] that returns adds
    one to the total of rows and leaves the number of tables; one that
    throws leaves both. A call of [createTable] that returns adds one table
    and no row, and a call of [dropTable] that returns takes off one table
    and the rows it held. *)
Theorem info_counts (st : DatabaseEngine.t) :
  getTableCount st = length (listTables st)
  ∧ (∀ name values st',
       insertInto name values st = (st', Ok ()) →
       total_rows st' = S (total_rows st)
       ∧ getTableCount st' = getTableCount st)
  ∧ (∀ name values st' e,
       insertInto name values st = (st', Throw e) →
       total_rows st' = total_rows st
       ∧ getTableCount st' = getTableCount st)
  ∧ (∀ name st',
       createTable name st = (st', Ok ()) →
       total_rows st' = total_rows st
       ∧ getTableCount st' = S (getTableCount st))
  ∧ (∀ name tbl st',
       tables st !! name = Some tbl →
       dropTable name st = (st', Ok ()) →
       total_rows st' + Table.size tbl = total_rows st
       ∧ S (getTableCount st') = getTableCount st).
Proof.
  split_and!.
  - unfold getTableCount, listTables.
    rewrite merge_sort_Permutation, length_fmap, length_map_to_list. done.
  - intros name values st'. unfold insertInto, getTable.
    unfold mbind, M_bind, bind, ret, throw, lift, set_tables.
    destruct (tables st !! name) as [tbl|] eqn:Htbl; [|done].
    unfold Table.insertRow_strings.
    case_bool_decide; [by intros [= <-]|].
    destruct (Table.build_row tbl values 0 []) as [row| |]; simpl;
      [|done..].
    intros [= <-]. split.
    + pose proof (total_rows_insert_Some name tbl (Table.push_row row tbl)
                    st Htbl) as Hrows.
      unfold with_tables, Table.size in Hrows. simpl in Hrows.
      rewrite length_app in Hrows. simpl in Hrows.
      unfold total_rows in *. simpl in *. unfold Table.size in *. lia.
    + unfold getTableCount. simpl.
      rewrite map_size_insert_Some; [done|by eexists].
  - intros name values st' e. unfold insertInto, getTable.
    unfold mbind, M_bind, bind, ret, throw, lift, set_tables.
    destruct (tables st !! name) as [tbl|] eqn:Htbl; [|by intros [= <- _]].
    assert (∀ tbl' : Table.t,
      tbl' = tbl →
      total_rows (DatabaseEngine.mk (<[name := tbl']> (tables st))
                    (cout st) (cerr st)) = total_rows st
      ∧ getTableCount (DatabaseEngine.mk (<[name := tbl']> (tables st))
                         (cout st) (cerr st)) = getTableCount st) as Hsame.
    { intros tbl' ->. split.
      - pose proof (total_rows_insert_Some name tbl tbl st Htbl) as Hrows.
        unfold with_tables in Hrows. lia.
      - unfold getTableCount. simpl.
        rewrite map_size_insert_Some; [done|by eexists]. }
    unfold Table.insertRow_strings.
    case_bool_decide; [intros [= <- _]; by apply Hsame|].
    destruct (Table.build_row tbl values 0 []) as [row| |]; simpl;
      [done| |done].
    intros [= <- _]. by apply Hsame.
  - intros name st'. unfold createTable, set_tables, throw.
    destruct (hasTable st name) eqn:Hhas; [done|]. intros [= <-].
    assert (tables st !! name = None) as Hnone.
    { unfold hasTable in Hhas. apply bool_decide_eq_false in Hhas.
      by apply eq_None_not_Some. }
    split.
    + pose proof (total_rows_insert_None name (Table.new name) st Hnone)
        as Hrows.
      unfold with_tables, Table.size in Hrows. simpl in Hrows.
      unfold total_rows in *. simpl in *. lia.
    + unfold getTableCount. simpl. by rewrite map_size_insert_None.
  - intros name tbl st' Htbl. unfold dropTable, set_tables, throw, hasTable.
    rewrite bool_decide_eq_true_2 by (by eexists). simpl. intros [= <-].
    split.
    + by rewrite (total_rows_delete name tbl st Htbl).
    + unfold getTableCount. simpl.
      rewrite map_size_delete_Some by (by eexists).
      assert (size (tables st) ≠ 0); [|lia].
      intros Hempty%map_size_empty_inv. by rewrite Hempty in Htbl.
Qed.

End database_info.

Section database_info_instances.
Local Existing Instance ExactDecimal.float64.
Import DatabaseEngine.

Lemma info_counts_witness :
  total_rows (createTable "t" new).1 = total_rows new
  ∧ getTableCount (createTable "t" new).1 = S (getTableCount new).
Proof.
  destruct (info_counts new) as (_ & _ & _ & Hcreate & _).
  apply (Hcreate "t" (createTable "t" new).1). reflexivity.
Defined.

End database_info_instances.


Section statements_with_blanks.
Import QueryParser.

Lemma words_from_no_space cur s :
  has_space s = false →
  words_from cur s = if empty (cur +:+ s) then [] else [cur +:+ s].
Proof.
  revert cur. induction s as [|c s IH]; intros cur; simpl.
  - intros _. by rewrite append_nil_r.
  - intros [Hc Hs]%orb_false_elim. rewrite Hc, IH by done.
    by rewrite append_assoc.
Qed.

Lemma tokenize_stable t : stable_token t → tokenize t = [t].
Proof.
  intros [[Hne Hsp] Hshape]. rewrite tokenize_fragments. unfold words.
  rewrite words_from_no_space by done.
  change (EmptyString +:+ t) with t.
  destruct t as [|c t]; [done|]. cbn [empty fmap list_fmap].
  change (mjoin [tokenize_step [] (String c t)])
    with (tokenize_step [] (String c t) ++ []).
  rewrite app_nil_r.
  destruct Hshape as [Ht|[Ht|[Ht|[Hfront Hback]]]];
    [by rewrite Ht..|].
  unfold tokenize_step. unfold ends_with_punct in Hback.
  destruct (back (String c t)) as [punct|] eqn:Hpunct;
    [|by apply back_None in Hpunct].
  rewrite Hback.
  rewrite (bool_decide_eq_false_2 (front (String c t) = Some "("%char))
    by done.
  by rewrite andb_false_r.
Qed.

(** X22: writing a statement with a blank between any two tokens is safe:
    the tokenizer gives back the tokens of a list joined by blanks, when
    each of them is a parenthesis or a comma on its own, or a word without
    white space that has no open parenthesis in front and no comma,
    semicolon or close parenthesis at the back. *)
Theorem tokenize_unwords tokens :
  Forall stable_token tokens → tokenize (unwords tokens) = tokens.
Proof.
  induction 1 as [|t ts Ht Hts IH]; [done|].
  destruct ts as [|t' ts]; [by apply tokenize_stable|].
  change (unwords (t :: t' :: ts))
    with (t +:+ String " " (unwords (t' :: ts))).
  rewrite tokenize_fragments. unfold words.
  rewrite words_from_space by done.
  rewrite fmap_app, join_app.
  fold (words t) (words (unwords (t' :: ts))).
  rewrite <- !tokenize_fragments. by rewrite IH, tokenize_stable.
Qed.

Lemma tokenize_unwords_witness :
  tokenize "INSERT INTO t VALUES ( 1 , 'a' )"
  = ["INSERT"; "INTO"; "t"; "VALUES"; "("; "1"; ","; "'a'"; ")"].
Proof.
  apply (tokenize_unwords
           ["INSERT"; "INTO"; "t"; "VALUES"; "("; "1"; ","; "'a'"; ")"]).
  repeat (constructor; [split; [done|]; by eauto 6|]). constructor.
Defined.

End statements_with_blanks.

Section row_round_trip.
Context `{F64 : Float64}.
Import Table.

Lemma build_row_printable tbl row i acc :
  Forall2 printable row (drop i (columns tbl)) →
  build_row tbl (valueToString <$> row) i acc = Ok (acc ++ row).
Proof.
  revert i acc. induction row as [|v row IH]; intros i acc Hrow; simpl.
  { by rewrite app_nil_r. }
  apply Forall2_cons_inv_l in Hrow as (col & rest & Hv & Hrest & Hdrop).
  assert (columns tbl !! i = Some col) as Hcol.
  { rewrite <- (Nat.add_0_r i), <- lookup_drop. by rewrite Hdrop. }
  rewrite (proj2 (at_Ok _ _ _) Hcol). simpl.
  destruct Hv as (Hkind & Hdouble & Hrange).
  rewrite parseValue_round_trip by done. simpl.
  rewrite IH; [by rewrite <- app_assoc|].
  rewrite (drop_S _ _ _ Hcol) in Hdrop. by simplify_eq.
Qed.

(** X23: a row can be inserted from its printed form. On a table whose
    columns are of the kinds of the values of [row], none of them a
    [double], [insertRow] on the texts [valueToString] gives for the values
    appends [row] itself. *)
Theorem insertRow_strings_printed tbl row :
  Forall2 printable row (columns tbl) →
  insertRow_strings (valueToString <$> row) tbl = (push_row row tbl, Ok ()).
Proof.
  intros Hrow. unfold insertRow_strings.
  rewrite bool_decide_eq_false_2.
  2: { rewrite length_fmap. apply Forall2_length in Hrow. lia. }
  by rewrite build_row_printable.
Qed.

End row_round_trip.

Section row_round_trip_instances.
Local Existing Instance ExactDecimal.float64.
Import Table.

Lemma insertRow_strings_printed_witness :
  insertRow_strings ["-7"] users_ages
  = (push_row [VInt (-7)] users_ages, Ok ()).
Proof.
  apply (insertRow_strings_printed users_ages [VInt (-7)]).
  constructor; [|constructor].
  split_and!; [done|done|]. intros i [= <-]. by vm_compute.
Defined.

End row_round_trip_instances.


(** * Texts that are read as integers *)

Section integer_texts.

Lemma all_space_skip ws s :
  all_space ws = true → skip_space (ws +:+ s) = skip_space s.
Proof.
  induction ws as [|c ws IH]; [done|]. rewrite append_cons. simpl.
  intros [-> Hws]%andb_true_iff. by apply IH.
Qed.

Lemma skip_space_decompose s :
  ∃ ws, s = ws +:+ skip_space s ∧ all_space ws = true.
Proof.
  induction s as [|c s (ws & Hs & Hws)]; [by exists EmptyString|].
  simpl. destruct (isspace c) eqn:Hc.
  - exists (String c ws). rewrite append_cons, <- Hs. simpl.
    by rewrite Hc, Hws.
  - by exists EmptyString.
Qed.

Lemma skip_space_front c s :
  isspace c = false → skip_space (String c s) = String c s.
Proof. intros Hc. simpl. by rewrite Hc. Qed.

Lemma read_signed_unsigned c s :
  c ≠ "-"%char → c ≠ "+"%char →
  read_signed (String c s) = read_digits None (String c s).
Proof.
  intros Hminus Hplus. destruct c as [[] [] [] [] [] [] [] []]; done.
Qed.

(** The digits [read_digits] reads are those before [rest]. *)
Lemma read_digits_app acc digits rest :
  all_digits digits = true →
  (∀ c, front rest = Some c → isdigit c = false) →
  read_digits acc (digits +:+ rest)
  = if empty digits then acc else Some (decimal (default 0%Z acc) digits).
Proof.
  intros Hdigits Hrest. revert acc Hdigits.
  induction digits as [|c digits IH]; intros acc Hdigits.
  - simpl. change (EmptyString +:+ rest) with rest.
    destruct rest as [|c rest]; [done|]. simpl.
    by rewrite (Hrest c eq_refl).
  - rewrite append_cons. simpl in *.
    apply andb_true_iff in Hdigits as [Hc Hdigits]. rewrite Hc.
    rewrite IH by done. by destruct digits.
Qed.

(** What [read_digits] reads is a run of digits that ends [s] or is followed
    by another character. *)
Lemma read_digits_span acc s :
  ∃ digits rest,
    s = digits +:+ rest ∧ all_digits digits = true
    ∧ (∀ c, front rest = Some c → isdigit c = false)
    ∧ read_digits acc s
      = if empty digits then acc else Some (decimal (default 0%Z acc) digits).
Proof.
  revert acc. induction s as [|c s IH]; intros acc.
  { by exists EmptyString, EmptyString. }
  simpl. destruct (isdigit c) eqn:Hc.
  - destruct (IH (Some (10 * default 0 acc + digit_value c)%Z))
      as (digits & rest & -> & Hdigits & Hrest & ->).
    exists (String c digits), rest. rewrite append_cons. simpl.
    rewrite Hc, Hdigits. split_and!; [done..|]. by destruct digits.
  - exists EmptyString, (String c s). split_and!; [done..| |done].
    intros c' [= <-]. done.
Qed.

Lemma append_nil_l s : EmptyString +:+ s = s.
Proof. done. Qed.

(** [std::stoi] reads the integer the text starts with, and nothing else. *)
Lemma read_signed_prefix value i :
  read_signed (skip_space value) = Some i ↔ integer_prefix value i.
Proof.
  split.
  - destruct (skip_space_decompose value) as (ws & Hvalue & Hws).
    intros Hread.
    assert (∀ s m,
      read_digits None s = Some m →
      ∃ digits rest, s = digits +:+ rest ∧ digits ≠ EmptyString
        ∧ all_digits digits = true
        ∧ (∀ c, front rest = Some c → isdigit c = false)
        ∧ m = decimal 0 digits) as Hspan.
    { intros s m Hs.
      destruct (read_digits_span None s)
        as (digits & rest & -> & Hdigits & Hrest & Heq).
      rewrite Heq in Hs. destruct digits as [|c digits]; [done|].
      simpl in Hs. injection Hs as <-. by exists (String c digits), rest. }
    destruct (skip_space value) as [|c s] eqn:Hskip; [done|].
    destruct (decide (c = "-"%char)) as [->|Hminus].
    { cbn [read_signed] in Hread.
      destruct (read_digits None s) as [m|] eqn:Hs; [|done].
      injection Hread as <-.
      destruct (Hspan s m Hs) as (digits & rest & -> & ? & ? & ? & ->).
      exists ws, "-", digits, rest. split_and!; try done.
      apply list_elem_of_further, list_elem_of_further, list_elem_of_here. }
    destruct (decide (c = "+"%char)) as [->|Hplus].
    { cbn [read_signed] in Hread.
      destruct (Hspan s i Hread) as (digits & rest & -> & ? & ? & ? & ->).
      exists ws, "+", digits, rest. split_and!; try done.
      apply list_elem_of_further, list_elem_of_here. }
    rewrite read_signed_unsigned in Hread by done.
    destruct (Hspan _ i Hread) as (digits & rest & Hs & ? & ? & ? & ->).
    exists ws, EmptyString, digits, rest. rewrite append_nil_l, <- Hs.
    split_and!; try done. apply list_elem_of_here.
  - intros (ws & sign & digits & rest & -> & Hws & Hsign & Hne & Hdigits
              & Hrest & ->).
    rewrite all_space_skip by done.
    destruct digits as [|d digits]; [done|].
    pose proof Hdigits as [Hd _]%andb_true_iff.
    pose proof (read_digits_app None (String d digits) rest Hdigits Hrest)
      as Hread.
    cbn [empty default] in Hread.
    apply elem_of_cons in Hsign as [->|Hsign].
    { rewrite append_nil_l, append_cons.
      rewrite skip_space_front by (by apply isdigit_not_space).
      rewrite read_signed_digit by done. by rewrite <- append_cons. }
    apply elem_of_cons in Hsign as [->|Hsign].
    { change ("+" +:+ String d digits +:+ rest)
        with (String "+" (String d digits +:+ rest)).
      rewrite skip_space_front by done. cbn [read_signed]. by rewrite Hread. }
    apply list_elem_of_singleton in Hsign as ->.
    change ("-" +:+ String d digits +:+ rest)
      with (String "-" (String d digits +:+ rest)).
    rewrite skip_space_front by done. cbn [read_signed]. by rewrite Hread.
Qed.

Lemma stoi_prefix_Ok value i :
  stoi value = Ok i ↔ integer_prefix value i ∧ (INT_MIN ≤ i ≤ INT_MAX)%Z.
Proof.
  rewrite <- read_signed_prefix. unfold stoi.
  destruct (read_signed (skip_space value)) as [v|].
  - case_bool_decide as Hrange.
    + split; [by intros [= ->]|by intros [[= ->] _]].
    + split; [done|]. intros [[= ->] Hi]. by destruct Hrange.
  - split; [done|]. by intros [? _].
Qed.

End integer_texts.


Section refused_texts.
Context `{F64 : Float64}.
Import Table.

Lemma refused_rejected tbl values : refused tbl values ↔ rejected tbl values.
Proof.
  unfold refused, rejected. split.
  - intros [Hlen|(i & col & value & Hcol & Hvalue & Hbad)]; [by left|].
    right. exists i, col, value. split_and!; [done|done| |].
    + destruct Hbad as [[Hty _]|[Hty _]]; [by left|by right].
    + intros [Hint Hdouble].
      destruct Hbad as [[Hty Hnone]|[Hty [e He]]].
      * destruct (Hint Hty) as [n [Hn Hrange]%stoi_prefix_Ok].
        by apply (Hnone n).
      * destruct (Hdouble Hty) as [d Hd]. congruence.
  - intros [Hlen|(i & col & value & Hcol & Hvalue & Hnum & Hparses)];
      [by left|].
    right. exists i, col, value. split_and!; [done|done|].
    destruct Hnum as [Hty|Hty].
    + left. split; [done|]. intros n Hn Hrange. apply Hparses.
      split; [|intros ?; congruence].
      intros _. exists n. by apply stoi_prefix_Ok.
    + right. split; [done|].
      destruct (stod value) as [d|e|] eqn:Hd; [|by eauto|].
      * destruct Hparses. split; [intros ?; congruence|]. by eauto.
      * by apply stod_defined in Hd.
Qed.

(** C4: [insertRow] on a vector of strings is all or nothing, and reads
    numbers by their beginning. It throws and leaves the table as it was
    when the number of values differs from the number of columns, when the
    text at a column declared [int] does not start, after white space and an
    optional sign, with a digit, or starts with an integer outside the range
    of [int], and when [std::stod] throws on the text at a column declared
    [double]. Otherwise it appends exactly one row at the end, in which an
    [int] column holds the integer its text starts with, whatever follows
    the digits. *)
Theorem insertRow_strings_all_or_nothing tbl values :
  (refused tbl values → ∃ e, insertRow_strings values tbl = (tbl, Throw e))
  ∧ (¬ refused tbl values →
     ∃ row, insertRow_strings values tbl = (push_row row tbl, Ok ())
       ∧ rows (push_row row tbl) = rows tbl ++ [row]
       ∧ columns (push_row row tbl) = columns tbl
       ∧ ∀ i col value n,
           columns tbl !! i = Some col → type col = "int" →
           values !! i = Some value → integer_prefix value n →
           row !! i = Some (VInt n)).
Proof.
  destruct (insertRow_strings_conversions tbl values) as [Hthrow Happend].
  split.
  - intros Hbad. by apply Hthrow, refused_rejected.
  - intros Hgood.
    destruct Happend as (row & Hrun & Hrows & Hcols).
    { by rewrite <- refused_rejected. }
    exists row. split_and!; [done..|].
    intros i col value n Hcol Hty Hvalue Hprefix.
    unfold insertRow_strings in Hrun.
    case_bool_decide as Hlen; [done|].
    destruct (build_row tbl values 0 []) as [row'| |] eqn:Hbuild;
      [|done..].
    assert (row' = row) as ->.
    { injection Hrun as Hpush.
      by apply app_inv_head in Hpush as [= ->]. }
    apply build_row_Ok in Hbuild as (vs & -> & Hvs & Hall).
    rewrite app_nil_l.
    destruct (lookup_lt_is_Some_2 vs i) as [v Hv].
    { rewrite Hvs. by eapply lookup_lt_Some. }
    destruct (Hall i v Hv) as (col' & value' & Hcol' & Hvalue' & Hparse).
    simpl in Hcol'. simplify_eq.
    assert (v = VInt n) as <-; [|exact Hv].
    unfold parseValue in Hparse. rewrite Hty in Hparse.
    rewrite bool_decide_eq_true_2 in Hparse by done.
    apply mbind_Ok in Hparse as (m & [Hm _]%stoi_prefix_Ok & [= <-]).
    apply read_signed_prefix in Hm, Hprefix. congruence.
Qed.

End refused_texts.

Section refused_texts_instances.
Local Existing Instance ExactDecimal.float64.
Import Table.

Lemma integer_prefix_12abc : integer_prefix "12abc" 12.
Proof.
  exists EmptyString, EmptyString, "12", "abc".
  split_and!; try done; [apply list_elem_of_here|by intros c [= <-]].
Qed.

Lemma integer_prefix_none value :
  read_signed (skip_space value) = None → ∀ n, ¬ integer_prefix value n.
Proof. intros Hnone n Hn%read_signed_prefix. congruence. Qed.

(** C4, as stated, fails: a text that is not a valid integer is
    accepted at an [int] column when it starts with one, and the row holds
    the integer it starts with. *)
Lemma insertRow_strings_accepts_prefix :
  let tbl := addColumn "age" "int" (new "users") in
  ¬ valid_integer "12abc" ∧ ¬ valid_integer "3.9"
  ∧ insertRow_strings ["12abc"] tbl = (push_row [VInt 12] tbl, Ok ())
  ∧ insertRow_strings ["3.9"] tbl = (push_row [VInt 3] tbl, Ok ()).
Proof.
  assert (∀ value,
    (∀ digits, value = digits → all_digits digits = false) →
    front value ≠ Some "+"%char → front value ≠ Some "-"%char →
    ¬ valid_integer value) as Hinvalid.
  { intros value Hdigits Hplus Hminus (sign & digits & -> & Hsign & _ & Hall).
    apply elem_of_cons in Hsign as [->|Hsign].
    { rewrite (Hdigits digits) in Hall; done. }
    apply elem_of_cons in Hsign as [->|Hsign]; [by destruct Hplus|].
    apply list_elem_of_singleton in Hsign as ->. by destruct Hminus. }
  intros tbl. split_and!.
  - apply Hinvalid; [by intros ? <-|done..].
  - apply Hinvalid; [by intros ? <-|done..].
  - done.
  - done.
Qed.

Lemma insertRow_strings_all_or_nothing_witness :
  let tbl := addColumn "age" "int" (new "users") in
  (∃ e, insertRow_strings ["x"] tbl = (tbl, Throw e))
  ∧ (∃ row, insertRow_strings ["12abc"] tbl = (push_row row tbl, Ok ())
       ∧ rows (push_row row tbl) = rows tbl ++ [row]
       ∧ columns (push_row row tbl) = columns tbl
       ∧ row !! 0 = Some (VInt 12)).
Proof.
  intros tbl. split.
  - apply (proj1 (insertRow_strings_all_or_nothing tbl ["x"])).
    right. exists 0, (mkColumn "age" "int"), "x".
    split_and!; [done|done|]. left. split; [done|].
    intros n Hn. by apply integer_prefix_none in Hn.
  - destruct (proj2 (insertRow_strings_all_or_nothing tbl ["12abc"]))
      as (row & Hrun & Hrows & Hcols & Hint).
    + intros [Hlen|(i & col & value & Hcol & Hvalue & Hbad)].
      * by apply Hlen.
      * destruct i as [|i]; [|done].
        injection Hcol as <-. injection Hvalue as <-.
        destruct Hbad as [[_ Hnone]|[Hty _]]; [|done].
        by apply (Hnone 12%Z integer_prefix_12abc).
    + exists row. split_and!; [done..|].
      apply (Hint 0 (mkColumn "age" "int") "12abc");
        [done|done|done|apply integer_prefix_12abc].
Defined.

End refused_texts_instances.


(** * CREATE TABLE and DESCRIBE *)

Section create_and_describe.
Context `{F64 : Float64}.
Import QueryParser DatabaseEngine.


End create_and_describe.

Section create_and_describe_instances.
Local Existing Instance ExactDecimal.float64.
Import QueryParser DatabaseEngine.


End create_and_describe_instances.
